(** * Residue-confidence visualisation: parser, PAE selector, highlight coordinator

    A shallow embedding of the residue-selection subsystem of the viewer:
    - [PDBInformation]: [parsePDB], [getHighlightType] and
      [formatSequenceWithScores] (src/src/components/Molecule3D.tsx, the
      PDBInformation component, lines 440-778);
    - [PAEHeatmap]: the PAE heat map (src/src/components/ProteinViewerPanel.tsx,
      lines 115-491): its colour scale and image, the pointer handlers,
      the rectangle it draws, the axis ticks and the "Clear Selection" button;
    - [Molecule3D]: the highlight effect [applyHighlight], [cleanupViewer]
      and the reset and zoom handlers (src/src/components/Molecule3D.tsx,
      lines 52-316);
    - [ProteinViewerPanel]: how the panel passes the heat map's selection to
      the two views (src/src/components/ProteinViewerPanel.tsx, lines 50-107).

    Modelling conventions.  Text is modelled as [String.string] (a list of
    bytes); the PDB format is ASCII, where JavaScript's UTF-16 indices and
    byte indices coincide.  JavaScript numbers that hold residue numbers are
    modelled as [Z]; pointer coordinates as exact rationals [Q]. *)

From Stdlib Require Import String Ascii ZArith QArith Qround List Bool Lia.
From Stdlib Require Import Sorting.Sorted Sorting.Permutation DecimalString.
From Stdlib Require Import Reals Qreals Lra.
From Stdlib Require Import Qpower.
From Stdlib Require Lqa.
Import ListNotations.

Open Scope Z_scope.

(** ** JavaScript helpers on strings and arrays *)

Module JS.

Definition is_ws (c : ascii) : bool :=
  match nat_of_ascii c with
  | 9 | 10 | 11 | 12 | 13 | 32 => true
  | _ => false
  end%nat.

Fixpoint trim_start (s : string) : string :=
  match s with
  | EmptyString => EmptyString
  | String c t => if is_ws c then trim_start t else s
  end.

Definition rev_string (s : string) : string :=
  string_of_list_ascii (rev (list_ascii_of_string s)).

(** [String.prototype.trim] (ASCII white space and line terminators). *)
Definition trim (s : string) : string :=
  rev_string (trim_start (rev_string (trim_start s))).

(** [s.substring(a, b)] for [0 <= a <= b]; indices past the end are clamped. *)
Definition substring (s : string) (a b : nat) : string :=
  String.substring a (b - a) s.

Definition startsWith (s p : string) : bool := String.prefix p s.

(** [s.split('\n')]. *)
Fixpoint split_nl_aux (acc : string) (s : string) : list string :=
  match s with
  | EmptyString => [acc]
  | String c t =>
      if Ascii.eqb c "010"%char then acc :: split_nl_aux EmptyString t
      else split_nl_aux (acc ++ String c EmptyString) t
  end.

Definition split_nl (s : string) : list string := split_nl_aux EmptyString s.

Definition digit_value (c : ascii) : option Z :=
  let n := nat_of_ascii c in
  if (48 <=? n)%nat && (n <=? 57)%nat then Some (Z.of_nat n - 48) else None.

Fixpoint digits_acc (acc : Z) (s : string) : Z :=
  match s with
  | EmptyString => acc
  | String c t =>
      match digit_value c with
      | Some d => digits_acc (10 * acc + d) t
      | None => acc
      end
  end.

(** [parseInt(s, 10)] with [None] for [NaN]: leading white space, an
    optional sign, then the longest run of decimal digits, of which there
    must be at least one. *)
Definition parseInt (s : string) : option Z :=
  let s := trim_start s in
  let '(sign, body) :=
    match s with
    | String "-" t => (-1, t)
    | String "+" t => (1, t)
    | _ => (1, s)
    end in
  match body with
  | String c _ =>
      match digit_value c with
      | Some _ => Some (sign * digits_acc 0 body)
      | None => None
      end
  | EmptyString => None
  end.

(** [`${n}`] for an integral number. *)
Definition show_Z (z : Z) : string := NilEmpty.string_of_int (Z.to_int z).

(** [xs.join(sep)]. *)
Fixpoint join (sep : string) (xs : list string) : string :=
  match xs with
  | [] => EmptyString
  | [x] => x
  | x :: t => x ++ sep ++ join sep t
  end.

Definition includes (xs : list string) (x : string) : bool :=
  existsb (String.eqb x) xs.

(** A JavaScript [Map] as an association list in insertion order:
    [set] on a present key keeps its position, on a new key appends. *)
Section AssocMap.
Context {K V : Type} (eqb : K -> K -> bool).

Fixpoint map_get (k : K) (m : list (K * V)) : option V :=
  match m with
  | [] => None
  | (k', v) :: t => if eqb k k' then Some v else map_get k t
  end.

Fixpoint map_set (k : K) (v : V) (m : list (K * V)) : list (K * V) :=
  match m with
  | [] => [(k, v)]
  | (k', v') :: t => if eqb k k' then (k', v) :: t else (k', v') :: map_set k v t
  end.

Definition map_has (k : K) (m : list (K * V)) : bool :=
  match map_get k m with Some _ => true | None => false end.
End AssocMap.

Definition hex_digit_value (c : ascii) : option Z :=
  let n := nat_of_ascii c in
  if (48 <=? n)%nat && (n <=? 57)%nat then Some (Z.of_nat n - 48)
  else if (97 <=? n)%nat && (n <=? 102)%nat then Some (Z.of_nat n - 87)
  else if (65 <=? n)%nat && (n <=? 70)%nat then Some (Z.of_nat n - 55)
  else None.

Fixpoint hex_digits_acc (acc : Z) (s : string) : Z :=
  match s with
  | EmptyString => acc
  | String c t =>
      match hex_digit_value c with
      | Some d => hex_digits_acc (16 * acc + d) t
      | None => acc
      end
  end.

(** [parseInt(s, 16)] with [None] for [NaN]: leading white space, an
    optional sign, an optional [0x]/[0X] prefix, then the longest run of
    hexadecimal digits, of which there must be at least one. *)
Definition parseInt16 (s : string) : option Z :=
  let s := trim_start s in
  let '(sign, body) :=
    match s with
    | String "-" t => (-1, t)
    | String "+" t => (1, t)
    | _ => (1, s)
    end in
  let body :=
    match body with
    | String "0" (String "x" t) => t
    | String "0" (String "X" t) => t
    | _ => body
    end in
  match body with
  | String c _ =>
      match hex_digit_value c with
      | Some _ => Some (sign * hex_digits_acc 0 body)
      | None => None
      end
  | EmptyString => None
  end.

(** [arr[k] = v] on an array of fixed length (a typed array): a write past
    the end is ignored. *)
Fixpoint list_set {A} (l : list A) (k : nat) (v : A) : list A :=
  match l, k with
  | [], _ => []
  | _ :: t, O => v :: t
  | a :: t, S k' => a :: list_set t k' v
  end.

End JS.

(** ** The PDBInformation component *)

Module PDBInformation.
Import JS.

Inductive ChainType := Protein | RNA | DNA | Ion | Ligand | Other.

Record ChainInfo := {
  chainId : string;
  type : ChainType;
  sequence : string;
  residueCount : Z;
  startResidue : Z
}.

(** PAE selection: X axis (scored) and Y axis (aligned). *)
Record PAEHighlight := {
  scoredStart : Z;
  scoredEnd : Z;
  alignedStart : Z;
  alignedEnd : Z
}.

Record PLDDTData := {
  scores : list Q;
  residueNumbers : list Z;
  chainIds : list string
}.

Inductive HighlightType := HNone | HScored | HAligned | HBoth.

(** [getHighlightType]. *)
Definition getHighlightType (residueNumber : Z) (paeHighlight : option PAEHighlight)
  : HighlightType :=
  match paeHighlight with
  | None => HNone
  | Some p =>
      let inScored := (scoredStart p <=? residueNumber) && (residueNumber <=? scoredEnd p) in
      let inAligned := (alignedStart p <=? residueNumber) && (residueNumber <=? alignedEnd p) in
      if inScored && inAligned then HBoth
      else if inScored then HScored
      else if inAligned then HAligned
      else HNone
  end.

(** The props given to one [ResidueWithScore] element. *)
Record ResidueWithScore := {
  char : ascii;
  residueNumber : Z;
  plddtScore : option Q;
  highlightType : HighlightType
}.

(** One rendered row: its key, left flank, residue groups and right flank. *)
Record Line := {
  lineKey : nat;
  lineStartResidue : Z;
  lineGroups : list (list ResidueWithScore);
  lineEndResidue : Z
}.

Definition charsPerLine : nat := 40.
Definition charsPerGroup : nat := 10.

(** The residue-number to pLDDT map built with [plddtMap.set];
    [scores[idx]] may be [undefined], hence [option Q] values. *)
Fixpoint build_plddtMap (chainId : string) (scs : list Q) (nums : list Z)
  (cids : list string) (idx : nat) (m : list (Z * option Q)) : list (Z * option Q) :=
  match nums with
  | [] => m
  | resNum :: rest =>
      let m' :=
        match nth_error cids idx with
        | Some c => if String.eqb c chainId then map_set Z.eqb resNum (nth_error scs idx) m else m
        | None => m
        end in
      build_plddtMap chainId scs rest cids (S idx) m'
  end.

Definition plddtMap_of (chainId : string) (plddtData : option PLDDTData) : list (Z * option Q) :=
  match plddtData with
  | None => []
  | Some d => build_plddtMap chainId (scores d) (residueNumbers d) (chainIds d) 0 []
  end.

Section Render.
Variables (sequence : string) (startResidue : Z) (chainId : string)
          (plddtData : option PLDDTData) (paeHighlight : option PAEHighlight).

Definition plddtMap := plddtMap_of chainId plddtData.

Definition render_residue (lineStart : nat) (lineSeq : string) (i : nat) : ResidueWithScore :=
  let residueIndex := (lineStart + i)%nat in
  let residueNumber := startResidue + Z.of_nat residueIndex in
  {| char := match String.get i lineSeq with Some c => c | None => " "%char end;
     residueNumber := residueNumber;
     plddtScore := match map_get Z.eqb residueNumber plddtMap with
                   | Some s => s | None => None end;
     highlightType := getHighlightType residueNumber paeHighlight |}.

(** [for (let groupStart = 0; groupStart < lineSeq.length; groupStart += charsPerGroup)] *)
Fixpoint render_groups (fuel : nat) (lineStart : nat) (lineSeq : string) (groupStart : nat)
  : list (list ResidueWithScore) :=
  match fuel with
  | O => []
  | S fuel' =>
      if (groupStart <? String.length lineSeq)%nat then
        let groupEnd := Nat.min (groupStart + charsPerGroup) (String.length lineSeq) in
        map (render_residue lineStart lineSeq) (seq groupStart (groupEnd - groupStart))
          :: render_groups fuel' lineStart lineSeq (groupStart + charsPerGroup)
      else []
  end.

Definition render_line (lineStart : nat) : Line :=
  let lineEnd := Nat.min (lineStart + charsPerLine) (String.length sequence) in
  let lineSeq := JS.substring sequence lineStart lineEnd in
  {| lineKey := lineStart;
     lineStartResidue := startResidue + Z.of_nat lineStart;
     lineGroups := render_groups (String.length lineSeq) lineStart lineSeq 0;
     lineEndResidue := startResidue + Z.of_nat lineEnd - 1 |}.

(** [for (let lineStart = 0; lineStart < sequence.length; lineStart += charsPerLine)] *)
Fixpoint render_lines (fuel : nat) (lineStart : nat) : list Line :=
  match fuel with
  | O => []
  | S fuel' =>
      if (lineStart <? String.length sequence)%nat then
        render_line lineStart :: render_lines fuel' (lineStart + charsPerLine)
      else []
  end.

(** [formatSequenceWithScores]: the rows of the rendered sequence. *)
Definition formatSequenceWithScores : list Line :=
  render_lines (String.length sequence) 0.
End Render.


(** All residues of a rendering, row after row. *)
Definition rendered_residues (lines : list Line) : list ResidueWithScore :=
  flat_map (fun l => concat (lineGroups l)) lines.

(** The [THREE_TO_ONE] object literal, in its written order. *)
Definition THREE_TO_ONE_entries : list (string * string) :=
  [("ALA", "A"); ("ARG", "R"); ("ASN", "N"); ("ASP", "D"); ("CYS", "C");
   ("GLN", "Q"); ("GLU", "E"); ("GLY", "G"); ("HIS", "H"); ("ILE", "I");
   ("LEU", "L"); ("LYS", "K"); ("MET", "M"); ("PHE", "F"); ("PRO", "P");
   ("SER", "S"); ("THR", "T"); ("TRP", "W"); ("TYR", "Y"); ("VAL", "V");
   ("SEC", "U"); ("PYL", "O"); ("A", "A"); ("C", "C"); ("G", "G");
   ("U", "U"); ("T", "T"); ("DA", "A"); ("DC", "C"); ("DG", "G");
   ("DT", "T")]%string.

(** [THREE_TO_ONE[resName]] ([undefined] is [None]). *)
Definition THREE_TO_ONE (resName : string) : option string :=
  map_get String.eqb resName THREE_TO_ONE_entries.

(** [THREE_TO_ONE[resName] || 'X']. *)
Definition oneLetterCode (resName : string) : string :=
  match THREE_TO_ONE resName with Some c => c | None => "X"%string end.

Definition waterNames : list string := ["HOH"; "WAT"; "H2O"]%string.
Definition ionNames : list string := ["ZN"; "MG"; "CA"; "FE"; "MN"; "CU"; "NA"; "K"; "CL"]%string.
Definition rnaNames : list string := ["A"; "C"; "G"; "U"]%string.
Definition dnaNames : list string := ["DA"; "DC"; "DG"; "DT"]%string.

(** The value stored per chain in the [chains] map. *)
Record ChainData := {
  residues : list (Z * string);
  ctype : ChainType
}.

Record ParseState := {
  chains : list (string * ChainData);
  ions : list (string * list string)
}.

(** The fields read from an atom line: record type, residue name, chain id
    and residue number, or [None] when the line is skipped before them
    (neither [ATOM] nor [HETATM], or [isNaN(resSeq)]). *)
Record AtomLine := {
  recordType : string;
  resName : string;
  lineChainId : string;
  resSeq : Z
}.

Definition read_atom_line (line : string) : option AtomLine :=
  if startsWith line "ATOM" || startsWith line "HETATM" then
    let recordType := trim (JS.substring line 0 6) in
    let resName := trim (JS.substring line 17 20) in
    let chainId :=
      let c := trim (JS.substring line 21 22) in
      if String.eqb c "" then "A"%string else c in
    match parseInt (trim (JS.substring line 22 26)) with
    | None => None
    | Some resSeq => Some {| recordType := recordType; resName := resName;
                             lineChainId := chainId; resSeq := resSeq |}
    end
  else None.

(** One iteration of [for (const line of lines)]. *)
Definition parse_step (st : ParseState) (line : string) : ParseState :=
  match read_atom_line line with
  | None => st
  | Some a =>
      let resName := resName a in
      let chainId := lineChainId a in
      let resSeq := resSeq a in
      if String.eqb (recordType a) "HETATM" then
        if includes waterNames resName then st
        else if includes ionNames resName then
          let ions1 := if map_has String.eqb chainId (ions st) then ions st
                       else map_set String.eqb chainId [] (ions st) in
          let l := match map_get String.eqb chainId ions1 with Some l => l | None => [] end in
          {| chains := chains st;
             ions := if includes l resName then ions1
                     else map_set String.eqb chainId (l ++ [resName]) ions1 |}
        else st
      else
        let chains1 := if map_has String.eqb chainId (chains st) then chains st
                       else map_set String.eqb chainId {| residues := []; ctype := Protein |} (chains st) in
        let chain := match map_get String.eqb chainId chains1 with
                     | Some c => c | None => {| residues := []; ctype := Protein |} end in
        if map_has Z.eqb resSeq (residues chain) then
          {| chains := chains1; ions := ions st |}
        else
          let chain' := {| residues := map_set Z.eqb resSeq (oneLetterCode resName) (residues chain);
                           ctype := if includes rnaNames resName then RNA
                                    else if includes dnaNames resName then DNA
                                    else ctype chain |} in
          {| chains := map_set String.eqb chainId chain' chains1; ions := ions st |}
  end.

(** A stable insertion sort by an integer key ([Array.prototype.sort] with
    the comparator [(a, b) => key a - key b]). *)
Section SortBy.
Context {A : Type} (key : A -> Z).

Fixpoint insert_by (x : A) (l : list A) : list A :=
  match l with
  | [] => [x]
  | y :: t => if key x <? key y then x :: l else y :: insert_by x t
  end.

Definition sort_by (l : list A) : list A :=
  fold_left (fun acc x => insert_by x acc) l [].
End SortBy.

Definition ionLabel (ion : string) : string :=
  if String.eqb ion "ZN" then "Zn²⁺"%string
  else if String.eqb ion "MG" then "Mg²⁺"%string
  else if String.eqb ion "CA" then "Ca²⁺"%string
  else if String.eqb ion "FE" then "Fe²⁺/³⁺"%string
  else if String.eqb ion "CL" then "Cl⁻"%string
  else ion.

Definition chain_record (entry : string * ChainData) : ChainInfo :=
  let '(chainId, chainData) := entry in
  let residueNumbers := sort_by (fun z => z) (map fst (residues chainData)) in
  {| chainId := chainId;
     type := ctype chainData;
     sequence := String.concat "" (map (fun num =>
                   match map_get Z.eqb num (residues chainData) with
                   | Some c => c | None => ""%string end) residueNumbers);
     residueCount := Z.of_nat (length residueNumbers);
     startResidue := match residueNumbers with
                     | r :: _ => if r =? 0 then 1 else r
                     | [] => 1
                     end |}.

Definition ion_record (entry : string * list string) : ChainInfo :=
  let '(chainId, ionList) := entry in
  {| chainId := chainId ++ "-ion";
     type := Ion;
     sequence := join ", " (map ionLabel ionList);
     residueCount := Z.of_nat (length ionList);
     startResidue := 0 |}.

Definition typeOrder (t : ChainType) : Z :=
  match t with
  | Protein => 0 | RNA => 1 | DNA => 2 | Ion => 3 | Ligand => 4 | Other => 5
  end.

Definition parse_lines (lines : list string) : list ChainInfo :=
  let st := fold_left parse_step lines {| chains := []; ions := [] |} in
  sort_by (fun c => typeOrder (type c))
    (map chain_record (chains st) ++ map ion_record (ions st)).

(** [parsePDB]. *)
Definition parsePDB (pdbContent : string) : list ChainInfo :=
  parse_lines (split_nl pdbContent).

(** *** Characterisation of the parser's maps

    The atom lines that reach the polymer branch of the loop, and those
    that reach the ion branch. *)
Definition polymer_atom (line : string) : list AtomLine :=
  match read_atom_line line with
  | Some a => if String.eqb (recordType a) "HETATM" then [] else [a]
  | None => []
  end.

Definition polymer_atoms (lines : list string) : list AtomLine :=
  flat_map polymer_atom lines.

Definition ion_atom (line : string) : list AtomLine :=
  match read_atom_line line with
  | Some a => if String.eqb (recordType a) "HETATM" && includes ionNames (resName a)
              then [a] else []
  | None => []
  end.

Definition ion_atoms (lines : list string) : list AtomLine :=
  flat_map ion_atom lines.

(** A heteroatom line naming water. *)
Definition is_water_line (line : string) : bool :=
  match read_atom_line line with
  | Some a => String.eqb (recordType a) "HETATM" && includes waterNames (resName a)
  | None => false
  end.

Definition same_residue (a b : AtomLine) : bool :=
  String.eqb (lineChainId a) (lineChainId b) && Z.eqb (resSeq a) (resSeq b).

(** The first atom line of every (chain id, residue number) pair, in
    order. *)
Definition first_occurrences (atoms : list AtomLine) : list AtomLine :=
  fold_left (fun acc a => if existsb (same_residue a) acc then acc else acc ++ [a]) atoms [].

(** The distinct chain ids of some atom lines, in order of first
    appearance. *)
Definition chain_ids (atoms : list AtomLine) : list string :=
  fold_left (fun acc a => if includes acc (lineChainId a) then acc else acc ++ [lineChainId a])
    atoms [].

Definition of_chain (cid : string) (atoms : list AtomLine) : list AtomLine :=
  filter (fun a => String.eqb (lineChainId a) cid) atoms.

(** The chain type after one more residue. *)
Definition nucleotide_type (t : ChainType) (a : AtomLine) : ChainType :=
  if includes rnaNames (resName a) then RNA
  else if includes dnaNames (resName a) then DNA
  else t.

(** The entry of chain [cid] in the [chains] map, from the first
    occurrences [fs]. *)
Definition chain_data_of (fs : list AtomLine) (cid : string) : ChainData :=
  {| residues := map (fun a => (resSeq a, oneLetterCode (resName a))) (of_chain cid fs);
     ctype := fold_left nucleotide_type (of_chain cid fs) Protein |}.

(** The distinct ion species of chain [cid], in order of first
    appearance. *)
Definition ion_species (cid : string) (atoms : list AtomLine) : list string :=
  fold_left (fun acc a => if includes acc (resName a) then acc else acc ++ [resName a])
    (of_chain cid atoms) [].

(** The [chains] and [ions] maps after the loop, in terms of the atom
    lines read. *)
Definition chains_model (atoms : list AtomLine) : list (string * ChainData) :=
  map (fun cid => (cid, chain_data_of (first_occurrences atoms) cid)) (chain_ids atoms).

Definition ions_model (atoms : list AtomLine) : list (string * list string) :=
  map (fun cid => (cid, ion_species cid atoms)) (chain_ids atoms).

(** A record of the Ion pseudo-chains. *)
Definition is_ion_record (c : ChainInfo) : bool :=
  match type c with Ion => true | _ => false end.

(** Residue names that set a chain's type. *)
Definition is_nucleotide (name : string) : bool :=
  includes rnaNames name || includes dnaNames name.

End PDBInformation.
(** ** The PAE heat map's selection state machine *)

Module PAEHeatmap.

Record PAESelection := {
  startResidue : Z;
  endResidue : Z;
  alignedStart : Z;
  alignedEnd : Z
}.

(** A point in canvas space ([0] to [size]). *)
Record Point := { x : Q; y : Q }.

(** [canvas.getBoundingClientRect()]. *)
Record DOMRect := { left : Q; top : Q; width : Q; height : Q }.

Record MouseEvent := { clientX : Q; clientY : Q }.

Record Position := { canvasX : Q; canvasY : Q; residueX : Z; residueY : Z }.

(** The component state: [isSelecting], [selectionStart], [selectionEnd]. *)
Record HeatmapState := {
  isSelecting : bool;
  selectionStart : option Point;
  selectionEnd : option Point
}.

Definition initialState : HeatmapState :=
  {| isSelecting := false; selectionStart := None; selectionEnd := None |}.

(** Calls made to the callback props. *)
Inductive Emitted :=
| SelectionChange (sel : option PAESelection)
| ResidueClick (residue1 residue2 : Z)
| ResidueHover (residue1 residue2 : option Z).

Definition Qmin_js (a b : Q) : Q := if Qle_bool a b then a else b.
Definition Qmax_js (a b : Q) : Q := if Qle_bool b a then a else b.

Section Handlers.
(** The [size] prop, [paeData.length], and the canvas element's bounding
    rectangle ([None] when [canvasRef.current] is null). *)
Variables (size : Q) (numResidues : Z) (canvas : option DOMRect).

Definition getPositionFromEvent (e : MouseEvent) : option Position :=
  match canvas with
  | None => None
  | Some rect =>
      if numResidues =? 0 then None
      else
        let pixelX := (clientX e - left rect)%Q in
        let pixelY := (clientY e - top rect)%Q in
        let canvasX := (pixelX / width rect * size)%Q in
        let canvasY := (pixelY / height rect * size)%Q in
        let residueX := Qfloor (canvasX / size * inject_Z numResidues)%Q in
        let residueY := Qfloor (canvasY / size * inject_Z numResidues)%Q in
        if (0 <=? residueX) && (residueX <? numResidues)
           && (0 <=? residueY) && (residueY <? numResidues)
        then Some {| canvasX := canvasX; canvasY := canvasY;
                     residueX := residueX; residueY := residueY |}
        else None
  end.

Definition handleMouseDown (st : HeatmapState) (e : MouseEvent) : HeatmapState * list Emitted :=
  match getPositionFromEvent e with
  | None => (st, [])
  | Some pos =>
      let p := {| x := canvasX pos; y := canvasY pos |} in
      ({| isSelecting := true; selectionStart := Some p; selectionEnd := Some p |}, [])
  end.

Definition handleMouseMove (st : HeatmapState) (e : MouseEvent) : HeatmapState * list Emitted :=
  let pos := getPositionFromEvent e in
  let st' := match pos with
             | Some p => if isSelecting st then
                           {| isSelecting := isSelecting st; selectionStart := selectionStart st;
                              selectionEnd := Some {| x := canvasX p; y := canvasY p |} |}
                         else st
             | None => st
             end in
  let out := match pos with
             | Some p => if isSelecting st then []
                         else [ResidueHover (Some (residueX p + 1)) (Some (residueY p + 1))]
             | None => []
             end in
  (st', out).

(** [Math.sqrt(dx*dx + dy*dy) < 5], decided on the square: for a
    non-negative [d], [sqrt d < 5] iff [d < 25] (see [drag_distance_spec]). *)
Definition dragDistanceBelow5 (sx sy ex ey : Q) : bool :=
  negb (Qle_bool 25 ((ex - sx) * (ex - sx) + (ey - sy) * (ey - sy))%Q).

Definition handleMouseUp (st : HeatmapState) (e : MouseEvent) : HeatmapState * list Emitted :=
  match isSelecting st, selectionStart st with
  | true, Some start =>
      let pos := getPositionFromEvent e in
      let st1 := {| isSelecting := false; selectionStart := selectionStart st;
                    selectionEnd := selectionEnd st |} in
      match pos with
      | None => (st1, [])
      | Some pos =>
          let startCanvasX := x start in
          let startCanvasY := y start in
          let endCanvasX := canvasX pos in
          let endCanvasY := canvasY pos in
          if dragDistanceBelow5 startCanvasX startCanvasY endCanvasX endCanvasY then
            ({| isSelecting := false; selectionStart := None; selectionEnd := None |},
             [SelectionChange None; ResidueClick (residueX pos + 1) (residueY pos + 1)])
          else
            let minCanvasX := Qmin_js startCanvasX endCanvasX in
            let maxCanvasX := Qmax_js startCanvasX endCanvasX in
            let minCanvasY := Qmin_js startCanvasY endCanvasY in
            let maxCanvasY := Qmax_js startCanvasY endCanvasY in
            let startResidue := Qfloor (minCanvasX / size * inject_Z numResidues)%Q + 1 in
            let endResidue := Qceiling (maxCanvasX / size * inject_Z numResidues)%Q in
            let alignedStart := Qfloor (minCanvasY / size * inject_Z numResidues)%Q + 1 in
            let alignedEnd := Qceiling (maxCanvasY / size * inject_Z numResidues)%Q in
            let selection := {| startResidue := Z.max 1 startResidue;
                                endResidue := Z.min numResidues endResidue;
                                alignedStart := Z.max 1 alignedStart;
                                alignedEnd := Z.min numResidues alignedEnd |} in
            (st1, [SelectionChange (Some selection)])
      end
  | _, _ => (st, [])
  end.

(** A sequence of [handleMouseMove] calls. *)
Fixpoint mouseMoves (st : HeatmapState) (es : list MouseEvent) : HeatmapState * list Emitted :=
  match es with
  | [] => (st, [])
  | e :: es' =>
      let '(st1, o1) := handleMouseMove st e in
      let '(st2, o2) := mouseMoves st1 es' in
      (st2, o1 ++ o2)
  end.

(** A whole gesture from the idle state: pointer-down on [down], the
    pointer-moves [moves], then pointer-up on [up]. *)
Definition gesture (down : MouseEvent) (moves : list MouseEvent) (up : MouseEvent)
  : HeatmapState * list Emitted :=
  let '(st1, o1) := handleMouseDown initialState down in
  let '(st2, o2) := mouseMoves st1 moves in
  let '(st3, o3) := handleMouseUp st2 up in
  (st3, o1 ++ o2 ++ o3).
End Handlers.

(** [handleMouseLeave]: [onResidueHover?.(null, null)], and a gesture in
    progress is dropped. *)
Definition handleMouseLeave (st : HeatmapState) : HeatmapState * list Emitted :=
  if isSelecting st then
    ({| isSelecting := false; selectionStart := None; selectionEnd := None |},
     [ResidueHover None None])
  else (st, [ResidueHover None None]).

(** [handleClearSelection], the handler of the "Clear Selection" button. *)
Definition handleClearSelection (st : HeatmapState) : HeatmapState * list Emitted :=
  ({| isSelecting := isSelecting st; selectionStart := None; selectionEnd := None |},
   [SelectionChange None]).

(** The events the canvas and the "Clear Selection" button handle. *)
Inductive CanvasEvent :=
| Down (e : MouseEvent)
| Move (e : MouseEvent)
| Up (e : MouseEvent)
| Leave
| ClearButton.

Section Events.
Variables (size : Q) (numResidues : Z) (canvas : option DOMRect).

Definition dispatch (st : HeatmapState) (ev : CanvasEvent) : HeatmapState * list Emitted :=
  match ev with
  | Down e => handleMouseDown size numResidues canvas st e
  | Move e => handleMouseMove size numResidues canvas st e
  | Up e => handleMouseUp size numResidues canvas st e
  | Leave => handleMouseLeave st
  | ClearButton => handleClearSelection st
  end.

Fixpoint dispatch_all (st : HeatmapState) (evs : list CanvasEvent) : HeatmapState * list Emitted :=
  match evs with
  | [] => (st, [])
  | ev :: evs' =>
      let '(st1, o1) := dispatch st ev in
      let '(st2, o2) := dispatch_all st1 evs' in
      (st2, o1 ++ o2)
  end.
End Events.

(** The rectangle drawn over the heat map. *)
Record Bounds := { minX : Q; maxX : Q; minY : Q; maxY : Q }.

(** [getSelectionBounds]. *)
Definition getSelectionBounds (st : HeatmapState) : option Bounds :=
  match selectionStart st, selectionEnd st with
  | Some s, Some e =>
      Some {| minX := Qmin_js (x s) (x e); maxX := Qmax_js (x s) (x e);
              minY := Qmin_js (y s) (y e); maxY := Qmax_js (y s) (y e) |}
  | _, _ => None
  end.

(** The rectangle drawn for the [selectedRange] prop. *)
Definition rangeBounds (size : Q) (numResidues : Z) (r : PAESelection) : Bounds :=
  {| minX := (inject_Z (startResidue r - 1) / inject_Z numResidues * size)%Q;
     maxX := (inject_Z (endResidue r) / inject_Z numResidues * size)%Q;
     minY := (inject_Z (alignedStart r - 1) / inject_Z numResidues * size)%Q;
     maxY := (inject_Z (alignedEnd r) / inject_Z numResidues * size)%Q |}.

(** [const displayBounds = bounds || (selectedRange ? {...} : null)]. *)
Definition displayBounds (size : Q) (numResidues : Z) (st : HeatmapState)
  (selectedRange : option PAESelection) : option Bounds :=
  match getSelectionBounds st with
  | Some b => Some b
  | None => option_map (rangeBounds size numResidues) selectedRange
  end.

(** Whether the "Clear Selection" button is rendered:
    [(selectedRange || selectionStart)]. *)
Definition showClearButton (selectedRange : option PAESelection) (st : HeatmapState) : bool :=
  match selectedRange, selectionStart st with
  | None, None => false
  | _, _ => true
  end.

Definition PAE_COLORS : list string :=
  ["#0a5e1a"; "#1a7a2e"; "#2d9642"; "#4ab058"; "#6bc96e";
   "#8ede84"; "#b3f09c"; "#d9f7b6"; "#f0fce0"; "#ffffff"]%string.

(** The [colorIndex] computed by [getColor]. *)
Definition colorIndex (value : Q) : Z :=
  let normalizedValue := (Qmin_js 30 (Qmax_js 0 value) / 30)%Q in
  Z.min (Qfloor (normalizedValue * inject_Z (Z.of_nat (length PAE_COLORS)))%Q)
        (Z.of_nat (length PAE_COLORS) - 1).

(** [getColor]: [PAE_COLORS[colorIndex]]. *)
Definition getColor (value : Q) : string :=
  nth (Z.to_nat (colorIndex value)) PAE_COLORS EmptyString.

(** [paeData[i]?.[j] ?? 0]. *)
Definition paeValue (paeData : list (list Q)) (i j : nat) : Q :=
  match nth_error paeData i with
  | Some row => match nth_error row j with Some v => v | None => 0%Q end
  | None => 0%Q
  end.

(** A store into a [Uint8ClampedArray]: [NaN] becomes [0], other values
    are clamped to [[0, 255]]. *)
Definition clamped (v : option Z) : Z :=
  match v with
  | Some z => Z.max 0 (Z.min 255 z)
  | None => 0
  end.

(** [parseInt(color.slice(1, 3), 16)], [slice(3, 5)] and [slice(5, 7)]. *)
Definition colorR (color : string) : option Z := JS.parseInt16 (JS.substring color 1 3).
Definition colorG (color : string) : option Z := JS.parseInt16 (JS.substring color 3 5).
Definition colorB (color : string) : option Z := JS.parseInt16 (JS.substring color 5 7).

(** The body of the inner loop of [imageData] for pixel [(i, j)]. *)
Definition writePixel (paeData : list (list Q)) (numResidues : nat)
  (data : list Z) (i j : nat) : list Z :=
  let value := paeValue paeData i j in
  let color := getColor value in
  let idx := ((i * numResidues + j) * 4)%nat in
  let r := colorR color in
  let g := colorG color in
  let b := colorB color in
  let data := JS.list_set data idx (clamped r) in
  let data := JS.list_set data (idx + 1) (clamped g) in
  let data := JS.list_set data (idx + 2) (clamped b) in
  JS.list_set data (idx + 3) 255.

(** The pixel bytes [imgData.data] built by [imageData]: an array of
    [numResidues * numResidues * 4] zeros ([createImageData]) filled by the
    two nested loops. *)
Definition imageBytes (paeData : list (list Q)) : list Z :=
  let numResidues := length paeData in
  fold_left (fun data i =>
      fold_left (fun data j => writePixel paeData numResidues data i j)
        (seq 0 numResidues) data)
    (seq 0 numResidues) (repeat 0 (numResidues * numResidues * 4)).

(** [generateTicks(max, count)]; [ticks[ticks.length - 1]] is [last]. *)
Definition generateTicks (max count : Z) : list Z :=
  let step := Qceiling (inject_Z max / inject_Z count)%Q in
  fold_left (fun ticks i =>
      let tick := Z.min (step * i) max in
      if negb (tick =? last ticks 0) then ticks ++ [tick] else ticks)
    (map Z.of_nat (seq 1 (Z.to_nat count))) [1].

End PAEHeatmap.

(** ** The 3D view's highlight coordinator *)

Module Molecule3D.
Import JS.

Record ResidueRange := {
  startResidue : Z;
  endResidue : Z;
  chainId : option string
}.

Record PAEHighlightRange := {
  scoredStart : Z;
  scoredEnd : Z;
  alignedStart : Z;
  alignedEnd : Z
}.

Record Color := { r : Z; g : Z; b : Z }.

Record SelectionQuery := {
  entity_id : string;
  start_residue_number : Z;
  end_residue_number : Z;
  color : Color;
  focus : bool;
  auth_asym_id : option string
}.

(** Instructions issued to the 3D view capability. *)
Inductive Instr :=
| VisualSelect (data : list SelectionQuery) (nonSelectedColor : Color)
| VisualClearSelection.

(** How a capability call completes. *)
Inductive Outcome := Resolves | Rejects.

(** The viewer instance as seen by the effect: whether [viewer.plugin] is
    set, and [viewer.visual?.select] / [viewer.visual?.clearSelection]
    ([None] when the method is absent, otherwise how the call completes). *)
Record Viewer := {
  plugin : bool;
  visual_select : option Outcome;
  visual_clearSelection : option Outcome
}.

(** [hadHighlightRef.current] and the [selectionInfo] state. *)
Record CoordState := {
  hadHighlight : bool;
  selectionInfo : option string
}.

(** A state, instruction-log and exception monad for [async] code with
    [try]/[catch]. *)
Inductive Result (A : Type) := Normal (a : A) | Thrown.
Arguments Normal {A} a.
Arguments Thrown {A}.

Definition M (A : Type) := CoordState -> CoordState * list Instr * Result A.

Definition ret {A} (a : A) : M A := fun s => (s, [], Normal a).

Definition bind {A B} (m : M A) (f : A -> M B) : M B :=
  fun s =>
    match m s with
    | (s1, l1, Normal a) => let '(s2, l2, r) := f a s1 in (s2, l1 ++ l2, r)
    | (s1, l1, Thrown) => (s1, l1, Thrown)
    end.

Notation "x <- m ;; k" := (bind m (fun x => k)) (at level 61, m at next level, right associativity).
Notation "m ;; k" := (bind m (fun _ => k)) (at level 61, right associativity).

Definition throw {A} : M A := fun s => (s, [], Thrown).

Definition try_catch {A} (m : M A) (handler : M A) : M A :=
  fun s =>
    match m s with
    | (s1, l1, Thrown) => let '(s2, l2, r) := handler s1 in (s2, l1 ++ l2, r)
    | other => other
    end.

Definition issue (i : Instr) : M unit := fun s => (s, [i], Normal tt).
Definition getHad : M bool := fun s => (s, [], Normal (hadHighlight s)).
Definition setHad (v : bool) : M unit :=
  fun s => ({| hadHighlight := v; selectionInfo := selectionInfo s |}, [], Normal tt).
Definition setSelectionInfo (v : option string) : M unit :=
  fun s => ({| hadHighlight := hadHighlight s; selectionInfo := v |}, [], Normal tt).

Definition complete (o : Outcome) : M unit :=
  match o with Resolves => ret tt | Rejects => throw end.

(** [if (viewer.visual?.select) await viewer.visual.select({...})] *)
Definition callSelect (viewer : Viewer) (data : list SelectionQuery) (c : Color) : M unit :=
  match visual_select viewer with
  | None => ret tt
  | Some o => issue (VisualSelect data c) ;; complete o
  end.

(** [await viewer.visual?.clearSelection?.()] *)
Definition callClearSelection (viewer : Viewer) : M unit :=
  match visual_clearSelection viewer with
  | None => ret tt
  | Some o => issue VisualClearSelection ;; complete o
  end.

Definition paeInfo (p : PAEHighlightRange) : string :=
  "Scored: " ++ show_Z (scoredStart p) ++ "-" ++ show_Z (scoredEnd p)
  ++ " | Aligned: " ++ show_Z (alignedStart p) ++ "-" ++ show_Z (alignedEnd p).

Definition rangeInfo (h : ResidueRange) : string :=
  "Residues " ++ show_Z (startResidue h) ++ "-" ++ show_Z (endResidue h)
  ++ match chainId h with
     | Some c => if String.eqb c "" then "" else " (Chain " ++ c ++ ")"
     | None => ""
     end.

Definition rangeInfoOnError (h : ResidueRange) : string :=
  "Residues " ++ show_Z (startResidue h) ++ "-" ++ show_Z (endResidue h).

Definition paeQueries (p : PAEHighlightRange) : list SelectionQuery :=
  [ {| entity_id := "1"; start_residue_number := scoredStart p;
       end_residue_number := scoredEnd p; color := {| r := 59; g := 130; b := 246 |};
       focus := false; auth_asym_id := None |};
    {| entity_id := "1"; start_residue_number := alignedStart p;
       end_residue_number := alignedEnd p; color := {| r := 34; g := 197; b := 94 |};
       focus := false; auth_asym_id := None |} ].

Definition rangeQuery (h : ResidueRange) : SelectionQuery :=
  {| entity_id := "1"; start_residue_number := startResidue h;
     end_residue_number := endResidue h; color := {| r := 59; g := 130; b := 246 |};
     focus := true;
     auth_asym_id := match chainId h with
                     | Some c => if String.eqb c "" then None else Some c
                     | None => None
                     end |}.

Definition hasHighlightOf (paeHighlight : option PAEHighlightRange)
  (highlightRange : option ResidueRange) : bool :=
  match paeHighlight, highlightRange with
  | None, None => false
  | _, _ => true
  end.

(** The async [applyHighlight] closure. *)
Definition applyHighlight (viewer : Viewer) (paeHighlight : option PAEHighlightRange)
  (highlightRange : option ResidueRange) : M unit :=
  try_catch
    (if negb (hasHighlightOf paeHighlight highlightRange) then
       had <- getHad ;;
       if had then
         callClearSelection viewer ;;
         setSelectionInfo None ;;
         setHad false
       else ret tt
     else
       setHad true ;;
       match paeHighlight with
       | Some p =>
           callSelect viewer (paeQueries p) {| r := 220; g := 220; b := 220 |} ;;
           setSelectionInfo (Some (paeInfo p))
       | None =>
           match highlightRange with
           | Some h =>
               callSelect viewer [rangeQuery h] {| r := 200; g := 200; b := 200 |} ;;
               setSelectionInfo (Some (rangeInfo h))
           | None => ret tt
           end
       end)
    (match paeHighlight with
     | Some p => setSelectionInfo (Some (paeInfo p))
     | None =>
         match highlightRange with
         | Some h => setSelectionInfo (Some (rangeInfoOnError h))
         | None => ret tt
         end
     end).

(** The highlight effect: [if (!viewer?.plugin || isLoading) return;] and
    otherwise [applyHighlight()]. *)
Definition highlightEffect (viewer : option Viewer) (isLoading : bool)
  (paeHighlight : option PAEHighlightRange) (highlightRange : option ResidueRange) : M unit :=
  match viewer with
  | Some v => if plugin v && negb isLoading then applyHighlight v paeHighlight highlightRange
              else ret tt
  | None => ret tt
  end.

(** One run of the effect with its inputs. *)
Record Invocation := {
  inv_viewer : option Viewer;
  inv_isLoading : bool;
  inv_paeHighlight : option PAEHighlightRange;
  inv_highlightRange : option ResidueRange
}.

Definition invoke (i : Invocation) : M unit :=
  highlightEffect (inv_viewer i) (inv_isLoading i) (inv_paeHighlight i) (inv_highlightRange i).

Definition initialCoord : CoordState := {| hadHighlight := false; selectionInfo := None |}.

(** Runs a sequence of invocations, each run of [applyHighlight] completing
    before the next invocation; returns the final state and the
    instructions issued by each invocation.  The schedules where runs
    overlap are those of [trace] below. *)
Fixpoint run (is : list Invocation) (s : CoordState) : CoordState * list (list Instr) :=
  match is with
  | [] => (s, [])
  | i :: is' =>
      let '(s1, l1, _) := invoke i s in
      let '(s2, ls) := run is' s1 in
      (s2, l1 :: ls)
  end.

(** Whether an invocation passes the effect's gate
    [if (!viewer?.plugin || isLoading) return;]. *)
Definition active (i : Invocation) : bool :=
  match inv_viewer i with
  | Some v => plugin v && negb (inv_isLoading i)
  | None => false
  end.

(** [!!(paeHighlight || highlightRange)] of an invocation. *)
Definition selected (i : Invocation) : bool :=
  hasHighlightOf (inv_paeHighlight i) (inv_highlightRange i).

(** Whether the invocation's viewer has [visual.clearSelection]. *)
Definition hasClear (i : Invocation) : bool :=
  match inv_viewer i with
  | Some v => match visual_clearSelection v with Some _ => true | None => false end
  | None => false
  end.

(** The invocation's viewer does not reject [clearSelection]. *)
Definition clear_ok (i : Invocation) : bool :=
  match inv_viewer i with
  | Some v => match visual_clearSelection v with Some Rejects => false | _ => true end
  | None => true
  end.

(** *** The effect with its [await]s

    The effect starts the [async] [applyHighlight] and does not await it:
    the code before its first [await] runs within the effect, the rest when
    the awaited call settles, possibly after later runs of the effect.  A
    computation of [AM] runs until it completes ([Done]) or reaches an
    [await] ([Suspend]), with the code to run when the call settles. *)
#[warnings="-register-all"]
Inductive Step (A : Type) :=
| Done (r : Result A)
| Suspend (k : CoordState -> CoordState * list Instr * Step A).
Arguments Done {A} r.
Arguments Suspend {A} k.

Definition AM (A : Type) := CoordState -> CoordState * list Instr * Step A.

(** Sequencing: the rest [f] runs after the awaits of [st]. *)
Fixpoint continueWith {A B} (st : Step A) (f : A -> AM B) {struct st} : AM B :=
  match st with
  | Done (Normal a) => f a
  | Done Thrown => fun s => (s, [], Done Thrown)
  | Suspend k =>
      fun s => (s, [], Suspend (fun s' =>
        let '(s1, l1, st1) := k s' in
        let '(s2, l2, st2) := continueWith st1 f s1 in
        (s2, l1 ++ l2, st2)))
  end.

Definition aret {A} (a : A) : AM A := fun s => (s, [], Done (Normal a)).

Definition abind {A B} (m : AM A) (f : A -> AM B) : AM B :=
  fun s =>
    let '(s1, l1, st) := m s in
    let '(s2, l2, st2) := continueWith st f s1 in
    (s2, l1 ++ l2, st2).

Notation "x <-- m ;;; k" := (abind m (fun x => k)) (at level 61, m at next level, right associativity).
Notation "m ;;; k" := (abind m (fun _ => k)) (at level 61, right associativity).

(** [try]/[catch] across [await]s: a rejection met after resuming runs the handler. *)
Fixpoint catchStep {A} (st : Step A) (handler : AM A) {struct st} : AM A :=
  match st with
  | Done (Normal a) => aret a
  | Done Thrown => handler
  | Suspend k =>
      fun s => (s, [], Suspend (fun s' =>
        let '(s1, l1, st1) := k s' in
        let '(s2, l2, st2) := catchStep st1 handler s1 in
        (s2, l1 ++ l2, st2)))
  end.

Definition atry_catch {A} (m : AM A) (handler : AM A) : AM A :=
  fun s =>
    let '(s1, l1, st) := m s in
    let '(s2, l2, st2) := catchStep st handler s1 in
    (s2, l1 ++ l2, st2).

(** Synchronous code. *)
Definition lift {A} (m : M A) : AM A :=
  fun s => let '(s1, l1, r) := m s in (s1, l1, Done r).

(** [await] of a call: [call] is issued at once, and the rest runs when
    the call settles with outcome [o]. *)
Definition awaitCall (call : list Instr) (o : Outcome) : AM unit :=
  fun s => (s, call, Suspend (fun s' => (s', [], Done (match o with
                                                      | Resolves => Normal tt
                                                      | Rejects => Thrown
                                                      end)))).

(** [if (viewer.visual?.select) await viewer.visual.select({...})] *)
Definition callSelectAsync (viewer : Viewer) (data : list SelectionQuery) (c : Color) : AM unit :=
  match visual_select viewer with
  | None => aret tt
  | Some o => awaitCall [VisualSelect data c] o
  end.

(** [await viewer.visual?.clearSelection?.()]: without the method, the
    code awaits [undefined], which still suspends. *)
Definition callClearSelectionAsync (viewer : Viewer) : AM unit :=
  match visual_clearSelection viewer with
  | None => awaitCall [] Resolves
  | Some o => awaitCall [VisualClearSelection] o
  end.

(** The [async] [applyHighlight] closure, with its [await]s. *)
Definition applyHighlightAsync (viewer : Viewer) (paeHighlight : option PAEHighlightRange)
  (highlightRange : option ResidueRange) : AM unit :=
  atry_catch
    (if negb (hasHighlightOf paeHighlight highlightRange) then
       had <-- lift getHad ;;;
       if had then
         callClearSelectionAsync viewer ;;;
         lift (setSelectionInfo None) ;;;
         lift (setHad false)
       else aret tt
     else
       lift (setHad true) ;;;
       match paeHighlight with
       | Some p =>
           callSelectAsync viewer (paeQueries p) {| r := 220; g := 220; b := 220 |} ;;;
           lift (setSelectionInfo (Some (paeInfo p)))
       | None =>
           match highlightRange with
           | Some h =>
               callSelectAsync viewer [rangeQuery h] {| r := 200; g := 200; b := 200 |} ;;;
               lift (setSelectionInfo (Some (rangeInfo h)))
           | None => aret tt
           end
       end)
    (lift (match paeHighlight with
           | Some p => setSelectionInfo (Some (paeInfo p))
           | None =>
               match highlightRange with
               | Some h => setSelectionInfo (Some (rangeInfoOnError h))
               | None => ret tt
               end
           end)).

(** The effect: the gate, then [applyHighlight()] started and not awaited. *)
Definition highlightEffectAsync (viewer : option Viewer) (isLoading : bool)
  (paeHighlight : option PAEHighlightRange) (highlightRange : option ResidueRange) : AM unit :=
  match viewer with
  | Some v => if plugin v && negb isLoading then applyHighlightAsync v paeHighlight highlightRange
              else aret tt
  | None => aret tt
  end.

(** The coordinator and the runs of [applyHighlight] suspended at an
    [await], with the invocation that started each. *)
Record Sys := {
  coord : CoordState;
  pending : list (Invocation * (CoordState -> CoordState * list Instr * Step unit))
}.

(** What happens next: the effect runs with an invocation's inputs, or the
    call awaited by the [n]-th suspended run settles and that run resumes. *)
Inductive Event :=
| Invoke (i : Invocation)
| Settle (n : nat).

(** [l] without its [n]-th element. *)
Fixpoint remove_nth {A} (n : nat) (l : list A) : list A :=
  match l, n with
  | [], _ => []
  | _ :: t, O => t
  | x :: t, S n' => x :: remove_nth n' t
  end.

(** The run left suspended by a computation, if any. *)
Definition suspended (i : Invocation) (st : Step unit)
  : list (Invocation * (CoordState -> CoordState * list Instr * Step unit)) :=
  match st with
  | Suspend k => [(i, k)]
  | Done _ => []
  end.

Definition sysStep (S : Sys) (e : Event) : Sys * list Instr :=
  match e with
  | Invoke i =>
      let '(s1, l, st) := highlightEffectAsync (inv_viewer i) (inv_isLoading i)
                            (inv_paeHighlight i) (inv_highlightRange i) (coord S) in
      ({| coord := s1; pending := pending S ++ suspended i st |}, l)
  | Settle n =>
      match nth_error (pending S) n with
      | Some (i, k) =>
          let '(s1, l, st) := k (coord S) in
          ({| coord := s1; pending := remove_nth n (pending S) ++ suspended i st |}, l)
      | None => (S, [])
      end
  end.

(** A schedule of events from a state; returns the final state and the
    instructions issued at each event. *)
Fixpoint trace (S : Sys) (evs : list Event) : Sys * list (list Instr) :=
  match evs with
  | [] => (S, [])
  | e :: rest =>
      let '(S1, l) := sysStep S e in
      let '(S2, ls) := trace S1 rest in
      (S2, l :: ls)
  end.

Definition initialSys : Sys := {| coord := initialCoord; pending := [] |}.

(** Whether a run started without a selection is still suspended. *)
Definition nullPending (S : Sys) : bool :=
  existsb (fun p => negb (selected (fst p))) (pending S).

(** Whether, along a schedule, the effect only runs when no run started
    without a selection is suspended (each such run has completed). *)
Fixpoint clearsCompleteBeforeNext (S : Sys) (evs : list Event) : bool :=
  match evs with
  | [] => true
  | e :: rest =>
      match e with Invoke _ => negb (nullPending S) | Settle _ => true end
      && clearsCompleteBeforeNext (fst (sysStep S e)) rest
  end.

(** Whether an instruction is a clear-selection. *)
Definition isClear (x : Instr) : bool :=
  match x with VisualClearSelection => true | VisualSelect _ _ => false end.

(** The number of clear-selection instructions of a schedule's output. *)
Definition clearCount (out : list (list Instr)) : nat :=
  length (filter isClear (concat out)).

(** Schedules of runs without a selection whose [clearSelection], if any,
    does not reject, and of completions. *)
Definition goodRunEvent (e : Event) : bool :=
  match e with Invoke i => negb (selected i) && clear_ok i | Settle _ => true end.

(** What a suspended run does when it resumes: it issues nothing, completes,
    and resets [hadHighlightRef] exactly when it was started without a
    selection and its [clearSelection] does not reject. *)
Definition taskOK (t : Invocation * (CoordState -> CoordState * list Instr * Step unit)) : Prop :=
  forall s, snd (fst (snd t s)) = [] /\ (exists r, snd (snd t s) = Done r) /\
    hadHighlight (fst (fst (snd t s))) =
      if negb (selected (fst t)) && clear_ok (fst t) then false else hadHighlight s.

(** A suspended run started without a selection whose clear does not reject. *)
Definition clearTask (t : Invocation * (CoordState -> CoordState * list Instr * Step unit)) : bool :=
  negb (selected (fst t)) && clear_ok (fst t).

(** The refs read by [cleanupViewer]: [blobUrlRef.current] and
    [viewerInstanceRef.current], the latter with whether
    [plugin?.dispose] exists. *)
Record Refs := {
  blobUrl : option string;
  viewerInstance : option bool
}.

(** Calls made by [cleanupViewer]. *)
Inductive CleanupCall := RevokeObjectURL (url : string) | Dispose.

(** [cleanupViewer]. *)
Definition cleanupViewer (refs : Refs) : Refs * list CleanupCall :=
  let '(u, c1) := match blobUrl refs with
                  | Some url => (None, [RevokeObjectURL url])
                  | None => (None, [])
                  end in
  let '(v, c2) := match viewerInstance refs with
                  | Some hasDispose => (None, if hasDispose then [Dispose] else [])
                  | None => (None, [])
                  end in
  ({| blobUrl := u; viewerInstance := v |}, c1 ++ c2).

(** The camera snapshot: its [radius] and the other fields, which the
    zoom handlers copy unchanged. *)
Record CameraSnapshot := {
  radius : Q;
  otherFields : list (string * Q)
}.

(** [handleZoomIn] and [handleZoomOut] on [plugin.canvas3d.camera]
    ([None] when [plugin?.canvas3d] is unset, and the handler returns). *)
Definition zoomBy (factor : Q) (camera : option CameraSnapshot) : option CameraSnapshot :=
  match camera with
  | Some state => Some {| radius := (radius state * factor)%Q; otherFields := otherFields state |}
  | None => None
  end.

Definition handleZoomIn (camera : option CameraSnapshot) : option CameraSnapshot :=
  zoomBy (8 # 10) camera.

Definition handleZoomOut (camera : option CameraSnapshot) : option CameraSnapshot :=
  zoomBy (12 # 10) camera.




End Molecule3D.

(** ** The panel that connects the heat map to the two views *)

Module ProteinViewerPanel.

(** [handlePAESelectionChange] applied to the callbacks made by the heat
    map: [setPaeSelection(selection)] on every [onSelectionChange]. *)
Definition applyEmitted (paeSelection : option PAEHeatmap.PAESelection)
  (out : list PAEHeatmap.Emitted) : option PAEHeatmap.PAESelection :=
  fold_left (fun sel o => match o with
                          | PAEHeatmap.SelectionChange s => s
                          | _ => sel
                          end) out paeSelection.

(** The [paeHighlight] prop given to [PDBInformation]. *)
Definition pdbHighlight (paeSelection : option PAEHeatmap.PAESelection)
  : option PDBInformation.PAEHighlight :=
  match paeSelection with
  | Some s => Some {| PDBInformation.scoredStart := PAEHeatmap.startResidue s;
                      PDBInformation.scoredEnd := PAEHeatmap.endResidue s;
                      PDBInformation.alignedStart := PAEHeatmap.alignedStart s;
                      PDBInformation.alignedEnd := PAEHeatmap.alignedEnd s |}
  | None => None
  end.

End ProteinViewerPanel.

(** * Proofs *)

Import PDBInformation.

(** ** Highlight classification *)

(** Claim C1: for every selection and residue number, [getHighlightType]
    yields exactly one of the four categories: [HBoth] iff the number lies in
    both inclusive intervals, [HScored] iff only in the scored one,
    [HAligned] iff only in the aligned one, [HNone] otherwise; and equal
    inputs give equal outputs. *)
Theorem getHighlightType_classification :
  forall (p : PAEHighlight) (n : Z),
    let inScored := scoredStart p <= n <= scoredEnd p in
    let inAligned := alignedStart p <= n <= alignedEnd p in
    (getHighlightType n (Some p) = HBoth <-> inScored /\ inAligned) /\
    (getHighlightType n (Some p) = HScored <-> inScored /\ ~ inAligned) /\
    (getHighlightType n (Some p) = HAligned <-> ~ inScored /\ inAligned) /\
    (getHighlightType n (Some p) = HNone <-> ~ inScored /\ ~ inAligned) /\
    (forall p' n', p' = p -> n' = n -> getHighlightType n' (Some p') = getHighlightType n (Some p)).
Proof.
  intros p n inScored inAligned; subst inScored inAligned.
  split; [|split; [|split; [|split]]];
    [..|intros p' n' -> ->; reflexivity]; simpl;
  destruct (Z.leb_spec (scoredStart p) n), (Z.leb_spec n (scoredEnd p)),
           (Z.leb_spec (alignedStart p) n), (Z.leb_spec n (alignedEnd p));
    simpl; split; intros; try discriminate; try reflexivity;
    intuition (try discriminate; lia).
Qed.

Lemma getHighlightType_classification_witness :
  let p := {| scoredStart := 1; scoredEnd := 5; alignedStart := 2; alignedEnd := 4 |} in
  getHighlightType 3 (Some p) = HBoth /\
  getHighlightType 3 (Some p) = getHighlightType 3 (Some p).
Proof.
  intros p. split.
  - apply (proj2 (proj1 (getHighlightType_classification p 3))). cbn. lia.
  - exact (proj2 (proj2 (proj2 (proj2 (getHighlightType_classification p 3)))) p 3 eq_refl eq_refl).
Defined.

(** ** The sequence renderer *)

Lemma substring_length (s : string) (n m : nat) :
  String.length (String.substring n m s) = Nat.min m (String.length s - n).
Proof.
  revert n m; induction s as [|c s IH]; intros [|n] [|m]; simpl; try reflexivity.
  - rewrite IH. simpl. now rewrite Nat.sub_0_r.
  - rewrite IH. reflexivity.
  - rewrite IH. reflexivity.
Qed.

Lemma render_groups_concat :
  forall start cid pd pae fuel ls lseq g,
    (String.length lseq - g <= fuel)%nat ->
    concat (render_groups start cid pd pae fuel ls lseq g)
    = map (render_residue start cid pd pae ls lseq) (seq g (String.length lseq - g)).
Proof.
  intros start cid pd pae fuel; induction fuel as [|fuel IH]; intros ls lseq g Hf.
  - simpl. replace (String.length lseq - g)%nat with 0%nat by lia. reflexivity.
  - simpl. destruct (Nat.ltb_spec g (String.length lseq)) as [Hlt|Hge].
    + simpl. rewrite IH by (unfold charsPerGroup; lia).
      rewrite <- map_app. f_equal.
      unfold charsPerGroup.
      destruct (Nat.le_gt_cases (g + 10) (String.length lseq)) as [Hle|Hgt].
      * rewrite Nat.min_l by lia.
        replace (String.length lseq - g)%nat with ((g + 10 - g) + (String.length lseq - (g + 10)))%nat by lia.
        rewrite seq_app. f_equal. f_equal. lia.
      * rewrite Nat.min_r by lia.
        replace (String.length lseq - (g + 10))%nat with 0%nat by lia.
        simpl. now rewrite app_nil_r.
    + replace (String.length lseq - g)%nat with 0%nat by lia. reflexivity.
Qed.

Lemma render_lines_in :
  forall sq start cid pd pae fuel ls l,
    In l (render_lines sq start cid pd pae fuel ls) ->
    exists k, l = render_line sq start cid pd pae k /\ (k < String.length sq)%nat.
Proof.
  intros sq start cid pd pae fuel; induction fuel as [|fuel IH]; intros ls l Hin; simpl in Hin.
  - contradiction.
  - destruct (Nat.ltb_spec ls (String.length sq)).
    + destruct Hin as [<-|Hin]; [exists ls; split; auto | eauto].
    + contradiction.
Qed.

(** The residues of the row starting at offset [k]. *)
Lemma render_line_residues :
  forall sq start cid pd pae k,
    (k < String.length sq)%nat ->
    let lineEnd := Nat.min (k + charsPerLine) (String.length sq) in
    concat (lineGroups (render_line sq start cid pd pae k))
    = map (render_residue start cid pd pae k (JS.substring sq k lineEnd)) (seq 0 (lineEnd - k)).
Proof.
  intros sq start cid pd pae k Hk lineEnd. unfold render_line. simpl lineGroups.
  rewrite render_groups_concat by lia.
  unfold JS.substring. rewrite substring_length. subst lineEnd. unfold charsPerLine.
  rewrite Nat.sub_0_r. f_equal. f_equal. lia.
Qed.

Lemma rendered_residue_shape :
  forall sq start cid pd pae w,
    In w (rendered_residues (formatSequenceWithScores sq start cid pd pae)) ->
    exists k i, w = render_residue start cid pd pae k (JS.substring sq k (Nat.min (k + charsPerLine) (String.length sq))) i.
Proof.
  intros sq start cid pd pae w Hin. unfold rendered_residues in Hin.
  apply in_flat_map in Hin as [l [Hl Hw]].
  apply render_lines_in in Hl as [k [-> Hk]].
  rewrite render_line_residues in Hw by exact Hk.
  apply in_map_iff in Hw as [i [<- _]]. eauto.
Qed.

Lemma rendered_highlightType :
  forall sq start cid pd pae w,
    In w (rendered_residues (formatSequenceWithScores sq start cid pd pae)) ->
    highlightType w = getHighlightType (residueNumber w) pae.
Proof.
  intros sq start cid pd pae w Hin.
  destruct (rendered_residue_shape _ _ _ _ _ _ Hin) as [k [i ->]]. reflexivity.
Qed.

Lemma render_groups_highlights :
  forall start cid1 cid2 pd1 pd2 pae fuel ls lseq g,
    map (map highlightType) (render_groups start cid1 pd1 pae fuel ls lseq g)
    = map (map highlightType) (render_groups start cid2 pd2 pae fuel ls lseq g).
Proof.
  intros start cid1 cid2 pd1 pd2 pae fuel; induction fuel as [|fuel IH]; intros ls lseq g; simpl.
  - reflexivity.
  - destruct (g <? String.length lseq)%nat; simpl; [|reflexivity].
    rewrite IH, !map_map. reflexivity.
Qed.

Lemma render_lines_highlights :
  forall sq start cid1 cid2 pd1 pd2 pae fuel ls,
    map (fun l => map (map highlightType) (lineGroups l)) (render_lines sq start cid1 pd1 pae fuel ls)
    = map (fun l => map (map highlightType) (lineGroups l)) (render_lines sq start cid2 pd2 pae fuel ls).
Proof.
  intros sq start cid1 cid2 pd1 pd2 pae fuel; induction fuel as [|fuel IH]; intros ls; simpl.
  - reflexivity.
  - destruct (ls <? String.length sq)%nat; simpl; [|reflexivity].
    rewrite IH. f_equal. apply render_groups_highlights.
Qed.

(** Claim C10: the highlight category of a rendered residue depends only on
    its residue number and the selection: two renderings (of any chains,
    with any chain ids and pLDDT data) give residues shown at the same
    number the same category, and changing only the chain id (and the
    pLDDT data) leaves every category of a rendering unchanged. *)
Theorem highlight_category_chain_independent :
  (forall pae sq1 start1 cid1 pd1 sq2 start2 cid2 pd2 w1 w2,
      In w1 (rendered_residues (formatSequenceWithScores sq1 start1 cid1 pd1 pae)) ->
      In w2 (rendered_residues (formatSequenceWithScores sq2 start2 cid2 pd2 pae)) ->
      residueNumber w1 = residueNumber w2 ->
      highlightType w1 = highlightType w2) /\
  (forall pae sq start cid1 cid2 pd1 pd2,
      map (fun l => map (map highlightType) (lineGroups l)) (formatSequenceWithScores sq start cid1 pd1 pae)
      = map (fun l => map (map highlightType) (lineGroups l)) (formatSequenceWithScores sq start cid2 pd2 pae)).
Proof.
  split.
  - intros pae sq1 start1 cid1 pd1 sq2 start2 cid2 pd2 w1 w2 H1 H2 Heq.
    rewrite (rendered_highlightType _ _ _ _ _ _ H1), (rendered_highlightType _ _ _ _ _ _ H2), Heq.
    reflexivity.
  - intros. apply render_lines_highlights.
Qed.

Lemma highlight_category_chain_independent_witness :
  let pae := Some {| scoredStart := 2; scoredEnd := 2; alignedStart := 1; alignedEnd := 1 |} in
  let d := {| char := " "%char; residueNumber := 0; plddtScore := None; highlightType := HNone |} in
  let w1 := nth 1 (rendered_residues (formatSequenceWithScores "AG"%string 1 "A"%string None pae)) d in
  let w2 := nth 0 (rendered_residues (formatSequenceWithScores "G"%string 2 "B"%string None pae)) d in
  highlightType w1 = highlightType w2.
Proof.
  intros pae d w1 w2.
  apply (proj1 highlight_category_chain_independent pae "AG"%string 1 "A"%string None "G"%string 2 "B"%string None).
  - vm_compute. right. left. reflexivity.
  - vm_compute. left. reflexivity.
  - vm_compute. reflexivity.
Defined.

Lemma last_map_comm {A B} (f : A -> B) (l : list A) (d : A) :
  f (last l d) = last (map f l) (f d).
Proof.
  induction l as [|a l IH]; [reflexivity|].
  destruct l as [|b l]; [reflexivity|]. simpl in *. exact IH.
Qed.

Lemma map_seq_offset {A} (f : nat -> A) (k m n : nat) :
  map (fun i => f (k + i)%nat) (seq m n) = map f (seq (k + m) n).
Proof.
  revert m; induction n as [|n IH]; intros m; simpl; [reflexivity|].
  rewrite IH, Nat.add_succ_r. reflexivity.
Qed.

Lemma render_line_numbers :
  forall sq start cid pd pae k,
    (k < String.length sq)%nat ->
    map residueNumber (concat (lineGroups (render_line sq start cid pd pae k)))
    = map (fun j => start + Z.of_nat j)
          (seq k (Nat.min (k + charsPerLine) (String.length sq) - k)).
Proof.
  intros sq start cid pd pae k Hk.
  rewrite render_line_residues by exact Hk. rewrite map_map.
  rewrite <- (Nat.add_0_r k) at 3. rewrite <- map_seq_offset. reflexivity.
Qed.

(** Every row is non-empty and its flanks are the numbers the renderer gives
    to the row's first and last residues. *)
Lemma render_flanks :
  forall sq start cid pd pae l d,
    In l (formatSequenceWithScores sq start cid pd pae) ->
    concat (lineGroups l) <> [] /\
    lineStartResidue l = residueNumber (hd d (concat (lineGroups l))) /\
    lineEndResidue l = residueNumber (last (concat (lineGroups l)) d).
Proof.
  intros sq start cid pd pae l d Hin.
  apply render_lines_in in Hin as [k [-> Hk]].
  pose proof (render_line_numbers sq start cid pd pae k Hk) as Hn.
  remember (concat (lineGroups (render_line sq start cid pd pae k))) as rs eqn:Hrs.
  unfold charsPerLine in Hn.
  remember (Nat.min (k + 40) (String.length sq) - k)%nat as n eqn:Hnn.
  destruct n as [|n]; [destruct (Nat.min_spec (k + 40) (String.length sq)); lia|].
  destruct rs as [|r rs]; [discriminate|].
  split; [discriminate|].
  split.
  - simpl in Hn. injection Hn as Hr _. simpl. rewrite Hr. reflexivity.
  - rewrite seq_S, map_app in Hn.
    rewrite last_map_comm, Hn. simpl map at 2. rewrite last_last.
    simpl lineEndResidue. unfold charsPerLine.
    destruct (Nat.min_spec (k + 40) (String.length sq)); lia.
Qed.

Lemma render_lines_numbers :
  forall sq start cid pd pae fuel ls,
    (String.length sq - ls <= 40 * fuel)%nat ->
    map residueNumber (rendered_residues (render_lines sq start cid pd pae fuel ls))
    = map (fun j => start + Z.of_nat j) (seq ls (String.length sq - ls)).
Proof.
  intros sq start cid pd pae fuel; induction fuel as [|fuel IH]; intros ls Hf; simpl.
  - replace (String.length sq - ls)%nat with 0%nat by lia. reflexivity.
  - destruct (Nat.ltb_spec ls (String.length sq)) as [Hlt|Hge].
    + change (rendered_residues (render_line sq start cid pd pae ls :: render_lines sq start cid pd pae fuel (ls + charsPerLine)))
        with (concat (lineGroups (render_line sq start cid pd pae ls))
              ++ rendered_residues (render_lines sq start cid pd pae fuel (ls + charsPerLine))).
      rewrite map_app.
      rewrite render_line_numbers by exact Hlt. rewrite IH by (unfold charsPerLine; lia).
      rewrite <- map_app. f_equal. unfold charsPerLine.
      destruct (Nat.le_gt_cases (ls + 40) (String.length sq)) as [Hle|Hgt].
      * rewrite Nat.min_l by lia.
        replace (String.length sq - ls)%nat with ((ls + 40 - ls) + (String.length sq - (ls + 40)))%nat by lia.
        rewrite seq_app. f_equal. f_equal. lia.
      * rewrite Nat.min_r by lia.
        replace (String.length sq - (ls + 40))%nat with 0%nat by lia.
        simpl. now rewrite app_nil_r.
    + replace (String.length sq - ls)%nat with 0%nat by lia. reflexivity.
Qed.

(** The renderer numbers the residues [startResidue], [startResidue + 1], ...
    in sequence order. *)
Lemma rendered_numbers :
  forall sq start cid pd pae,
    map residueNumber (rendered_residues (formatSequenceWithScores sq start cid pd pae))
    = map (fun j => start + Z.of_nat j) (seq 0 (String.length sq)).
Proof.
  intros. unfold formatSequenceWithScores. rewrite render_lines_numbers by lia.
  now rewrite Nat.sub_0_r.
Qed.

(** ** The PAE heat map's gestures *)

Section HeatmapProofs.
Import PAEHeatmap.

(** [Math.sqrt(d) < 5] and the model's test [d < 25] agree. *)
Lemma drag_distance_spec (d : Q) :
  (0 <= d)%Q -> ((sqrt (Q2R d) < 5)%R <-> (d < 25)%Q).
Proof.
  intros Hd.
  assert (H25 : Q2R 25 = (5 * 5)%R) by (unfold Q2R; simpl; lra).
  assert (Hs : sqrt (5 * 5) = 5%R) by (apply sqrt_square; lra).
  split; intros H.
  - apply Rlt_Qlt. rewrite H25. apply sqrt_lt_0_alt. rewrite Hs. exact H.
  - apply Qlt_Rlt in H. rewrite H25 in H. rewrite <- Hs.
    assert (H0 : Q2R 0 = 0%R) by (unfold Q2R; simpl; lra).
    apply Qle_Rle in Hd. rewrite H0 in Hd.
    apply sqrt_lt_1; [exact Hd | lra | exact H].
Qed.

Lemma dragDistanceBelow5_spec (sx sy ex ey : Q) :
  dragDistanceBelow5 sx sy ex ey = true <->
  (sqrt (Q2R ((ex - sx) * (ex - sx) + (ey - sy) * (ey - sy))) < 5)%R.
Proof.
  rewrite drag_distance_spec.
  - unfold dragDistanceBelow5. rewrite negb_true_iff.
    split; intros H.
    + apply Qnot_le_lt. intros Hle. apply Qle_bool_iff in Hle. congruence.
    + destruct (Qle_bool 25 _) eqn:E; [|reflexivity].
      apply Qle_bool_iff in E. exfalso. apply (Qlt_not_le _ _ H E).
  - apply Rle_Qle. rewrite Q2R_plus, !Q2R_mult.
    assert (H0 : Q2R 0 = 0%R) by (unfold Q2R; simpl; lra).
    rewrite H0. nra.
Qed.

Lemma getPosition_spec size N rect e p :
  getPositionFromEvent size N rect e = Some p ->
  0 < N /\
  residueX p = Qfloor (canvasX p / size * inject_Z N)%Q /\ 0 <= residueX p < N /\
  residueY p = Qfloor (canvasY p / size * inject_Z N)%Q /\ 0 <= residueY p < N.
Proof.
  unfold getPositionFromEvent. destruct rect as [r|]; [|discriminate].
  destruct (Z.eqb_spec N 0); [discriminate|].
  destruct (_ && _) eqn:E; [|discriminate].
  intros H; injection H as <-. cbn [residueX residueY canvasX canvasY].
  repeat rewrite andb_true_iff in E. rewrite !Z.leb_le, !Z.ltb_lt in E.
  destruct E as [[[? ?] ?] ?]. repeat split; auto; lia.
Qed.

Lemma floor_range (q : Q) (N : Z) :
  0 <= Qfloor q < N -> (0 <= q)%Q /\ (q < inject_Z N)%Q.
Proof.
  intros [H0 H1]. split.
  - apply Qle_trans with (inject_Z (Qfloor q)); [|apply Qfloor_le].
    change 0%Q with (inject_Z 0). rewrite <- Zle_Qle. exact H0.
  - apply Qlt_le_trans with (inject_Z (Qfloor q + 1)); [apply Qlt_floor|].
    rewrite <- Zle_Qle. lia.
Qed.

Lemma handleMouseMove_selecting size N rect st e :
  isSelecting st = true ->
  isSelecting (fst (handleMouseMove size N rect st e)) = true /\
  selectionStart (fst (handleMouseMove size N rect st e)) = selectionStart st /\
  snd (handleMouseMove size N rect st e) = [].
Proof.
  intros Hs. unfold handleMouseMove. rewrite Hs.
  destruct (getPositionFromEvent size N rect e); simpl; auto.
Qed.

Lemma mouseMoves_selecting size N rect st ms :
  isSelecting st = true ->
  isSelecting (fst (mouseMoves size N rect st ms)) = true /\
  selectionStart (fst (mouseMoves size N rect st ms)) = selectionStart st /\
  snd (mouseMoves size N rect st ms) = [].
Proof.
  revert st; induction ms as [|e ms IH]; intros st Hs; [simpl; auto|].
  cbn [mouseMoves].
  pose proof (handleMouseMove_selecting size N rect st e Hs) as [H1 [H2 H3]].
  destruct (handleMouseMove size N rect st e) as [st1 o1]. simpl in H1, H2, H3.
  specialize (IH st1 H1).
  destruct (mouseMoves size N rect st1 ms) as [st2 o2]. simpl in *.
  rewrite H3, <- H2. destruct IH as [? [? ?]]. subst. auto.
Qed.

(** The gesture unfolds to [handleMouseUp] on a selecting state whose start
    point is the pointer-down position. *)
Lemma gesture_unfold size N rect down moves up p1 :
  getPositionFromEvent size N rect down = Some p1 ->
  exists st, isSelecting st = true /\
    selectionStart st = Some {| x := canvasX p1; y := canvasY p1 |} /\
    gesture size N rect down moves up = handleMouseUp size N rect st up.
Proof.
  intros H1. unfold gesture, handleMouseDown. rewrite H1.
  set (st1 := {| isSelecting := true; selectionStart := Some {| x := canvasX p1; y := canvasY p1 |};
                 selectionEnd := Some {| x := canvasX p1; y := canvasY p1 |} |}).
  pose proof (mouseMoves_selecting size N rect st1 moves eq_refl) as [Hs [Hst Ho]].
  destruct (mouseMoves size N rect st1 moves) as [st2 o2] eqn:E. simpl in *.
  exists st2. split; [exact Hs|]. split; [exact Hst|].
  destruct (handleMouseUp size N rect st2 up) as [st3 o3]. subst o2. reflexivity.
Qed.

Lemma Qmin_js_cases (a b : Q) : Qmin_js a b = a \/ Qmin_js a b = b.
Proof. unfold Qmin_js. destruct (Qle_bool a b); auto. Qed.

Lemma Qmax_js_cases (a b : Q) : Qmax_js a b = a \/ Qmax_js a b = b.
Proof. unfold Qmax_js. destruct (Qle_bool b a); auto. Qed.

Lemma Qmin_le_max_js (a b : Q) : (Qmin_js a b <= Qmax_js a b)%Q.
Proof.
  unfold Qmin_js, Qmax_js.
  destruct (Qle_bool a b) eqn:E1, (Qle_bool b a) eqn:E2;
    try apply Qle_refl; apply Qle_bool_iff; assumption.
Qed.

Lemma Qmin_eq_max_js (a b : Q) : (Qmin_js a b == Qmax_js a b)%Q -> (a == b)%Q.
Proof.
  unfold Qmin_js, Qmax_js.
  destruct (Qle_bool a b) eqn:E1, (Qle_bool b a) eqn:E2; intros H; try exact H.
  - apply Qle_bool_iff in E1, E2. apply Qle_antisym; assumption.
  - symmetry. exact H.
  - exfalso. destruct (Qlt_le_dec a b) as [Hl|Hl].
    + apply Qlt_le_weak, Qle_bool_iff in Hl. congruence.
    + apply Qle_bool_iff in Hl. congruence.
Qed.

(** The bounds of one axis of a drag, when both end points are inside the
    canvas: the lower bound lies in [[1, N]], the upper one in [[0, N]]. *)
Lemma axis_bounds (size : Q) (N : Z) (a b : Q) :
  0 <= Qfloor (a / size * inject_Z N)%Q < N ->
  0 <= Qfloor (b / size * inject_Z N)%Q < N ->
  0 <= Qfloor (Qmin_js a b / size * inject_Z N)%Q < N /\
  0 <= Qceiling (Qmax_js a b / size * inject_Z N)%Q <= N.
Proof.
  intros Ha Hb. split.
  - destruct (Qmin_js_cases a b) as [-> | ->]; assumption.
  - destruct (Qmax_js_cases a b) as [-> | ->];
      [apply floor_range in Ha as [H0 H1] | apply floor_range in Hb as [H0 H1]];
      (split;
       [ apply Z.le_trans with (Qceiling (inject_Z 0)); [rewrite Qceiling_Z; lia|];
         apply Qceiling_resp_le; exact H0
       | apply Z.le_trans with (Qceiling (inject_Z N)); [|rewrite Qceiling_Z; lia];
         apply Qceiling_resp_le; apply Qlt_le_weak; exact H1 ]).
Qed.

(** On one axis, the lower bound exceeds the upper one only when the
    rectangle has zero width on that axis and lies on a residue boundary. *)
Lemma axis_order (size : Q) (N : Z) (a b : Q) :
  (0 < size)%Q -> 0 < N ->
  let lo := Qfloor (Qmin_js a b / size * inject_Z N)%Q + 1 in
  let hi := Qceiling (Qmax_js a b / size * inject_Z N)%Q in
  lo <= hi + 1 /\ (hi < lo -> (a == b)%Q /\ (inject_Z hi == a / size * inject_Z N)%Q).
Proof.
  intros Hs HN lo hi.
  assert (HN' : (0 < inject_Z N)%Q) by (change 0%Q with (inject_Z 0); rewrite <- Zlt_Qlt; exact HN).
  assert (Hi : (0 < / size)%Q) by (apply Qinv_lt_0_compat; exact Hs).
  set (qmin := (Qmin_js a b / size * inject_Z N)%Q) in *.
  set (qmax := (Qmax_js a b / size * inject_Z N)%Q) in *.
  assert (Hmm : (qmin <= qmax)%Q).
  { unfold qmin, qmax. apply Qmult_le_compat_r; [|apply Qlt_le_weak; exact HN'].
    unfold Qdiv. apply Qmult_le_compat_r; [apply Qmin_le_max_js|apply Qlt_le_weak; exact Hi]. }
  assert (Hfl := Qfloor_le qmin).
  assert (Hce := Qle_ceiling qmax).
  assert (Hfc : (inject_Z (Qfloor qmin) <= inject_Z (Qceiling qmax))%Q)
    by (apply Qle_trans with qmin; [exact Hfl|];
        apply Qle_trans with qmax; [exact Hmm|exact Hce]).
  rewrite <- Zle_Qle in Hfc.
  split; [unfold lo, hi; lia|].
  intros Hlt.
  assert (Hcf : (inject_Z hi <= inject_Z (Qfloor qmin))%Q)
    by (rewrite <- Zle_Qle; unfold lo in Hlt; lia).
  assert (Heq1 : (qmin == qmax)%Q).
  { apply Qle_antisym; [exact Hmm|].
    apply Qle_trans with (inject_Z hi); [exact Hce|].
    apply Qle_trans with (inject_Z (Qfloor qmin)); [exact Hcf|exact Hfl]. }
  assert (Heq2 : (inject_Z hi == qmax)%Q).
  { apply Qle_antisym; [|exact Hce].
    apply Qle_trans with (inject_Z (Qfloor qmin)); [exact Hcf|].
    apply Qle_trans with qmin; [exact Hfl|exact Hmm]. }
  assert (Hmin_max : (Qmin_js a b == Qmax_js a b)%Q).
  { unfold qmin, qmax, Qdiv in Heq1.
    apply Qmult_inj_r in Heq1; [|intros Hz; rewrite Hz in HN'; discriminate].
    apply Qmult_inj_r in Heq1; [exact Heq1|intros Hz; rewrite Hz in Hi; discriminate]. }
  assert (Hab : (a == b)%Q) by (apply Qmin_eq_max_js; exact Hmin_max).
  split; [exact Hab|].
  rewrite Heq2. unfold qmax.
  destruct (Qmax_js_cases a b) as [E|E]; rewrite E; [reflexivity|rewrite Hab; reflexivity].
Qed.

(** Claim C2: when a gesture (pointer-down at [down], pointer-moves, then
    pointer-up at [up], both inside the canvas) ends, a canvas-space
    Euclidean distance below 5 is a click: the selection rectangle is
    cleared and [selectionChange(null)] then a click on the 1-based residue
    coordinates under the release point are emitted; otherwise it is a drag
    and [selectionChange] is emitted with [floor(min/S*N)+1] and
    [ceil(max/S*N)] on each axis. *)
Theorem handleMouseUp_click_or_drag :
  forall size N rect down moves up p1 p2,
    getPositionFromEvent size N rect down = Some p1 ->
    getPositionFromEvent size N rect up = Some p2 ->
    let x1 := canvasX p1 in let y1 := canvasY p1 in
    let x2 := canvasX p2 in let y2 := canvasY p2 in
    let dist := sqrt (Q2R ((x2 - x1) * (x2 - x1) + (y2 - y1) * (y2 - y1))%Q) in
    ((dist < 5)%R ->
       gesture size N rect down moves up =
       ({| isSelecting := false; selectionStart := None; selectionEnd := None |},
        [SelectionChange None; ResidueClick (residueX p2 + 1) (residueY p2 + 1)])) /\
    (~ (dist < 5)%R ->
       snd (gesture size N rect down moves up) =
       [SelectionChange (Some {|
          startResidue := Qfloor (Qmin_js x1 x2 / size * inject_Z N)%Q + 1;
          endResidue := Qceiling (Qmax_js x1 x2 / size * inject_Z N)%Q;
          alignedStart := Qfloor (Qmin_js y1 y2 / size * inject_Z N)%Q + 1;
          alignedEnd := Qceiling (Qmax_js y1 y2 / size * inject_Z N)%Q |})]).
Proof.
  intros size N rect down moves up p1 p2 H1 H2 x1 y1 x2 y2 dist.
  destruct (gesture_unfold size N rect down moves up p1 H1) as [st [Hsel [Hst ->]]].
  pose proof (getPosition_spec _ _ _ _ _ H1) as (HN & Ex1 & Bx1 & Ey1 & By1).
  pose proof (getPosition_spec _ _ _ _ _ H2) as (_ & Ex2 & Bx2 & Ey2 & By2).
  unfold handleMouseUp. rewrite Hsel, Hst, H2. cbn [x y].
  pose proof (dragDistanceBelow5_spec x1 y1 x2 y2) as Hd.
  split; intros Hdist.
  - apply Hd in Hdist. unfold x1, y1, x2, y2 in Hdist. rewrite Hdist. reflexivity.
  - destruct (dragDistanceBelow5 (canvasX p1) (canvasY p1) (canvasX p2) (canvasY p2)) eqn:E.
    + exfalso. apply Hdist. apply Hd. exact E.
    + cbn [snd]. rewrite Ex1, Ex2 in *. rewrite Ey1, Ey2 in *.
      destruct (axis_bounds size N x1 x2) as [Ax1 Ax2]; [exact Bx1|exact Bx2|].
      destruct (axis_bounds size N y1 y2) as [Ay1 Ay2]; [exact By1|exact By2|].
      unfold x1, x2, y1, y2 in *.
      rewrite Z.max_r, Z.min_r, Z.max_r, Z.min_r by lia. reflexivity.
Qed.

(** Claim C3, counterexample: a vertical drag along the canvas's left edge
    (pixel column 0 of a 240-unit canvas over 120 residues) ends inside the
    canvas and emits a scored interval with [endResidue < startResidue]. *)
Lemma drag_selection_inverted_interval :
  let rect := Some {| left := 0; top := 0; width := 240; height := 240 |} in
  let down := {| clientX := 0; clientY := 10 |} in
  let up := {| clientX := 0; clientY := 100 |} in
  getPositionFromEvent 240 120 rect down <> None /\
  getPositionFromEvent 240 120 rect up <> None /\
  match snd (gesture 240 120 rect down [] up) with
  | [SelectionChange (Some s)] => endResidue s < startResidue s
  | _ => False
  end.
Proof. vm_compute. repeat split; discriminate. Qed.

(** Claim C3, as amended: every selection emitted by a gesture whose two end
    points lie inside the canvas has its lower bounds in [[1, N]] and its
    upper bounds in [[0, N]], with lower <= upper + 1 on each axis; the
    lower bound exceeds the upper one only when both end points share that
    coordinate and it falls exactly on a residue boundary. *)
Theorem drag_selection_bounds :
  forall size N rect down moves up p1 p2 s,
    (0 < size)%Q ->
    getPositionFromEvent size N rect down = Some p1 ->
    getPositionFromEvent size N rect up = Some p2 ->
    In (SelectionChange (Some s)) (snd (gesture size N rect down moves up)) ->
    1 <= startResidue s <= N /\ 0 <= endResidue s <= N /\ startResidue s <= endResidue s + 1 /\
    1 <= alignedStart s <= N /\ 0 <= alignedEnd s <= N /\ alignedStart s <= alignedEnd s + 1 /\
    (endResidue s < startResidue s ->
       (canvasX p1 == canvasX p2)%Q /\
       (inject_Z (endResidue s) == canvasX p1 / size * inject_Z N)%Q) /\
    (alignedEnd s < alignedStart s ->
       (canvasY p1 == canvasY p2)%Q /\
       (inject_Z (alignedEnd s) == canvasY p1 / size * inject_Z N)%Q).
Proof.
  intros size N rect down moves up p1 p2 s Hs H1 H2 Hin.
  destruct (gesture_unfold size N rect down moves up p1 H1) as [st [Hsel [Hst Hg]]].
  rewrite Hg in Hin. clear Hg.
  pose proof (getPosition_spec _ _ _ _ _ H1) as (HN & Ex1 & Bx1 & Ey1 & By1).
  pose proof (getPosition_spec _ _ _ _ _ H2) as (_ & Ex2 & Bx2 & Ey2 & By2).
  unfold handleMouseUp in Hin. rewrite Hsel, Hst, H2 in Hin. cbn [x y] in Hin.
  destruct (dragDistanceBelow5 _ _ _ _) in Hin.
  - simpl in Hin. destruct Hin as [Hin|[Hin|[]]]; discriminate.
  - cbn [snd In] in Hin. destruct Hin as [Hin|[]].
    rewrite Ex1, Ex2 in *. rewrite Ey1, Ey2 in *.
    remember (Qfloor (Qmin_js (canvasX p1) (canvasX p2) / size * inject_Z N)%Q) as fx eqn:Efx.
    remember (Qfloor (Qmin_js (canvasY p1) (canvasY p2) / size * inject_Z N)%Q) as fy eqn:Efy.
    injection Hin as <-. cbn [startResidue endResidue alignedStart alignedEnd].
    subst fx fy.
    destruct (axis_bounds size N (canvasX p1) (canvasX p2)) as [Ax1 Ax2]; [exact Bx1|exact Bx2|].
    destruct (axis_bounds size N (canvasY p1) (canvasY p2)) as [Ay1 Ay2]; [exact By1|exact By2|].
    destruct (axis_order size N (canvasX p1) (canvasX p2) Hs HN) as [Ox1 Ox2].
    destruct (axis_order size N (canvasY p1) (canvasY p2) Hs HN) as [Oy1 Oy2].
    cbv zeta in Ox1, Ox2, Oy1, Oy2.
    rewrite Z.max_r, Z.min_r, Z.max_r, Z.min_r by lia.
    repeat split; try lia; try (apply Ox2; lia); try (apply Oy2; lia).
Qed.

Lemma drag_selection_bounds_witness :
  (0 < 240)%Q /\
  getPositionFromEvent 240 120 (Some {| left := 0; top := 0; width := 240; height := 240 |})
    {| clientX := 10; clientY := 20 |}
  = Some {| canvasX := 2400 # 240; canvasY := 4800 # 240; residueX := 5; residueY := 10 |} /\
  getPositionFromEvent 240 120 (Some {| left := 0; top := 0; width := 240; height := 240 |})
    {| clientX := 100; clientY := 120 |}
  = Some {| canvasX := 24000 # 240; canvasY := 28800 # 240; residueX := 50; residueY := 60 |} /\
  In (SelectionChange (Some {| startResidue := 6; endResidue := 50; alignedStart := 11; alignedEnd := 60 |}))
     (snd (gesture 240 120 (Some {| left := 0; top := 0; width := 240; height := 240 |})
             {| clientX := 10; clientY := 20 |} [] {| clientX := 100; clientY := 120 |})) /\
  1 <= 6 <= 120.
Proof.
  assert (H1 : getPositionFromEvent 240 120 (Some {| left := 0; top := 0; width := 240; height := 240 |})
                 {| clientX := 10; clientY := 20 |}
               = Some {| canvasX := 2400 # 240; canvasY := 4800 # 240; residueX := 5; residueY := 10 |})
    by reflexivity.
  assert (H2 : getPositionFromEvent 240 120 (Some {| left := 0; top := 0; width := 240; height := 240 |})
                 {| clientX := 100; clientY := 120 |}
               = Some {| canvasX := 24000 # 240; canvasY := 28800 # 240; residueX := 50; residueY := 60 |})
    by reflexivity.
  assert (Hin : In (SelectionChange (Some {| startResidue := 6; endResidue := 50; alignedStart := 11; alignedEnd := 60 |}))
     (snd (gesture 240 120 (Some {| left := 0; top := 0; width := 240; height := 240 |})
             {| clientX := 10; clientY := 20 |} [] {| clientX := 100; clientY := 120 |})))
    by (vm_compute; left; reflexivity).
  split; [reflexivity|]. split; [exact H1|]. split; [exact H2|]. split; [exact Hin|].
  exact (proj1 (drag_selection_bounds 240 120 _ _ [] _ _ _ _ eq_refl H1 H2 Hin)).
Defined.

Lemma handleMouseUp_click_or_drag_witness :
  getPositionFromEvent 240 120 (Some {| left := 0; top := 0; width := 240; height := 240 |})
    {| clientX := 10; clientY := 20 |}
  = Some {| canvasX := 2400 # 240; canvasY := 4800 # 240; residueX := 5; residueY := 10 |} /\
  getPositionFromEvent 240 120 (Some {| left := 0; top := 0; width := 240; height := 240 |})
    {| clientX := 12; clientY := 21 |}
  = Some {| canvasX := 2880 # 240; canvasY := 5040 # 240; residueX := 6; residueY := 10 |} /\
  gesture 240 120 (Some {| left := 0; top := 0; width := 240; height := 240 |})
    {| clientX := 10; clientY := 20 |} [] {| clientX := 12; clientY := 21 |}
  = ({| isSelecting := false; selectionStart := None; selectionEnd := None |},
     [SelectionChange None; ResidueClick 7 11]).
Proof.
  assert (H1 : getPositionFromEvent 240 120 (Some {| left := 0; top := 0; width := 240; height := 240 |})
                 {| clientX := 10; clientY := 20 |}
               = Some {| canvasX := 2400 # 240; canvasY := 4800 # 240; residueX := 5; residueY := 10 |})
    by reflexivity.
  assert (H2 : getPositionFromEvent 240 120 (Some {| left := 0; top := 0; width := 240; height := 240 |})
                 {| clientX := 12; clientY := 21 |}
               = Some {| canvasX := 2880 # 240; canvasY := 5040 # 240; residueX := 6; residueY := 10 |})
    by reflexivity.
  split; [exact H1|]. split; [exact H2|].
  apply (proj1 (handleMouseUp_click_or_drag 240 120 _ _ [] _ _ _ H1 H2)).
  apply dragDistanceBelow5_spec. reflexivity.
Defined.

End HeatmapProofs.

Section Molecule3DProofs.
Import Molecule3D.

Lemma applyHighlight_result (v : Viewer) p h (s : CoordState) :
  snd (applyHighlight v p h s) = Normal tt.
Proof.
  destruct v as [pl vs vc]; destruct s as [had info].
  unfold applyHighlight, try_catch, hasHighlightOf, callSelect, callClearSelection.
  destruct p, h, vs as [[]|], vc as [[]|], had; reflexivity.
Qed.

Ltac invocation_cases i s :=
  destruct i as [[[pl vs vc]|] l p h]; destruct s as [had info];
  unfold selected, active, hasClear, clear_ok, hasHighlightOf;
  cbn [inv_viewer inv_isLoading inv_paeHighlight inv_highlightRange plugin visual_select
       visual_clearSelection hadHighlight];
  [destruct pl, l, p, h, vs as [[]|], vc as [[]|], had|destruct p, h, had].

Lemma invoke_null_start (i : Invocation) (s : CoordState) :
  selected i = false ->
  let r := highlightEffectAsync (inv_viewer i) (inv_isLoading i)
             (inv_paeHighlight i) (inv_highlightRange i) s in
  fst (fst r) = s /\
  snd (fst r) = (if active i && hadHighlight s && hasClear i then [VisualClearSelection] else []) /\
  map fst (suspended i (snd r)) = (if active i && hadHighlight s then [i] else []).
Proof.
  invocation_cases i s; intros Hs; try discriminate; repeat split.
Qed.

Lemma invoke_selected_start (i : Invocation) (s : CoordState) :
  selected i = true ->
  let r := highlightEffectAsync (inv_viewer i) (inv_isLoading i)
             (inv_paeHighlight i) (inv_highlightRange i) s in
  ~ In VisualClearSelection (snd (fst r)) /\
  hadHighlight (fst (fst r)) = active i || hadHighlight s.
Proof.
  invocation_cases i s; intros Hs; try discriminate; split; try reflexivity;
    cbn; intuition discriminate.
Qed.

Lemma invoke_tasks (i : Invocation) (s : CoordState) :
  Forall taskOK (suspended i (snd (highlightEffectAsync (inv_viewer i) (inv_isLoading i)
                                     (inv_paeHighlight i) (inv_highlightRange i) s))).
Proof.
  invocation_cases i s; cbn;
    first [ apply Forall_nil
          | apply Forall_cons; [|apply Forall_nil]; intros [had' info']; cbn;
            split; [reflexivity|split; [eexists; reflexivity|reflexivity]] ].
Qed.

Lemma remove_nth_Forall {A} (P : A -> Prop) (n : nat) (l : list A) :
  Forall P l -> Forall P (remove_nth n l).
Proof.
  revert n. induction l as [|x t IH]; intros n Hl; [destruct n; cbn; apply Forall_nil|].
  inversion Hl as [|? ? Hx Ht]; subst. destruct n; cbn; [exact Ht|constructor; auto].
Qed.

Lemma remove_nth_In {A} (n : nat) (l : list A) (x y : A) :
  nth_error l n = Some x -> In y l -> y <> x -> In y (remove_nth n l).
Proof.
  revert n. induction l as [|z t IH]; intros n Hn Hy Hne; [destruct Hy|].
  destruct n; cbn in *.
  - injection Hn as ->. destruct Hy as [->|Hy]; [contradiction|exact Hy].
  - destruct Hy as [->|Hy]; [left; reflexivity|right; eapply IH; eauto].
Qed.

Lemma sysStep_tasks (S : Sys) (e : Event) :
  Forall taskOK (pending S) -> Forall taskOK (pending (fst (sysStep S e))).
Proof.
  intros HS. destruct e as [i|n]; cbn [sysStep].
  - pose proof (invoke_tasks i (coord S)) as Hi.
    destruct (highlightEffectAsync _ _ _ _ (coord S)) as [[s1 l] st].
    cbn. apply Forall_app. split; assumption.
  - destruct (nth_error (pending S) n) as [[i k]|] eqn:En; [|exact HS].
    assert (Hk : taskOK (i, k)) by (eapply Forall_forall; [exact HS|]; eapply nth_error_In; exact En).
    destruct (Hk (coord S)) as (_ & [r Er] & _). cbn [snd] in Er.
    destruct (k (coord S)) as [[s1 l] st]. cbn in Er. subst st.
    cbn. rewrite app_nil_r. apply remove_nth_Forall. exact HS.
Qed.

Lemma trace_tasks (S : Sys) (evs : list Event) :
  Forall taskOK (pending S) -> Forall taskOK (pending (fst (trace S evs))).
Proof.
  revert S. induction evs as [|e rest IH]; intros S HS; [exact HS|].
  cbn [trace]. pose proof (sysStep_tasks S e HS) as H1.
  destruct (sysStep S e) as [S1 l]. specialize (IH S1 H1).
  destruct (trace S1 rest) as [S2 ls]. exact IH.
Qed.

Lemma sysStep_null (S : Sys) (i : Invocation) :
  selected i = false ->
  snd (sysStep S (Invoke i)) =
    (if active i && hadHighlight (coord S) && hasClear i then [VisualClearSelection] else []) /\
  coord (fst (sysStep S (Invoke i))) = coord S /\
  map fst (pending (fst (sysStep S (Invoke i)))) =
    map fst (pending S) ++ (if active i && hadHighlight (coord S) then [i] else []).
Proof.
  intros Hs. pose proof (invoke_null_start i (coord S) Hs) as (E1 & E2 & E3).
  cbn [sysStep]. destruct (highlightEffectAsync _ _ _ _ (coord S)) as [[s1 l] st].
  cbn in *. rewrite map_app, E3. auto.
Qed.

Lemma sysStep_selected (S : Sys) (i : Invocation) :
  selected i = true ->
  ~ In VisualClearSelection (snd (sysStep S (Invoke i))) /\
  hadHighlight (coord (fst (sysStep S (Invoke i)))) = active i || hadHighlight (coord S).
Proof.
  intros Hs. pose proof (invoke_selected_start i (coord S) Hs) as (E1 & E2).
  cbn [sysStep]. destruct (highlightEffectAsync _ _ _ _ (coord S)) as [[s1 l] st].
  cbn in *. auto.
Qed.

Lemma sysStep_settle (S : Sys) (n : nat) :
  Forall taskOK (pending S) ->
  snd (sysStep S (Settle n)) = [] /\
  hadHighlight (coord (fst (sysStep S (Settle n)))) =
    match nth_error (pending S) n with
    | Some (i, _) => if negb (selected i) && clear_ok i then false else hadHighlight (coord S)
    | None => hadHighlight (coord S)
    end /\
  pending (fst (sysStep S (Settle n))) =
    match nth_error (pending S) n with
    | Some _ => remove_nth n (pending S)
    | None => pending S
    end.
Proof.
  intros HS. cbn [sysStep].
  destruct (nth_error (pending S) n) as [[i k]|] eqn:En; [|auto].
  assert (Hk : taskOK (i, k)) by (eapply Forall_forall; [exact HS|]; eapply nth_error_In; exact En).
  destruct (Hk (coord S)) as (El & [r Er] & Eh). cbn [snd fst] in El, Er, Eh.
  destruct (k (coord S)) as [[s1 l] st]. cbn in *. subst. rewrite app_nil_r. auto.
Qed.

Lemma clearCount_cons (l : list Instr) (ls : list (list Instr)) :
  clearCount (l :: ls) = (length (filter isClear l) + clearCount ls)%nat.
Proof. unfold clearCount. cbn [concat]. rewrite filter_app, length_app. reflexivity. Qed.


Lemma filter_isClear_null (i : Invocation) (had : bool) :
  length (filter isClear (if active i && had && hasClear i then [VisualClearSelection] else [])) =
  (if active i && had && hasClear i then 1 else 0)%nat.
Proof. destruct (active i && had && hasClear i); reflexivity. Qed.

Lemma run_after_clear (S : Sys) (run : list Event) :
  Forall taskOK (pending S) ->
  forallb goodRunEvent run = true ->
  clearsCompleteBeforeNext S run = true ->
  (hadHighlight (coord S) = false \/ exists t, In t (pending S) /\ clearTask t = true) ->
  clearCount (snd (trace S run)) = 0%nat.
Proof.
  revert S. induction run as [|e rest IH]; intros S HS Hgood Hcc Hinv; [reflexivity|].
  cbn [forallb] in Hgood. apply andb_true_iff in Hgood as [He Hrest].
  cbn [clearsCompleteBeforeNext] in Hcc. apply andb_true_iff in Hcc as [Hc Hcc].
  pose proof (sysStep_tasks S e HS) as HS1.
  cbn [trace].
  destruct e as [i|n].
  - cbn [goodRunEvent] in He. apply andb_true_iff in He as [Hsel Hok]. apply negb_true_iff in Hsel.
    apply negb_true_iff in Hc.
    assert (Hhad : hadHighlight (coord S) = false).
    { destruct Hinv as [Hh|[t [Ht Hct]]]; [exact Hh|].
      unfold nullPending in Hc. exfalso.
      assert (existsb (fun p => negb (selected (fst p))) (pending S) = true) as Hx
        by (apply existsb_exists; exists t; split; [exact Ht|];
            unfold clearTask in Hct; apply andb_true_iff in Hct; apply Hct).
      congruence. }
    destruct (sysStep_null S i Hsel) as (Eo & Ec & _).
    destruct (sysStep S (Invoke i)) as [S1 l] eqn:Es. cbn [fst snd] in *.
    specialize (IH S1 HS1 Hrest Hcc (or_introl (eq_trans (f_equal hadHighlight Ec) Hhad))).
    destruct (trace S1 rest) as [S2 ls]. cbn [snd] in *.
    rewrite clearCount_cons, IH, Eo, Hhad, andb_false_r. reflexivity.
  - destruct (sysStep_settle S n HS) as (Eo & Eh & Ep).
    destruct (sysStep S (Settle n)) as [S1 l] eqn:Es. cbn [fst snd] in *.
    assert (Hinv1 : hadHighlight (coord S1) = false \/ exists t, In t (pending S1) /\ clearTask t = true).
    { rewrite Eh, Ep. destruct (nth_error (pending S) n) as [[i k]|] eqn:En.
      - destruct (negb (selected i) && clear_ok i) eqn:Eik; [left; reflexivity|].
        destruct Hinv as [Hh|[t [Ht Hct]]]; [left; exact Hh|right].
        exists t. split; [|exact Hct]. eapply remove_nth_In; [exact En|exact Ht|].
        intros ->. unfold clearTask in Hct. cbn [fst] in Hct. congruence.
      - exact Hinv. }
    specialize (IH S1 HS1 Hrest Hcc Hinv1).
    destruct (trace S1 rest) as [S2 ls]. cbn [snd] in *.
    rewrite clearCount_cons, IH, Eo. reflexivity.
Qed.

Lemma run_at_most_one (S : Sys) (run : list Event) :
  Forall taskOK (pending S) ->
  forallb goodRunEvent run = true ->
  clearsCompleteBeforeNext S run = true ->
  (clearCount (snd (trace S run)) <= 1)%nat.
Proof.
  revert S. induction run as [|e rest IH]; intros S HS Hgood Hcc; [cbn; lia|].
  pose proof Hgood as Hgood0. pose proof Hcc as Hcc0.
  cbn [forallb] in Hgood. apply andb_true_iff in Hgood as [He Hrest].
  cbn [clearsCompleteBeforeNext] in Hcc. apply andb_true_iff in Hcc as [Hc Hcc].
  pose proof (sysStep_tasks S e HS) as HS1.
  cbn [trace].
  destruct e as [i|n].
  - cbn [goodRunEvent] in He. apply andb_true_iff in He as [Hsel Hok]. apply negb_true_iff in Hsel.
    destruct (sysStep_null S i Hsel) as (Eo & Ec & Ep).
    destruct (active i && hadHighlight (coord S)) eqn:Eah.
    + assert (Hinv1 : exists t, In t (pending (fst (sysStep S (Invoke i)))) /\ clearTask t = true).
      { assert (Hin : In i (map fst (pending (fst (sysStep S (Invoke i)))))) by
          (rewrite Ep; apply in_or_app; right; left; reflexivity).
        apply in_map_iff in Hin as [t [Et Ht]]. exists t. split; [exact Ht|].
        unfold clearTask. rewrite Et, Hsel, Hok. reflexivity. }
      destruct (sysStep S (Invoke i)) as [S1 l] eqn:Es. cbn [fst snd] in *.
      pose proof (run_after_clear S1 rest HS1 Hrest Hcc (or_intror Hinv1)) as H0.
      destruct (trace S1 rest) as [S2 ls]. cbn [snd] in *.
      rewrite clearCount_cons, H0, Eo. destruct (hasClear i); cbn; lia.
    + destruct (sysStep S (Invoke i)) as [S1 l] eqn:Es. cbn [fst snd] in *.
      specialize (IH S1 HS1 Hrest Hcc).
      destruct (trace S1 rest) as [S2 ls]. cbn [snd] in *.
      rewrite clearCount_cons, Eo. cbn. exact IH.
  - destruct (sysStep_settle S n HS) as (Eo & _ & _).
    destruct (sysStep S (Settle n)) as [S1 l] eqn:Es. cbn [fst snd] in *.
    specialize (IH S1 HS1 Hrest Hcc).
    destruct (trace S1 rest) as [S2 ls]. cbn [snd] in *.
    rewrite clearCount_cons, Eo. exact IH.
Qed.

Lemma applyHighlightAsync_settled (v : Viewer) p h (s : CoordState) :
  let '(s1, l1, st) := applyHighlightAsync v p h s in
  match st with
  | Done r => (s1, l1, r) = applyHighlight v p h s
  | Suspend k => let '(s2, l2, st2) := k s1 in
                 st2 = Done (Normal tt) /\ (s2, l1 ++ l2, Normal tt) = applyHighlight v p h s
  end.
Proof.
  destruct v as [pl vs vc], s as [had info].
  destruct p, h, vs as [[]|], vc as [[]|], had; split || reflexivity; reflexivity.
Qed.

(** Claim C4, counterexample: with the runs of [applyHighlight] the effect
    starts and does not await, two consecutive invocations without a
    selection after a selection issue two clear-selection instructions when
    the second comes while the first one's [clearSelection] is pending, and
    also when the first one's [clearSelection] rejected; and a selection
    that arrives while the structure is loading is never applied, so the
    following invocation without a selection issues no clear although the
    selection went from non-null to null. *)
Lemma consecutive_nulls_clear_twice :
  let pae := {| scoredStart := 1; scoredEnd := 5; alignedStart := 10; alignedEnd := 20 |} in
  let ok := {| plugin := true; visual_select := Some Resolves;
               visual_clearSelection := Some Resolves |} in
  let rej := {| plugin := true; visual_select := Some Resolves;
                visual_clearSelection := Some Rejects |} in
  let sel v l := {| inv_viewer := Some v; inv_isLoading := l;
                    inv_paeHighlight := Some pae; inv_highlightRange := None |} in
  let nul v := {| inv_viewer := Some v; inv_isLoading := false;
                  inv_paeHighlight := None; inv_highlightRange := None |} in
  selected (sel ok false) = true /\ selected (nul ok) = false /\
  snd (trace initialSys [Invoke (sel ok false); Settle 0; Invoke (nul ok); Invoke (nul ok)]) =
    [[VisualSelect (paeQueries pae) {| r := 220; g := 220; b := 220 |}]; [];
     [VisualClearSelection]; [VisualClearSelection]] /\
  snd (trace initialSys [Invoke (sel rej false); Settle 0; Invoke (nul rej); Settle 0;
                         Invoke (nul rej)]) =
    [[VisualSelect (paeQueries pae) {| r := 220; g := 220; b := 220 |}]; [];
     [VisualClearSelection]; []; [VisualClearSelection]] /\
  snd (trace initialSys [Invoke (sel ok true); Invoke (nul ok)]) = [[]; []].
Proof. vm_compute. repeat split. Qed.

(** Claim C4, as amended: over every schedule of invocations of the effect
    and completions of the calls its runs await, reached from the initial
    state: an invocation without a selection issues nothing but possibly
    one clear-selection (no camera or theme reset), exactly when it passes
    the [plugin && !isLoading] gate, the viewer has [clearSelection] and
    [hadHighlightRef] is set, and then its run stays suspended; an
    invocation with a selection issues no clear and sets [hadHighlightRef]
    when it passes the gate; a completion issues nothing and resets
    [hadHighlightRef] exactly when it resumes a run started without a
    selection whose [clearSelection] does not reject; and a schedule of
    invocations without a selection and completions issues at most one
    clear when no [clearSelection] of it rejects and each invocation comes
    after the runs started without a selection have completed. *)
Theorem coordinator_clear_protocol (pre : list Event) :
  let S := fst (trace initialSys pre) in
  (forall i, selected i = false ->
     snd (sysStep S (Invoke i)) =
       (if active i && hadHighlight (coord S) && hasClear i then [VisualClearSelection] else []) /\
     hadHighlight (coord (fst (sysStep S (Invoke i)))) = hadHighlight (coord S) /\
     map fst (pending (fst (sysStep S (Invoke i)))) =
       map fst (pending S) ++ (if active i && hadHighlight (coord S) then [i] else [])) /\
  (forall i, selected i = true ->
     ~ In VisualClearSelection (snd (sysStep S (Invoke i))) /\
     hadHighlight (coord (fst (sysStep S (Invoke i)))) = active i || hadHighlight (coord S)) /\
  (forall n, snd (sysStep S (Settle n)) = [] /\
     hadHighlight (coord (fst (sysStep S (Settle n)))) =
       match nth_error (pending S) n with
       | Some (i, _) => if negb (selected i) && clear_ok i then false else hadHighlight (coord S)
       | None => hadHighlight (coord S)
       end) /\
  (forall run, forallb goodRunEvent run = true ->
     clearsCompleteBeforeNext S run = true ->
     (clearCount (snd (trace S run)) <= 1)%nat).
Proof.
  intros S.
  assert (HS : Forall taskOK (pending S)) by (apply trace_tasks; apply Forall_nil).
  split; [|split; [|split]].
  - intros i Hs. destruct (sysStep_null S i Hs) as (E1 & E2 & E3).
    rewrite E2. auto.
  - intros i Hs. exact (sysStep_selected S i Hs).
  - intros n. destruct (sysStep_settle S n HS) as (E1 & E2 & _). auto.
  - intros run Hg Hc. exact (run_at_most_one S run HS Hg Hc).
Qed.

Lemma coordinator_clear_protocol_witness :
  let pae := {| scoredStart := 1; scoredEnd := 5; alignedStart := 10; alignedEnd := 20 |} in
  let ok := {| plugin := true; visual_select := Some Resolves;
               visual_clearSelection := Some Resolves |} in
  let sel := {| inv_viewer := Some ok; inv_isLoading := false;
                inv_paeHighlight := Some pae; inv_highlightRange := None |} in
  let nul := {| inv_viewer := Some ok; inv_isLoading := false;
                inv_paeHighlight := None; inv_highlightRange := None |} in
  snd (sysStep (fst (trace initialSys [Invoke sel; Settle 0])) (Invoke nul)) = [VisualClearSelection] /\
  (clearCount (snd (trace (fst (trace initialSys [Invoke sel; Settle 0]))
                          [Invoke nul; Settle 0; Invoke nul; Settle 0; Invoke nul])) <= 1)%nat.
Proof.
  intros pae ok sel nul.
  destruct (coordinator_clear_protocol [Invoke sel; Settle 0]) as (P1 & _ & _ & P4).
  split.
  - rewrite (proj1 (P1 nul eq_refl)). vm_compute. reflexivity.
  - apply P4; vm_compute; reflexivity.
Defined.

(** Claim C7: applying a highlight never raises out of the coordinator
    (every invocation of the effect completes normally, whatever the 3D view
    capability does); and when [visual.select] rejects while a selection is
    applied, the handler still presents the textual range summary: the
    scored and aligned ranges for a PAE selection, the residue range for the
    legacy single range. *)
Theorem highlight_failure_contained (vo : option Viewer) (isLoading : bool)
  (p : option PAEHighlightRange) (h : option ResidueRange) (s : CoordState) :
  snd (highlightEffect vo isLoading p h s) = Normal tt /\
  (forall v, vo = Some v -> plugin v = true -> isLoading = false ->
     visual_select v = Some Rejects -> hasHighlightOf p h = true ->
     selectionInfo (fst (fst (highlightEffect vo isLoading p h s))) =
     match p, h with
     | Some pp, _ => Some (paeInfo pp)
     | None, Some hh => Some (rangeInfoOnError hh)
     | None, None => selectionInfo s
     end).
Proof.
  split.
  - unfold highlightEffect. destruct vo as [v|]; [|reflexivity].
    destruct (plugin v && negb isLoading); [apply applyHighlight_result|reflexivity].
  - intros v -> Hp -> Hs Hh. unfold highlightEffect. rewrite Hp. cbn [andb negb].
    destruct v as [pl vs vc]; cbn [visual_select] in Hs; subst vs.
    destruct s as [had info].
    unfold applyHighlight, try_catch, callSelect. rewrite Hh. cbn [negb].
    destruct p, h; try discriminate; reflexivity.
Qed.

Lemma highlight_failure_contained_witness :
  selectionInfo (fst (fst (highlightEffect
    (Some {| plugin := true; visual_select := Some Rejects; visual_clearSelection := None |})
    false (Some {| scoredStart := 1; scoredEnd := 5; alignedStart := 10; alignedEnd := 20 |})
    None initialCoord)))
  = Some (paeInfo {| scoredStart := 1; scoredEnd := 5; alignedStart := 10; alignedEnd := 20 |}).
Proof.
  exact (proj2 (highlight_failure_contained _ false
                  (Some {| scoredStart := 1; scoredEnd := 5; alignedStart := 10; alignedEnd := 20 |})
                  None initialCoord)
            {| plugin := true; visual_select := Some Rejects; visual_clearSelection := None |}
            eq_refl eq_refl eq_refl eq_refl eq_refl).
Defined.

End Molecule3DProofs.

(** ** The structure-text parser *)

Section AssocLemmas.
Context {K V : Type} (eqb : K -> K -> bool).
Hypothesis eqb_spec : forall x y, eqb x y = true <-> x = y.

Lemma eqb_refl_assoc (x : K) : eqb x x = true.
Proof. apply eqb_spec. reflexivity. Qed.

Lemma map_get_keyed (f : K -> V) (k : K) (ids : list K) :
  JS.map_get eqb k (map (fun c => (c, f c)) ids) =
  if existsb (eqb k) ids then Some (f k) else None.
Proof.
  induction ids as [|c t IH]; [reflexivity|]. cbn [map JS.map_get existsb].
  destruct (eqb k c) eqn:E; [|exact IH].
  apply eqb_spec in E. subst. reflexivity.
Qed.

Lemma map_has_keyed (f : K -> V) (k : K) (ids : list K) :
  JS.map_has eqb k (map (fun c => (c, f c)) ids) = existsb (eqb k) ids.
Proof. unfold JS.map_has. rewrite map_get_keyed. destruct (existsb _ _); reflexivity. Qed.

Lemma map_set_keyed (f : K -> V) (k : K) (v : V) (ids : list K) :
  NoDup ids ->
  JS.map_set eqb k v (map (fun c => (c, f c)) ids) =
  map (fun c => (c, if eqb c k then v else f c))
    (if existsb (eqb k) ids then ids else ids ++ [k]).
Proof.
  induction ids as [|c t IH]; intros Hnd.
  - cbn. rewrite eqb_refl_assoc. reflexivity.
  - inversion Hnd as [|? ? Hc Ht]; subst. cbn [map JS.map_set existsb].
    destruct (eqb k c) eqn:E.
    + apply eqb_spec in E. subst c. cbn [orb map]. rewrite eqb_refl_assoc. f_equal.
      apply map_ext_in. intros c' Hc'. destruct (eqb c' k) eqn:E'; [|reflexivity].
      apply eqb_spec in E'. subst. contradiction.
    + cbn [orb]. rewrite (IH Ht).
      assert (E' : eqb c k = false).
      { destruct (eqb c k) eqn:E'; [|reflexivity].
        apply eqb_spec in E'. subst. rewrite eqb_refl_assoc in E. discriminate. }
      destruct (existsb (eqb k) t); cbn [map app]; rewrite E'; reflexivity.
Qed.
End AssocLemmas.

Lemma map_get_pairs {K V A : Type} (eqb : K -> K -> bool) (g : A -> K) (h : A -> V) k l :
  JS.map_get eqb k (map (fun b => (g b, h b)) l) = option_map h (find (fun b => eqb k (g b)) l).
Proof.
  induction l as [|b t IH]; [reflexivity|]. cbn. destruct (eqb k (g b)); [reflexivity|exact IH].
Qed.

Lemma map_set_new {K V : Type} (eqb : K -> K -> bool) k (v : V) m :
  JS.map_get eqb k m = None -> JS.map_set eqb k v m = m ++ [(k, v)].
Proof.
  induction m as [|[k' v'] t IH]; [reflexivity|]. cbn.
  destruct (eqb k k'); [discriminate|]. intros H. rewrite (IH H). reflexivity.
Qed.

Lemma map_get_in_values {K V : Type} (eqb : K -> K -> bool) k (v : V) m :
  JS.map_get eqb k m = Some v -> In v (map snd m).
Proof.
  induction m as [|[k' v'] t IH]; [discriminate|]. cbn.
  destruct (eqb k k'); [intros H; injection H as <-; left; reflexivity|].
  intros H. right. exact (IH H).
Qed.

Lemma find_app_single {A : Type} (p : A -> bool) (l : list A) (a : A) :
  find p (l ++ [a]) = match find p l with Some x => Some x | None => if p a then Some a else None end.
Proof.
  induction l as [|b t IH]; [reflexivity|]. cbn. destruct (p b); [reflexivity|exact IH].
Qed.

Lemma find_filter {A : Type} (p q : A -> bool) (l : list A) :
  find p (filter q l) = find (fun x => q x && p x) l.
Proof.
  induction l as [|b t IH]; [reflexivity|]. cbn.
  destruct (q b); cbn; [destruct (p b)|]; auto.
Qed.

Lemma existsb_filter {A : Type} (p q : A -> bool) (l : list A) :
  existsb p (filter q l) = existsb (fun x => q x && p x) l.
Proof.
  induction l as [|b t IH]; [reflexivity|]. cbn.
  destruct (q b); cbn; [rewrite IH|]; auto.
Qed.

Lemma NoDup_snoc {A : Type} (l : list A) (a : A) :
  NoDup l -> ~ In a l -> NoDup (l ++ [a]).
Proof.
  intros Hl Ha. apply NoDup_app; [exact Hl|constructor; [intros []|constructor]|].
  intros x Hx [<-|[]]. contradiction.
Qed.

Lemma includes_In (xs : list string) (x : string) :
  JS.includes xs x = true <-> In x xs.
Proof.
  unfold JS.includes. rewrite existsb_exists. split.
  - intros [y [Hy E]]. apply String.eqb_eq in E. subst. exact Hy.
  - intros H. exists x. split; [exact H|apply String.eqb_refl].
Qed.

Lemma same_residue_iff (a b : AtomLine) :
  same_residue a b = true <-> lineChainId a = lineChainId b /\ resSeq a = resSeq b.
Proof.
  unfold same_residue. rewrite andb_true_iff, String.eqb_eq, Z.eqb_eq. reflexivity.
Qed.

Lemma chain_ids_snoc (atoms : list AtomLine) (a : AtomLine) :
  chain_ids (atoms ++ [a]) =
  if JS.includes (chain_ids atoms) (lineChainId a) then chain_ids atoms
  else chain_ids atoms ++ [lineChainId a].
Proof. unfold chain_ids. rewrite fold_left_app. reflexivity. Qed.

Lemma first_occurrences_snoc (atoms : list AtomLine) (a : AtomLine) :
  first_occurrences (atoms ++ [a]) =
  if existsb (same_residue a) (first_occurrences atoms) then first_occurrences atoms
  else first_occurrences atoms ++ [a].
Proof. unfold first_occurrences. rewrite fold_left_app. reflexivity. Qed.

Lemma chain_ids_NoDup (atoms : list AtomLine) : NoDup (chain_ids atoms).
Proof.
  induction atoms as [|a atoms IH] using rev_ind; [constructor|].
  rewrite chain_ids_snoc. destruct (JS.includes _ _) eqn:E; [exact IH|].
  apply NoDup_snoc; [exact IH|]. intros Hin. apply includes_In in Hin. congruence.
Qed.

Lemma chain_ids_complete (atoms : list AtomLine) (b : AtomLine) :
  In b atoms -> In (lineChainId b) (chain_ids atoms).
Proof.
  induction atoms as [|a atoms IH] using rev_ind; [intros []|].
  rewrite chain_ids_snoc. intros Hb. apply in_app_or in Hb as [Hb|[<-|[]]].
  - destruct (JS.includes _ _); [|apply in_or_app; left]; exact (IH Hb).
  - destruct (JS.includes _ _) eqn:E; [apply includes_In; exact E|].
    apply in_or_app. right. left. reflexivity.
Qed.

Lemma chain_ids_sound (atoms : list AtomLine) (cid : string) :
  In cid (chain_ids atoms) -> exists b, In b atoms /\ lineChainId b = cid.
Proof.
  induction atoms as [|a atoms IH] using rev_ind; [intros []|].
  rewrite chain_ids_snoc. intros Hc.
  assert (Hc' : In cid (chain_ids atoms) \/ cid = lineChainId a).
  { destruct (JS.includes _ _); [left; exact Hc|].
    apply in_app_or in Hc as [Hc|[<-|[]]]; [left; exact Hc|right; reflexivity]. }
  destruct Hc' as [Hc' | ->].
  - destruct (IH Hc') as [b [Hb Eb]]. exists b. split; [apply in_or_app; left; exact Hb|exact Eb].
  - exists a. split; [apply in_or_app; right; left; reflexivity|reflexivity].
Qed.

Lemma first_occurrences_sub (atoms : list AtomLine) (b : AtomLine) :
  In b (first_occurrences atoms) -> In b atoms.
Proof.
  induction atoms as [|a atoms IH] using rev_ind; [intros []|].
  rewrite first_occurrences_snoc. intros Hb. apply in_or_app.
  destruct (existsb _ _); [left; exact (IH Hb)|].
  apply in_app_or in Hb as [Hb|Hb]; [left; exact (IH Hb)|right; exact Hb].
Qed.

Lemma first_occurrences_cover (atoms : list AtomLine) (a : AtomLine) :
  In a atoms -> exists b, In b (first_occurrences atoms) /\ same_residue a b = true.
Proof.
  induction atoms as [|a' atoms IH] using rev_ind; [intros []|].
  rewrite first_occurrences_snoc. intros Ha. apply in_app_or in Ha as [Ha|[ -> |[]]].
  - destruct (IH Ha) as [b [Hb Eb]]. exists b. split; [|exact Eb].
    destruct (existsb _ _); [exact Hb|apply in_or_app; left; exact Hb].
  - destruct (existsb (same_residue a) _) eqn:E.
    + apply existsb_exists in E. exact E.
    + exists a. split; [apply in_or_app; right; left; reflexivity|].
      apply same_residue_iff. split; reflexivity.
Qed.

Lemma first_occurrences_find (p : AtomLine -> bool) (atoms : list AtomLine) :
  (forall a b, same_residue a b = true -> p a = p b) ->
  find p (first_occurrences atoms) = find p atoms.
Proof.
  intros Hp. induction atoms as [|a atoms IH] using rev_ind; [reflexivity|].
  rewrite first_occurrences_snoc, find_app_single, <- IH.
  destruct (existsb (same_residue a) _) eqn:E; [|apply find_app_single].
  destruct (find p (first_occurrences atoms)) eqn:F; [reflexivity|].
  apply existsb_exists in E as [b [Hb Eb]].
  rewrite (Hp a b Eb), (find_none _ _ F b Hb). reflexivity.
Qed.

Lemma first_occurrences_NoDup (cid : string) (atoms : list AtomLine) :
  NoDup (map resSeq (of_chain cid (first_occurrences atoms))).
Proof.
  induction atoms as [|a atoms IH] using rev_ind; [constructor|].
  rewrite first_occurrences_snoc. destruct (existsb _ _) eqn:E; [exact IH|].
  unfold of_chain in *. rewrite filter_app, map_app. cbn [filter].
  destruct (String.eqb (lineChainId a) cid) eqn:Ec; [|rewrite app_nil_r; exact IH].
  apply NoDup_snoc; [exact IH|]. intros Hin.
  apply in_map_iff in Hin as [b [Eb Hb]]. apply filter_In in Hb as [Hb Hbc].
  apply String.eqb_eq in Ec, Hbc.
  assert (Hs : existsb (same_residue a) (first_occurrences atoms) = true).
  { apply existsb_exists. exists b. split; [exact Hb|]. apply same_residue_iff. split; congruence. }
  congruence.
Qed.

Lemma of_chain_absent (cid : string) (atoms : list AtomLine) :
  ~ In cid (chain_ids atoms) -> of_chain cid atoms = [].
Proof.
  intros Hc. unfold of_chain. destruct (filter _ atoms) as [|b t] eqn:E; [reflexivity|].
  exfalso. assert (Hb : In b (filter (fun a => String.eqb (lineChainId a) cid) atoms))
    by (rewrite E; left; reflexivity).
  apply filter_In in Hb as [Hb Eb]. apply String.eqb_eq in Eb. subst cid.
  exact (Hc (chain_ids_complete _ _ Hb)).
Qed.

Lemma of_chain_nil (cid : string) (l : list AtomLine) :
  (forall b, In b l -> lineChainId b <> cid) -> of_chain cid l = [].
Proof.
  intros H. unfold of_chain. induction l as [|b t IH]; [reflexivity|]. cbn.
  destruct (String.eqb (lineChainId b) cid) eqn:E.
  - apply String.eqb_eq in E. exfalso. exact (H b (or_introl eq_refl) E).
  - apply IH. intros b' Hb'. apply H. right. exact Hb'.
Qed.

Lemma of_chain_snoc (cid : string) (l : list AtomLine) (a : AtomLine) :
  of_chain cid (l ++ [a]) =
  if String.eqb (lineChainId a) cid then of_chain cid l ++ [a] else of_chain cid l.
Proof.
  unfold of_chain. rewrite filter_app. cbn [filter].
  destruct (String.eqb (lineChainId a) cid); [reflexivity|apply app_nil_r].
Qed.

Lemma find_existsb {A : Type} (p : A -> bool) (l : list A) :
  match find p l with Some _ => true | None => false end = existsb p l.
Proof. induction l as [|b t IH]; [reflexivity|]. cbn. destruct (p b); [reflexivity|exact IH]. Qed.

Lemma existsb_ext_eq {A : Type} (f g : A -> bool) (l : list A) :
  (forall x, f x = g x) -> existsb f l = existsb g l.
Proof. intros H. induction l as [|b t IH]; [reflexivity|]. cbn. rewrite H, IH. reflexivity. Qed.

Lemma residues_chain_data (fs : list AtomLine) (cid : string) :
  residues (chain_data_of fs cid) =
  map (fun b => (resSeq b, oneLetterCode (resName b))) (of_chain cid fs).
Proof. reflexivity. Qed.

Lemma parse_step_chains (st : ParseState) (atoms : list AtomLine) (line : string) :
  chains st = chains_model atoms ->
  chains (parse_step st line) = chains_model (atoms ++ polymer_atom line).
Proof.
  intros H. unfold parse_step, polymer_atom.
  destruct (read_atom_line line) as [a|]; [|rewrite app_nil_r; exact H].
  destruct (String.eqb (recordType a) "HETATM") eqn:Eh.
  - rewrite app_nil_r.
    destruct (JS.includes waterNames (resName a)); [exact H|].
    destruct (JS.includes ionNames (resName a)); exact H.
  - rewrite H. unfold chains_model. rewrite first_occurrences_snoc, chain_ids_snoc.
    set (fs := first_occurrences atoms). set (ids := chain_ids atoms). set (cid := lineChainId a).
    assert (Hnd : NoDup ids) by apply chain_ids_NoDup.
    assert (Hhas : forall l, JS.map_has Z.eqb (resSeq a)
                     (map (fun b => (resSeq b, oneLetterCode (resName b))) (of_chain cid l))
                   = existsb (same_residue a) l).
    { intros l. unfold JS.map_has. rewrite map_get_pairs.
      transitivity (match find (fun b => Z.eqb (resSeq a) (resSeq b)) (of_chain cid l) with
                    | Some _ => true | None => false end);
        [destruct (find _ _); reflexivity|].
      rewrite find_existsb. unfold of_chain. rewrite existsb_filter.
      apply existsb_ext_eq. intros b. unfold same_residue, cid.
      rewrite (String.eqb_sym (lineChainId b)). reflexivity. }
    rewrite (map_has_keyed String.eqb String.eqb_eq).
    unfold JS.includes. fold cid.
    destruct (existsb (String.eqb cid) ids) eqn:Ei.
    + rewrite (map_get_keyed String.eqb String.eqb_eq), Ei.
      rewrite residues_chain_data, Hhas.
      destruct (existsb (same_residue a) fs) eqn:Es; [reflexivity|].
      cbn [chains]. rewrite (map_set_keyed String.eqb String.eqb_eq) by exact Hnd. rewrite Ei.
      apply map_ext. intros c. destruct (String.eqb c cid) eqn:Ec.
      * apply String.eqb_eq in Ec. subst c. f_equal. unfold chain_data_of.
        rewrite of_chain_snoc. unfold cid at 3. rewrite String.eqb_refl. cbn [residues ctype].
        rewrite map_set_new.
        -- rewrite map_app, fold_left_app. reflexivity.
        -- rewrite map_get_pairs. destruct (find _ _) eqn:F; [|reflexivity].
           exfalso. pose proof (Hhas fs) as Hf. unfold JS.map_has in Hf.
           rewrite map_get_pairs, F in Hf. cbn in Hf. congruence.
      * f_equal. unfold chain_data_of. rewrite of_chain_snoc.
        destruct (String.eqb (lineChainId a) c) eqn:Ec'; [|reflexivity].
        apply String.eqb_eq in Ec'. unfold cid in Ec. rewrite Ec', String.eqb_refl in Ec. discriminate.
    + assert (Hni : ~ In cid ids).
      { intros Hin. assert (Hx : existsb (String.eqb cid) ids = true).
        { apply existsb_exists. exists cid. split; [exact Hin|apply String.eqb_refl]. }
        congruence. }
      assert (Hnd' : NoDup (ids ++ [cid])) by (apply NoDup_snoc; assumption).
      assert (Hin' : existsb (String.eqb cid) (ids ++ [cid]) = true).
      { rewrite existsb_app, Ei. cbn. rewrite String.eqb_refl. reflexivity. }
      assert (Hfs : forall b, In b fs -> lineChainId b <> cid).
      { intros b Hb Eb. apply Hni. rewrite <- Eb. apply chain_ids_complete.
        exact (first_occurrences_sub _ _ Hb). }
      assert (Es : existsb (same_residue a) fs = false).
      { destruct (existsb _ fs) eqn:Es; [|reflexivity].
        apply existsb_exists in Es as [b [Hb Eb]]. apply same_residue_iff in Eb as [Eb _].
        exfalso. exact (Hfs b Hb (eq_sym Eb)). }
      rewrite Es.
      rewrite (map_set_keyed String.eqb String.eqb_eq) by exact Hnd. rewrite Ei.
      rewrite (map_get_keyed String.eqb String.eqb_eq), Hin', String.eqb_refl.
      cbn [residues JS.map_has JS.map_get chains].
      rewrite (map_set_keyed String.eqb String.eqb_eq) by exact Hnd'. rewrite Hin'.
      apply map_ext. intros c. destruct (String.eqb c cid) eqn:Ec.
      * apply String.eqb_eq in Ec. subst c. f_equal. unfold chain_data_of.
        rewrite of_chain_snoc. unfold cid at 2. rewrite String.eqb_refl.
        pose proof (of_chain_nil cid fs Hfs) as Hoc. unfold cid in Hoc |- *.
        rewrite Hoc. reflexivity.
      * f_equal. unfold chain_data_of. rewrite of_chain_snoc.
        destruct (String.eqb (lineChainId a) c) eqn:Ec'; [|reflexivity].
        apply String.eqb_eq in Ec'. unfold cid in Ec. rewrite Ec', String.eqb_refl in Ec. discriminate.
Qed.

Lemma ion_species_snoc (cid : string) (atoms : list AtomLine) (a : AtomLine) :
  ion_species cid (atoms ++ [a]) =
  if String.eqb (lineChainId a) cid then
    let acc := ion_species cid atoms in
    if JS.includes acc (resName a) then acc else acc ++ [resName a]
  else ion_species cid atoms.
Proof.
  unfold ion_species. rewrite of_chain_snoc.
  destruct (String.eqb (lineChainId a) cid); [|reflexivity].
  rewrite fold_left_app. reflexivity.
Qed.

Lemma water_not_ion (name : string) :
  JS.includes waterNames name = true -> JS.includes ionNames name = false.
Proof.
  intros H. apply includes_In in H. cbn in H.
  destruct H as [<-|[<-|[<-|[]]]]; reflexivity.
Qed.

Lemma parse_step_ions (st : ParseState) (atoms : list AtomLine) (line : string) :
  ions st = ions_model atoms ->
  ions (parse_step st line) = ions_model (atoms ++ ion_atom line).
Proof.
  intros H. unfold parse_step, ion_atom.
  destruct (read_atom_line line) as [a|]; [|rewrite app_nil_r; exact H].
  destruct (String.eqb (recordType a) "HETATM") eqn:Eh; cbn [andb].
  2:{ rewrite app_nil_r. destruct (JS.map_has Z.eqb _ _); exact H. }
  destruct (JS.includes waterNames (resName a)) eqn:Ew.
  { rewrite (water_not_ion _ Ew), app_nil_r. exact H. }
  destruct (JS.includes ionNames (resName a)) eqn:Ei; [|rewrite app_nil_r; exact H].
  cbn [ions]. rewrite H. unfold ions_model. rewrite chain_ids_snoc.
  set (ids := chain_ids atoms). set (cid := lineChainId a). set (name := resName a).
  assert (Hnd : NoDup ids) by apply chain_ids_NoDup.
  rewrite (map_has_keyed String.eqb String.eqb_eq).
  unfold JS.includes at 2. fold cid.
  destruct (existsb (String.eqb cid) ids) eqn:Ec.
  - rewrite (map_get_keyed String.eqb String.eqb_eq), Ec.
    destruct (JS.includes (ion_species cid atoms) name) eqn:En.
    + apply map_ext. intros c. f_equal. rewrite ion_species_snoc.
      destruct (String.eqb (lineChainId a) c) eqn:E'; [|reflexivity].
      apply String.eqb_eq in E'. cbv zeta. fold cid in E'. rewrite <- E'. fold name. rewrite En.
      reflexivity.
    + rewrite (map_set_keyed String.eqb String.eqb_eq) by exact Hnd. rewrite Ec.
      apply map_ext. intros c. f_equal. rewrite ion_species_snoc.
      destruct (String.eqb c cid) eqn:E'.
      * apply String.eqb_eq in E'. subst c. unfold cid at 2. rewrite String.eqb_refl.
        cbv zeta. fold cid name. rewrite En. reflexivity.
      * destruct (String.eqb (lineChainId a) c) eqn:E''; [|reflexivity].
        apply String.eqb_eq in E''. fold cid in E''. subst c. rewrite String.eqb_refl in E'.
        discriminate.
  - assert (Hni : ~ In cid ids).
    { intros Hin. assert (Hx : existsb (String.eqb cid) ids = true).
      { apply existsb_exists. exists cid. split; [exact Hin|apply String.eqb_refl]. }
      congruence. }
    assert (Hnd' : NoDup (ids ++ [cid])) by (apply NoDup_snoc; assumption).
    assert (Hin' : existsb (String.eqb cid) (ids ++ [cid]) = true).
    { rewrite existsb_app, Ec. cbn. rewrite String.eqb_refl. reflexivity. }
    rewrite (map_set_keyed String.eqb String.eqb_eq) by exact Hnd. rewrite Ec.
    rewrite (map_get_keyed String.eqb String.eqb_eq), Hin', String.eqb_refl.
    cbn [JS.includes existsb app].
    rewrite (map_set_keyed String.eqb String.eqb_eq) by exact Hnd'. rewrite Hin'.
    apply map_ext. intros c. f_equal. rewrite ion_species_snoc.
    destruct (String.eqb c cid) eqn:E'.
    + apply String.eqb_eq in E'. subst c. unfold cid at 2. rewrite String.eqb_refl.
      cbv zeta. fold cid name. unfold ion_species. rewrite (of_chain_absent cid atoms Hni). reflexivity.
    + destruct (String.eqb (lineChainId a) c) eqn:E''; [|reflexivity].
      apply String.eqb_eq in E''. fold cid in E''. subst c. rewrite String.eqb_refl in E'.
      discriminate.
Qed.

Lemma parse_lines_state (lines : list string) :
  chains (fold_left parse_step lines {| chains := []; ions := [] |})
    = chains_model (polymer_atoms lines) /\
  ions (fold_left parse_step lines {| chains := []; ions := [] |})
    = ions_model (ion_atoms lines).
Proof.
  induction lines as [|line lines IH] using rev_ind; [split; reflexivity|].
  rewrite fold_left_app. cbn [fold_left]. destruct IH as [Hc Hi].
  unfold polymer_atoms, ion_atoms in *. rewrite !flat_map_app. cbn [flat_map]. rewrite !app_nil_r.
  split; [apply parse_step_chains; exact Hc|apply parse_step_ions; exact Hi].
Qed.

Section SortLemmas.
Context {A : Type} (key : A -> Z).
Let R (a b : A) := key a <= key b.

Lemma insert_by_perm (x : A) (l : list A) : Permutation (insert_by key x l) (x :: l).
Proof.
  induction l as [|y t IH]; cbn; [reflexivity|].
  destruct (key x <? key y); [reflexivity|].
  rewrite IH. apply perm_swap.
Qed.

Lemma sort_by_perm (l : list A) : Permutation (sort_by key l) l.
Proof.
  unfold sort_by. assert (H : forall acc, Permutation (fold_left (fun acc x => insert_by key x acc) l acc) (acc ++ l)).
  { induction l as [|x t IH]; intros acc; cbn; [rewrite app_nil_r; reflexivity|].
    rewrite IH, insert_by_perm. apply Permutation_middle. }
  apply H.
Qed.

Lemma insert_by_sorted (x : A) (l : list A) :
  StronglySorted R l -> StronglySorted R (insert_by key x l).
Proof.
  induction l as [|y t IH]; intros Hs; cbn.
  - constructor; constructor.
  - inversion Hs as [|? ? Ht Hf]; subst.
    destruct (key x <? key y) eqn:E.
    + apply Z.ltb_lt in E. constructor; [exact Hs|].
      constructor; [unfold R; lia|].
      rewrite Forall_forall in Hf |- *. intros z Hz. specialize (Hf z Hz). unfold R in *. lia.
    + apply Z.ltb_ge in E. constructor; [exact (IH Ht)|].
      rewrite Forall_forall in Hf |- *. intros z Hz.
      apply (Permutation_in _ (insert_by_perm x t)) in Hz as [<-|Hz]; [unfold R; lia|].
      exact (Hf z Hz).
Qed.

Lemma sort_by_sorted (l : list A) : StronglySorted R (sort_by key l).
Proof.
  unfold sort_by. assert (H : forall acc, StronglySorted R acc ->
    StronglySorted R (fold_left (fun acc x => insert_by key x acc) l acc)).
  { induction l as [|x t IH]; intros acc Hacc; cbn; [exact Hacc|].
    apply IH. apply insert_by_sorted. exact Hacc. }
  apply H. constructor.
Qed.

Lemma filter_key_nil (k : Z) (l : list A) :
  (forall z, In z l -> key z <> k) -> filter (fun c => key c =? k) l = [].
Proof.
  induction l as [|z u IH]; intros H; [reflexivity|]. cbn.
  destruct (key z =? k) eqn:E.
  - apply Z.eqb_eq in E. exfalso. exact (H z (or_introl eq_refl) E).
  - apply IH. intros z' Hz'. apply H. right. exact Hz'.
Qed.

Lemma insert_by_filter (k : Z) (x : A) (l : list A) :
  StronglySorted R l ->
  filter (fun c => key c =? k) (insert_by key x l) =
  filter (fun c => key c =? k) l ++ (if key x =? k then [x] else []).
Proof.
  assert (Hcons : forall z l', filter (fun c => key c =? k) (z :: l') =
    if key z =? k then z :: filter (fun c => key c =? k) l' else filter (fun c => key c =? k) l')
    by reflexivity.
  induction l as [|y t IH]; intros Hs; [cbn; destruct (key x =? k); reflexivity|].
  inversion Hs as [|? ? Ht Hf]; subst. cbn [insert_by].
  destruct (key x <? key y) eqn:E.
  - apply Z.ltb_lt in E. rewrite (Hcons x).
    destruct (key x =? k) eqn:Ex.
    + apply Z.eqb_eq in Ex.
      rewrite (filter_key_nil k (y :: t)); [reflexivity|].
      intros z [<-|Hz]; [lia|]. rewrite Forall_forall in Hf. specialize (Hf z Hz).
      unfold R in Hf. lia.
    + rewrite app_nil_r. reflexivity.
  - rewrite !(Hcons y), (IH Ht). destruct (key y =? k); reflexivity.
Qed.

Lemma sort_by_filter (k : Z) (l : list A) :
  filter (fun c => key c =? k) (sort_by key l) = filter (fun c => key c =? k) l.
Proof.
  unfold sort_by. assert (H : forall acc, StronglySorted R acc ->
    filter (fun c => key c =? k) (fold_left (fun acc x => insert_by key x acc) l acc)
    = filter (fun c => key c =? k) acc ++ filter (fun c => key c =? k) l).
  { induction l as [|x t IH]; intros acc Hacc; cbn; [rewrite app_nil_r; reflexivity|].
    rewrite IH by (apply insert_by_sorted; exact Hacc).
    rewrite (insert_by_filter k x acc Hacc), <- app_assoc.
    destruct (key x =? k); reflexivity. }
  apply H. constructor.
Qed.
End SortLemmas.

Lemma find_ext_eq {A : Type} (f g : A -> bool) (l : list A) :
  (forall x, f x = g x) -> find f l = find g l.
Proof. intros H. induction l as [|b t IH]; [reflexivity|]. cbn. rewrite H, IH. reflexivity. Qed.

Lemma parsePDB_records (text : string) (c : ChainInfo) :
  In c (parsePDB text) ->
  (exists cid, In cid (chain_ids (polymer_atoms (JS.split_nl text))) /\
     c = chain_record (cid, chain_data_of (first_occurrences (polymer_atoms (JS.split_nl text))) cid)) \/
  (exists cid, In cid (chain_ids (ion_atoms (JS.split_nl text))) /\
     c = ion_record (cid, ion_species cid (ion_atoms (JS.split_nl text)))).
Proof.
  unfold parsePDB, parse_lines. intros H.
  destruct (parse_lines_state (JS.split_nl text)) as [Hc Hi].
  apply (Permutation_in _ (sort_by_perm _ _)) in H.
  apply in_app_or in H as [H|H]; apply in_map_iff in H as [x [<- Hx]].
  - left. rewrite Hc in Hx. unfold chains_model in Hx.
    apply in_map_iff in Hx as [cid [<- Hcid]]. exists cid. split; [exact Hcid|reflexivity].
  - right. rewrite Hi in Hx. unfold ions_model in Hx.
    apply in_map_iff in Hx as [cid [<- Hcid]]. exists cid. split; [exact Hcid|reflexivity].
Qed.

Lemma parsePDB_chain_props (text : string) (c : ChainInfo) :
  In c (parsePDB text) -> type c <> Ion ->
  let atoms := polymer_atoms (JS.split_nl text) in
  exists rs : list Z,
    StronglySorted Z.le rs /\ NoDup rs /\
    (forall r, In r rs <-> exists a, In a atoms /\ lineChainId a = chainId c /\ resSeq a = r) /\
    sequence c = String.concat "" (map (fun r =>
      match find (fun a => String.eqb (lineChainId a) (chainId c) && (resSeq a =? r)) atoms with
      | Some a => oneLetterCode (resName a)
      | None => ""%string
      end) rs) /\
    residueCount c = Z.of_nat (length rs) /\
    startResidue c = match rs with r :: _ => if r =? 0 then 1 else r | [] => 1 end /\
    type c = fold_left nucleotide_type (of_chain (chainId c) (first_occurrences atoms)) Protein.
Proof.
  intros Hin Hty atoms.
  destruct (parsePDB_records text c Hin) as [[cid [Hcid ->]]|[cid [_ ->]]];
    [|exfalso; apply Hty; reflexivity].
  set (fs := first_occurrences (polymer_atoms (JS.split_nl text))).
  set (lr := of_chain cid fs).
  set (rs := sort_by (fun z => z) (map resSeq lr)).
  assert (Hrs : map fst (residues (chain_data_of fs cid)) = map resSeq lr)
    by (rewrite residues_chain_data, map_map; reflexivity).
  exists rs. cbn [chain_record chainId type sequence residueCount startResidue].
  rewrite Hrs. fold rs.
  assert (Hperm : Permutation rs (map resSeq lr)) by apply sort_by_perm.
  split; [exact (sort_by_sorted (fun z => z) (map resSeq lr))|].
  split; [apply (Permutation_NoDup (Permutation_sym Hperm)); apply first_occurrences_NoDup|].
  split; [|split; [|split; [reflexivity|split; reflexivity]]].
  - intros r. split.
    + intros Hr. apply (Permutation_in _ Hperm) in Hr.
      apply in_map_iff in Hr as [b [Eb Hb]]. apply filter_In in Hb as [Hb Ec].
      apply String.eqb_eq in Ec. exists b. split; [exact (first_occurrences_sub _ _ Hb)|].
      split; assumption.
    + intros [a [Ha [Ec Er]]]. apply (Permutation_in _ (Permutation_sym Hperm)).
      destruct (first_occurrences_cover _ _ Ha) as [b [Hb Eb]].
      apply same_residue_iff in Eb as [Ec' Er'].
      apply in_map_iff. exists b. split; [congruence|].
      apply filter_In. split; [exact Hb|]. apply String.eqb_eq. congruence.
  - f_equal. apply map_ext. intros r.
    rewrite residues_chain_data, map_get_pairs. unfold lr, of_chain. rewrite find_filter.
    rewrite (find_ext_eq _ (fun a => String.eqb (lineChainId a) cid && (resSeq a =? r))).
    + unfold fs. rewrite first_occurrences_find.
      * unfold atoms. destruct (find _ _); reflexivity.
      * intros a b Eab. apply same_residue_iff in Eab as [E1 E2]. rewrite E1, E2. reflexivity.
    + intros a. rewrite Z.eqb_sym. reflexivity.
Qed.

Lemma string_length_app (s1 s2 : string) :
  String.length (s1 ++ s2) = (String.length s1 + String.length s2)%nat.
Proof. induction s1 as [|ch s1 IH]; cbn; [reflexivity|rewrite IH; reflexivity]. Qed.

Lemma concat_length_singletons (l : list string) :
  (forall x, In x l -> String.length x = 1%nat) ->
  String.length (String.concat "" l) = length l.
Proof.
  induction l as [|x t IH]; intros H; [reflexivity|].
  destruct t as [|y t].
  - cbn. apply H. left. reflexivity.
  - change (String.concat "" (x :: y :: t)) with (x ++ "" ++ String.concat "" (y :: t))%string.
    rewrite string_length_app. cbn [String.append]. rewrite IH.
    + rewrite (H x (or_introl eq_refl)). reflexivity.
    + intros z Hz. apply H. right. exact Hz.
Qed.

Lemma oneLetterCode_length (name : string) : String.length (oneLetterCode name) = 1%nat.
Proof.
  unfold oneLetterCode. destruct (THREE_TO_ONE name) as [v|] eqn:E; [|reflexivity].
  apply map_get_in_values in E. cbn in E.
  repeat (destruct E as [<-|E]; [reflexivity|]). destruct E.
Qed.

Lemma sorted_lt_of_le (l : list Z) : StronglySorted Z.le l -> NoDup l -> Sorted Z.lt l.
Proof.
  intros Hs Hn. apply StronglySorted_Sorted.
  induction Hs as [|a t Ht IH Hf]; constructor.
  - apply IH. inversion Hn; assumption.
  - inversion Hn as [|? ? Ha _]; subst. rewrite Forall_forall in Hf |- *.
    intros z Hz. specialize (Hf z Hz). assert (a <> z) by (intros ->; contradiction). lia.
Qed.

Lemma nucleotide_type_last (l : list AtomLine) (t : ChainType) :
  fold_left nucleotide_type l t =
  match hd_error (rev (filter (fun a => is_nucleotide (resName a)) l)) with
  | Some a => if JS.includes rnaNames (resName a) then RNA else DNA
  | None => t
  end.
Proof.
  induction l as [|a l IH] using rev_ind; [reflexivity|].
  rewrite fold_left_app, filter_app, rev_app_distr. cbn [fold_left filter].
  rewrite IH. unfold nucleotide_type, is_nucleotide.
  destruct (JS.includes rnaNames (resName a)) eqn:Er; cbn [orb rev app hd_error];
    [rewrite Er; reflexivity|].
  destruct (JS.includes dnaNames (resName a)) eqn:Ed; cbn [rev app hd_error];
    [rewrite Er; reflexivity|].
  reflexivity.
Qed.

Lemma chain_type_not_ion (l : list AtomLine) :
  fold_left nucleotide_type l Protein <> Ion.
Proof.
  rewrite nucleotide_type_last. destruct (hd_error _) as [a|]; [|discriminate].
  destruct (JS.includes _ _); discriminate.
Qed.

Lemma dedup_names_spec (l : list AtomLine) :
  let dd := fold_left (fun acc a => if JS.includes acc (resName a) then acc else acc ++ [resName a]) l [] in
  NoDup dd /\ (forall s, In s dd <-> exists a, In a l /\ resName a = s).
Proof.
  induction l as [|a l IH] using rev_ind; cbn zeta in *.
  - split; [constructor|]. intros s. split; [intros []|intros [a [[] _]]].
  - rewrite fold_left_app. cbn [fold_left]. destruct IH as [Hn Hm].
    destruct (JS.includes _ (resName a)) eqn:E.
    + split; [exact Hn|]. intros s. rewrite Hm. split.
      * intros [b [Hb Eb]]. exists b. split; [apply in_or_app; left; exact Hb|exact Eb].
      * intros [b [Hb Eb]]. apply in_app_or in Hb as [Hb|[<-|[]]]; [exists b; split; assumption|].
        apply includes_In in E. subst s. apply Hm in E. exact E.
    + split.
      * apply NoDup_snoc; [exact Hn|]. intros Hin. apply includes_In in Hin. congruence.
      * intros s. split.
        -- intros Hs. apply in_app_or in Hs as [Hs|[<-|[]]].
           ++ apply Hm in Hs as [b [Hb Eb]]. exists b. split; [apply in_or_app; left; exact Hb|exact Eb].
           ++ exists a. split; [apply in_or_app; right; left|]; reflexivity.
        -- intros [b [Hb Eb]]. apply in_or_app. apply in_app_or in Hb as [Hb|[<-|[]]].
           ++ left. apply Hm. exists b. split; assumption.
           ++ right. left. exact Eb.
Qed.

Lemma water_lines_skipped (lines : list string) (st : ParseState) :
  fold_left parse_step (filter (fun l => negb (is_water_line l)) lines) st =
  fold_left parse_step lines st.
Proof.
  revert st. induction lines as [|l lines IH]; intros st; [reflexivity|].
  cbn [filter fold_left]. destruct (is_water_line l) eqn:Ew; cbn [negb fold_left]; rewrite IH;
    [|reflexivity].
  f_equal. unfold is_water_line in Ew. unfold parse_step.
  destruct (read_atom_line l) as [a|]; [|reflexivity].
  apply andb_true_iff in Ew as [Eh Ew]. rewrite Eh, Ew. reflexivity.
Qed.

Lemma filter_all {A : Type} (f : A -> bool) (l : list A) :
  (forall x, In x l -> f x = true) -> filter f l = l.
Proof.
  induction l as [|x t IH]; intros H; [reflexivity|]. cbn.
  rewrite (H x (or_introl eq_refl)), IH; [reflexivity|].
  intros y Hy. apply H. right. exact Hy.
Qed.

Lemma block_NoDup (r0 : Z) (n : nat) : NoDup (map (fun j => r0 + Z.of_nat j) (seq 0 n)).
Proof.
  generalize 0%nat. induction n as [|n IH]; intros k; cbn; constructor; [|apply IH].
  intros Hin. apply in_map_iff in Hin as [j [Ej Hj]]. apply in_seq in Hj. lia.
Qed.

Lemma block_In (r0 r : Z) (n : nat) :
  In r (map (fun j => r0 + Z.of_nat j) (seq 0 n)) <-> r0 <= r < r0 + Z.of_nat n.
Proof.
  rewrite in_map_iff. split.
  - intros [j [<- Hj]]. apply in_seq in Hj. lia.
  - intros Hr. exists (Z.to_nat (r - r0)). split; [lia|]. apply in_seq. lia.
Qed.

Lemma parsePDB_sequence_length (text : string) (c : ChainInfo) (rs : list Z) :
  let atoms := polymer_atoms (JS.split_nl text) in
  (forall r, In r rs <-> exists a, In a atoms /\ lineChainId a = chainId c /\ resSeq a = r) ->
  sequence c = String.concat "" (map (fun r =>
      match find (fun a => String.eqb (lineChainId a) (chainId c) && (resSeq a =? r)) atoms with
      | Some a => oneLetterCode (resName a)
      | None => ""%string
      end) rs) ->
  String.length (sequence c) = length rs.
Proof.
  intros atoms Hm Hs. rewrite Hs, concat_length_singletons, length_map; [reflexivity|].
  intros x Hx. apply in_map_iff in Hx as [r [<- Hr]].
  destruct (find _ atoms) as [a|] eqn:F; [apply oneLetterCode_length|].
  exfalso. apply Hm in Hr as [a [Ha [Ec Er]]].
  pose proof (find_none _ _ F a Ha) as Hf. cbv beta in Hf. rewrite Ec, String.eqb_refl, Er, Z.eqb_refl in Hf.
  discriminate.
Qed.

(** Claim C6: for every output polymer chain [c] of [parsePDB text] there is
    a list [rs] of residue numbers, strictly ascending (so without
    duplicates), which are exactly the residue numbers of the chain's
    polymer atom lines; the sequence has one one-letter code per number of
    [rs] (the code of the first atom line of the chain with that number) and
    [residueCount] is the length of [rs]. The parser is a function of the
    text alone: equal texts give equal chain records. *)
Theorem parsePDB_residues_dedup_sorted (text : string) (c : ChainInfo) :
  In c (parsePDB text) -> type c <> Ion ->
  let atoms := polymer_atoms (JS.split_nl text) in
  (exists rs : list Z,
    Sorted Z.lt rs /\
    (forall r, In r rs <-> exists a, In a atoms /\ lineChainId a = chainId c /\ resSeq a = r) /\
    sequence c = String.concat "" (map (fun r =>
      match find (fun a => String.eqb (lineChainId a) (chainId c) && (resSeq a =? r)) atoms with
      | Some a => oneLetterCode (resName a)
      | None => ""%string
      end) rs) /\
    String.length (sequence c) = length rs /\
    residueCount c = Z.of_nat (length rs)) /\
  (forall text', text' = text -> parsePDB text' = parsePDB text).
Proof.
  intros Hin Hty atoms. split; [|intros ? ->; reflexivity].
  destruct (parsePDB_chain_props text c Hin Hty) as (rs & Hs & Hn & Hm & Hq & Hc & _ & _).
  exists rs. split; [apply sorted_lt_of_le; assumption|].
  split; [exact Hm|]. split; [exact Hq|]. split; [|exact Hc].
  exact (parsePDB_sequence_length text c rs Hm Hq).
Qed.

(** Claim C5, counterexample: in a chain whose first residue is the
    ribonucleotide [A] and whose second is the deoxyribonucleotide [DA], the
    chain is typed DNA: the last matching residue decides, not the first. *)
Lemma chain_type_first_match_counterexample :
  let nl := String (Ascii.ascii_of_nat 10) EmptyString in
  let text := ("ATOM      1  P     A A   1" ++ nl ++ "ATOM      2  P    DA A   2")%string in
  map resName (polymer_atoms (JS.split_nl text)) = ["A"; "DA"]%string /\
  JS.includes rnaNames "A" = true /\
  parsePDB text = [{| chainId := "A"; type := DNA; sequence := "AA";
                      residueCount := 2; startResidue := 1 |}].
Proof. vm_compute. repeat split. Qed.

(** Claim C5, as amended: the type of every polymer chain record is
    decided by the LAST residue, among the first atom lines of each residue
    number of the chain, whose name is a nucleotide code: RNA if that name
    is one of A, C, G, U, DNA if it is one of DA, DC, DG, DT, and Protein
    when the chain has no such residue. A chain whose nucleotide residues
    are all of one kind is therefore RNA or DNA as the names say. *)
Theorem chain_type_last_nucleotide (text : string) (c : ChainInfo) :
  In c (parsePDB text) -> type c <> Ion ->
  type c =
  match hd_error (rev (filter (fun a => is_nucleotide (resName a))
          (of_chain (chainId c) (first_occurrences (polymer_atoms (JS.split_nl text)))))) with
  | Some a => if JS.includes rnaNames (resName a) then RNA else DNA
  | None => Protein
  end.
Proof.
  intros Hin Hty.
  destruct (parsePDB_chain_props text c Hin Hty) as (rs & _ & _ & _ & _ & _ & _ & Ht).
  rewrite Ht. apply nucleotide_type_last.
Qed.

Lemma chain_type_last_nucleotide_witness :
  let nl := String (Ascii.ascii_of_nat 10) EmptyString in
  let text := ("ATOM      1  P     A A   1" ++ nl ++ "ATOM      2  P    DA A   2")%string in
  type {| chainId := "A"; type := DNA; sequence := "AA"; residueCount := 2; startResidue := 1 |}
  = match hd_error (rev (filter (fun a => is_nucleotide (resName a))
          (of_chain "A" (first_occurrences (polymer_atoms (JS.split_nl text)))))) with
    | Some a => if JS.includes rnaNames (resName a) then RNA else DNA
    | None => Protein
    end.
Proof.
  intros nl text.
  apply (chain_type_last_nucleotide text
           {| chainId := "A"; type := DNA; sequence := "AA"; residueCount := 2; startResidue := 1 |}).
  - vm_compute. left. reflexivity.
  - discriminate.
Defined.

Lemma parsePDB_residues_dedup_sorted_witness :
  let nl := String (Ascii.ascii_of_nat 10) EmptyString in
  let text := ("ATOM      1  CA  ALA A   1" ++ nl ++ "ATOM      2  CB  ALA A   1" ++ nl ++
               "ATOM      3  CA  GLY A   5")%string in
  exists rs : list Z, Sorted Z.lt rs /\ residueCount
    {| chainId := "A"; type := Protein; sequence := "AG"; residueCount := 2; startResidue := 1 |}
    = Z.of_nat (length rs).
Proof.
  intros nl text.
  destruct (parsePDB_residues_dedup_sorted text
    {| chainId := "A"; type := Protein; sequence := "AG"; residueCount := 2; startResidue := 1 |})
    as [(rs & Hs & _ & _ & _ & Hc) _].
  - vm_compute. left. reflexivity.
  - discriminate.
  - exists rs. split; assumption.
Defined.

(** Claim C8, counterexample: a manganese ion is listed under its raw code
    [MN], while zinc is labelled [Zn²⁺] (two zinc lines give one entry, the
    water line nothing). *)
Lemma ion_label_raw_code_counterexample :
  let nl := String (Ascii.ascii_of_nat 10) EmptyString in
  let text := ("HETATM    1 MN    MN A 101" ++ nl ++ "HETATM    2 ZN    ZN A 102" ++ nl ++
               "HETATM    3 ZN    ZN A 103" ++ nl ++ "HETATM    4  O   HOH A 201")%string in
  parsePDB text = [{| chainId := "A-ion"; type := Ion; sequence := "MN, Zn²⁺";
                      residueCount := 2; startResidue := 0 |}].
Proof. vm_compute. reflexivity. Qed.

(** Claim C8, as amended: the Ion records of [parsePDB text] are exactly
    one record [cid-ion] per chain id [cid] having ion heteroatom lines (in
    order of first appearance, ids distinct), listing the distinct ion
    species of the chain once each in order of first appearance, with
    [residueCount] their number; ZN, MG, CA, FE and CL are shown with
    charge-annotated labels while MN, CU, NA and K keep their raw code; and
    heteroatom lines naming water contribute nothing: dropping them leaves
    the output unchanged. *)
Theorem ion_records_per_chain (text : string) :
  let ia := ion_atoms (JS.split_nl text) in
  filter is_ion_record (parsePDB text) =
    map (fun cid => {| chainId := cid ++ "-ion"; type := Ion;
                       sequence := JS.join ", " (map ionLabel (ion_species cid ia));
                       residueCount := Z.of_nat (length (ion_species cid ia));
                       startResidue := 0 |}) (chain_ids ia) /\
  NoDup (chain_ids ia) /\
  (forall cid, NoDup (ion_species cid ia) /\
     (forall s, In s (ion_species cid ia) <->
                exists a, In a ia /\ lineChainId a = cid /\ resName a = s)) /\
  map ionLabel ionNames =
    ["Zn²⁺"; "Mg²⁺"; "Ca²⁺"; "Fe²⁺/³⁺"; "MN"; "CU"; "NA"; "K"; "Cl⁻"]%string /\
  parsePDB text = parse_lines (filter (fun l => negb (is_water_line l)) (JS.split_nl text)).
Proof.
  intros ia. split; [|split; [apply chain_ids_NoDup|split; [|split; [reflexivity|]]]].
  - unfold parsePDB, parse_lines.
    destruct (parse_lines_state (JS.split_nl text)) as [Hc Hi].
    rewrite (filter_ext is_ion_record (fun c => typeOrder (type c) =? 3))
      by (intros c; unfold is_ion_record; destruct (type c); reflexivity).
    rewrite (sort_by_filter (fun c => typeOrder (type c)) 3), filter_app, Hc, Hi.
    unfold chains_model, ions_model. rewrite !map_map.
    rewrite filter_key_nil, filter_all; [reflexivity| |].
    + intros c Hc'. apply in_map_iff in Hc' as [cid [<- _]]. reflexivity.
    + intros c Hc'. apply in_map_iff in Hc' as [cid [<- _]]. cbn [chain_record type].
      pose proof (chain_type_not_ion (of_chain cid (first_occurrences (polymer_atoms (JS.split_nl text)))))
        as Hn.
      unfold chain_data_of. cbn [ctype]. intros E.
      revert E Hn. generalize (fold_left nucleotide_type (of_chain cid (first_occurrences (polymer_atoms (JS.split_nl text)))) Protein).
      intros t E Hn. destruct t; cbn in E; congruence.
  - intros cid. destruct (dedup_names_spec (of_chain cid ia)) as [Hn Hm].
    split; [exact Hn|]. intros s. unfold ion_species. rewrite Hm. split.
    + intros [a [Ha Es]]. apply filter_In in Ha as [Ha Ec]. apply String.eqb_eq in Ec.
      exists a. split; [|split]; assumption.
    + intros [a [Ha [Ec Es]]]. exists a. split; [|exact Es].
      apply filter_In. split; [exact Ha|]. apply String.eqb_eq. exact Ec.
  - unfold parsePDB, parse_lines. rewrite water_lines_skipped. reflexivity.
Qed.

(** Claim C9, counterexample: chain A observed at residues 1 and 5 is
    parsed into the sequence "AG" starting at 1, and its only row is shown
    with right flank 2, while the row's last residue (GLY) is residue 5 in
    the structure's numbering. *)
Lemma row_flank_gapped_counterexample :
  let nl := String (Ascii.ascii_of_nat 10) EmptyString in
  let text := ("ATOM      1  CA  ALA A   1" ++ nl ++ "ATOM      2  CA  GLY A   5")%string in
  map resSeq (polymer_atoms (JS.split_nl text)) = [1; 5] /\
  parsePDB text = [{| chainId := "A"; type := Protein; sequence := "AG";
                      residueCount := 2; startResidue := 1 |}] /\
  map (fun l => (lineStartResidue l, lineEndResidue l))
    (formatSequenceWithScores "AG" 1 "A" None None) = [(1, 2)].
Proof. vm_compute. repeat split. Qed.

(** Claim C9, as amended: every row of the sequence renderer is flanked by
    the residue numbers the renderer assigns to its first and last residue,
    and the renderer assigns [startResidue + k] to the [k]-th residue of the
    chain, gaps in the observed numbering notwithstanding; so for a chain of
    [parsePDB] whose observed residue numbers form one contiguous block
    [r0, r0 + n) with [r0 <> 0], the assigned numbers are the observed
    ones. *)
Theorem row_flanks_assigned_numbers :
  (forall sq start cid pd pae l d,
     In l (formatSequenceWithScores sq start cid pd pae) ->
     concat (lineGroups l) <> [] /\
     lineStartResidue l = residueNumber (hd d (concat (lineGroups l))) /\
     lineEndResidue l = residueNumber (last (concat (lineGroups l)) d)) /\
  (forall sq start cid pd pae,
     map residueNumber (rendered_residues (formatSequenceWithScores sq start cid pd pae))
     = map (fun j => start + Z.of_nat j) (seq 0 (String.length sq))) /\
  (forall text c pd pae r0 n,
     In c (parsePDB text) -> type c <> Ion -> r0 <> 0 ->
     (forall r, (exists a, In a (polymer_atoms (JS.split_nl text)) /\
                           lineChainId a = chainId c /\ resSeq a = r)
                <-> r0 <= r < r0 + Z.of_nat n) ->
     map residueNumber (rendered_residues
       (formatSequenceWithScores (sequence c) (startResidue c) (chainId c) pd pae))
     = map (fun j => r0 + Z.of_nat j) (seq 0 n)).
Proof.
  split; [exact render_flanks|]. split; [exact rendered_numbers|].
  intros text c pd pae r0 n Hin Hty H0 Hblock.
  destruct (parsePDB_chain_props text c Hin Hty) as (rs & Hs & Hn & Hm & Hq & _ & Hst & _).
  rewrite rendered_numbers, (parsePDB_sequence_length text c rs Hm Hq).
  assert (Hrs : forall r, In r rs <-> In r (map (fun j => r0 + Z.of_nat j) (seq 0 n)))
    by (intros r; rewrite Hm, Hblock, block_In; reflexivity).
  assert (Hlen : length rs = n).
  { pose proof (NoDup_incl_length Hn (fun r Hr => proj1 (Hrs r) Hr)) as L1.
    pose proof (NoDup_incl_length (block_NoDup r0 n) (fun r Hr => proj2 (Hrs r) Hr)) as L2.
    rewrite length_map, length_seq in L1, L2. lia. }
  rewrite Hlen. destruct rs as [|r t]; [cbn in Hlen; subst n; reflexivity|].
  assert (Hr0 : In r0 (r :: t)) by (apply Hrs, block_In; cbn in Hlen; lia).
  assert (Hr : r0 <= r) by (pose proof (proj1 (block_In r0 r n) (proj1 (Hrs r) (or_introl eq_refl))); lia).
  assert (Hle : r <= r0).
  { destruct Hr0 as [->|Hr0]; [lia|].
    inversion Hs as [|? ? _ Hf]; subst. rewrite Forall_forall in Hf. exact (Hf r0 Hr0). }
  assert (r = r0) as -> by lia.
  rewrite Hst. apply Z.eqb_neq in H0. rewrite H0. reflexivity.
Qed.

Lemma row_flanks_assigned_numbers_witness :
  let nl := String (Ascii.ascii_of_nat 10) EmptyString in
  let text := ("ATOM      1  CA  ALA A   1" ++ nl ++ "ATOM      2  CA  GLY A   2")%string in
  map residueNumber (rendered_residues (formatSequenceWithScores "AG" 1 "A" None None))
  = map (fun j => 1 + Z.of_nat j) (seq 0 2).
Proof.
  intros nl text.
  assert (Hat : polymer_atoms (JS.split_nl text) =
    [{| recordType := "ATOM"; resName := "ALA"; lineChainId := "A"; resSeq := 1 |};
     {| recordType := "ATOM"; resName := "GLY"; lineChainId := "A"; resSeq := 2 |}]%string)
    by (vm_compute; reflexivity).
  apply (proj2 (proj2 row_flanks_assigned_numbers) text
           {| chainId := "A"; type := Protein; sequence := "AG"; residueCount := 2;
              startResidue := 1 |} None None 1 2%nat).
  - vm_compute. left. reflexivity.
  - discriminate.
  - discriminate.
  - intros r. rewrite Hat. cbn [chainId]. split.
    + intros [a [[<-|[<-|[]]] [_ <-]]]; cbn; lia.
    + intros Hr. assert (r = 1 \/ r = 2) as [-> | ->] by lia.
      * eexists. split; [left; reflexivity|split; reflexivity].
      * eexists. split; [right; left; reflexivity|split; reflexivity].
Defined.

(** ** Further properties of the heat map, the viewer and the parser *)

Section HeatmapExtras.
Import PAEHeatmap.

Lemma Qfloor_le_0 (q : Q) : (q <= 0)%Q -> Qfloor q <= 0.
Proof. intros H. change 0 with (Qfloor 0). apply Qfloor_resp_le. exact H. Qed.

Lemma Qfloor_ge_of (q : Q) (z : Z) : (inject_Z z <= q)%Q -> z <= Qfloor q.
Proof. intros H. rewrite <- (Qfloor_Z z). apply Qfloor_resp_le. exact H. Qed.

Lemma colorIndex_closed (v : Q) : colorIndex v = Z.max 0 (Z.min 9 (Qfloor (v / 3))).
Proof.
  unfold colorIndex, Qmin_js, Qmax_js. change (Z.of_nat (length PAE_COLORS)) with 10.
  destruct (Qle_bool v 0) eqn:E1.
  - apply Qle_bool_iff in E1. change (Qle_bool 30 0) with false. cbv iota. change (Qfloor (0 / 30 * inject_Z 10)) with 0.
    assert (Qfloor (v / 3) <= 0) by (apply Qfloor_le_0; unfold Qdiv; change (/ 3)%Q with (1#3)%Q; Lqa.lra).
    lia.
  - assert (Hv : (0 < v)%Q) by (apply Qnot_le_lt; intros H; apply Qle_bool_iff in H; congruence).
    assert (H0 : 0 <= Qfloor (v / 3))
      by (apply Qfloor_ge_of; unfold Qdiv; change (/ 3)%Q with (1#3)%Q; unfold inject_Z; Lqa.lra).
    destruct (Qle_bool 30 v) eqn:E2.
    + apply Qle_bool_iff in E2.
      assert (10 <= Qfloor (v / 3))
        by (apply Qfloor_ge_of; unfold Qdiv; change (/ 3)%Q with (1#3)%Q; unfold inject_Z; Lqa.lra).
      change (Qfloor (30 / 30 * inject_Z 10)) with 10. lia.
    + rewrite (Qfloor_comp (v / 30 * inject_Z 10) (v / 3))
        by (unfold Qdiv; change (/ 3)%Q with (1#3)%Q; change (/ 30)%Q with (1#30)%Q; unfold inject_Z; Lqa.lra).
      lia.
Qed.

Lemma Sorted_lt_snoc (l : list Z) (x : Z) :
  Sorted Z.lt l -> l <> [] -> last l 0 < x -> Sorted Z.lt (l ++ [x]).
Proof.
  induction l as [|a l IH]; intros Hs Hn Hl; [contradiction|].
  destruct l as [|b l].
  - simpl in *. repeat constructor. exact Hl.
  - inversion Hs as [|? ? Hs' Hr]; subst.
    change ((a :: b :: l) ++ [x]) with (a :: ((b :: l) ++ [x])).
    constructor.
    + apply IH; [exact Hs'|discriminate|exact Hl].
    + inversion Hr; subst. simpl. constructor. assumption.
Qed.

Lemma ticks_fold (step max : Z) (a n : nat) (t : list Z) :
  1 <= step -> 1 <= max -> (1 <= a)%nat ->
  hd 0 t = 1 -> t <> [] -> last t 0 = Z.max 1 (Z.min (step * (Z.of_nat a - 1)) max) ->
  Sorted Z.lt t -> Forall (fun v => 1 <= v <= max) t -> (length t <= a)%nat ->
  let t' := fold_left (fun ticks i =>
                let tick := Z.min (step * i) max in
                if negb (tick =? last ticks 0) then ticks ++ [tick] else ticks)
              (map Z.of_nat (seq a n)) t in
  hd 0 t' = 1 /\ t' <> [] /\
  last t' 0 = Z.max 1 (Z.min (step * (Z.of_nat a - 1 + Z.of_nat n)) max) /\
  Sorted Z.lt t' /\ Forall (fun v => 1 <= v <= max) t' /\ (length t' <= a + n)%nat.
Proof.
  revert a t. induction n as [|n IH]; intros a t Hst Hm Ha Hh Hn Hl Hs Hf Hlen t'.
  - subst t'. simpl. rewrite Z.add_0_r. repeat split; auto. lia.
  - subst t'. cbn [seq map fold_left].
    set (tick := Z.min (step * Z.of_nat a) max).
    assert (Ht1 : 1 <= tick) by (subst tick; nia).
    assert (Hlt : last t 0 <= tick) by (rewrite Hl; subst tick; nia).
    replace (Z.of_nat a - 1 + Z.of_nat (S n)) with (Z.of_nat (S a) - 1 + Z.of_nat n) by lia.
    replace (a + S n)%nat with (S a + n)%nat by lia.
    destruct (Z.eqb_spec tick (last t 0)) as [E|E]; cbn [negb].
    + apply IH; auto; try lia.
    + apply IH; auto; try lia.
      * destruct t; [contradiction|exact Hh].
      * destruct t; [contradiction|discriminate].
      * rewrite last_last. subst tick. lia.
      * apply Sorted_lt_snoc; auto. lia.
      * apply Forall_app. split; [exact Hf|]. constructor; [|constructor]. subst tick. lia.
      * rewrite length_app. simpl. lia.
Qed.

(** Extra X2: for a residue count [max >= 1] and [count >= 1], the axis
    ticks start at 1, end at [max], strictly increase, stay in [[1, max]],
    and there are at most [count + 1] of them. *)
Lemma generateTicks_axis (max count : Z) :
  1 <= max -> 1 <= count ->
  let ticks := generateTicks max count in
  hd 0 ticks = 1 /\ last ticks 0 = max /\ Sorted Z.lt ticks /\
  Forall (fun t => 1 <= t <= max) ticks /\ (length ticks <= Z.to_nat count + 1)%nat.
Proof.
  intros Hm Hc ticks. subst ticks. unfold generateTicks.
  set (step := Qceiling (inject_Z max / inject_Z count)).
  assert (Hq : (inject_Z max / inject_Z count <= inject_Z step)%Q) by apply Qle_ceiling.
  assert (Hmax : max <= step * count).
  { rewrite Zle_Qle, inject_Z_mult.
    assert (Hc0 : (0 < inject_Z count)%Q) by (change 0%Q with (inject_Z 0); rewrite <- Zlt_Qlt; lia).
    apply (Qmult_le_compat_r _ _ (inject_Z count)) in Hq; [|apply Qlt_le_weak; exact Hc0].
    rewrite (Qmult_comm (inject_Z max / inject_Z count)), Qmult_div_r in Hq; [exact Hq|].
    intros E. rewrite E in Hc0. exact (Qlt_irrefl 0 Hc0). }
  assert (Hs1 : 1 <= step) by nia.
  destruct (ticks_fold step max 1 (Z.to_nat count) [1] Hs1 Hm (le_n 1) eq_refl ltac:(discriminate)
              ltac:(simpl; lia) ltac:(repeat constructor) ltac:(repeat constructor; lia) ltac:(simpl; lia))
    as (H1 & _ & H2 & H3 & H4 & H5).
  refine (conj H1 (conj _ (conj H3 (conj H4 _)))); [|eapply Nat.le_trans; [exact H5|lia]].
  etransitivity; [exact H2|]. rewrite Z2Nat.id by lia. simpl. nia.
Qed.

Lemma generateTicks_axis_witness :
  generateTicks 120 5 = [1; 24; 48; 72; 96; 120] /\ hd 0 (generateTicks 120 5) = 1 /\
  last (generateTicks 120 5) 0 = 120.
Proof.
  destruct (generateTicks_axis 120 5 ltac:(lia) ltac:(lia)) as (H1 & H2 & _).
  split; [vm_compute; reflexivity|]. split; [exact H1|exact H2].
Defined.

Lemma list_set_length {A} (l : list A) k v : length (JS.list_set l k v) = length l.
Proof. revert k; induction l as [|a l IH]; intros [|k]; simpl; auto. Qed.

Lemma nth_list_set {A} (l : list A) k v m d :
  nth m (JS.list_set l k v) d = if (m =? k)%nat && (k <? length l)%nat then v else nth m l d.
Proof.
  revert k m; induction l as [|a l IH]; intros k m.
  - simpl. rewrite andb_false_r. reflexivity.
  - destruct k as [|k], m as [|m]; simpl; auto.
Qed.

Ltac nth_set := rewrite ?nth_list_set, ?list_set_length.

Lemma writePixel_length pae N data i j : length (writePixel pae N data i j) = length data.
Proof. unfold writePixel. nth_set. reflexivity. Qed.

Lemma writePixel_other pae N data i j m :
  (m < (i * N + j) * 4 \/ (i * N + j) * 4 + 4 <= m)%nat ->
  nth m (writePixel pae N data i j) 0 = nth m data 0.
Proof.
  intros Hm. unfold writePixel. nth_set.
  repeat match goal with |- context [(?a =? ?b)%nat] => destruct (Nat.eqb_spec a b); [lia|] end.
  reflexivity.
Qed.

Lemma writePixel_own pae N data i j :
  ((i * N + j) * 4 + 4 <= length data)%nat ->
  let k := ((i * N + j) * 4)%nat in
  let color := getColor (paeValue pae i j) in
  nth k (writePixel pae N data i j) 0 = clamped (colorR color) /\
  nth (k + 1) (writePixel pae N data i j) 0 = clamped (colorG color) /\
  nth (k + 2) (writePixel pae N data i j) 0 = clamped (colorB color) /\
  nth (k + 3) (writePixel pae N data i j) 0 = 255.
Proof.
  intros Hl k color. unfold writePixel. fold k. fold color. nth_set.
  repeat split;
  repeat match goal with |- context [(?a =? ?b)%nat] => destruct (Nat.eqb_spec a b); try lia end;
  repeat match goal with |- context [(?a <? ?b)%nat] => destruct (Nat.ltb_spec a b); try lia end;
  reflexivity.
Qed.

Lemma fold_left_flat_map {A B C} (f : A -> C -> A) (g : B -> list C) (l : list B) (a : A) :
  fold_left f (flat_map g l) a = fold_left (fun a x => fold_left f (g x) a) l a.
Proof.
  revert a; induction l as [|b l IH]; intros a; simpl; [reflexivity|].
  rewrite fold_left_app. apply IH.
Qed.

Lemma fold_left_map' {A B C} (f : A -> C -> A) (g : B -> C) (l : list B) (a : A) :
  fold_left f (map g l) a = fold_left (fun a x => f a (g x)) l a.
Proof. revert a; induction l; simpl; auto. Qed.

Lemma nested_fold {A} (F : A -> nat -> nat -> A) (is js : list nat) (a : A) :
  fold_left (fun a i => fold_left (fun a j => F a i j) js a) is a
  = fold_left (fun a p => F a (fst p) (snd p)) (flat_map (fun i => map (pair i) js) is) a.
Proof.
  rewrite fold_left_flat_map. revert a; induction is as [|i is IH]; intros a; [reflexivity|].
  simpl. rewrite IH, fold_left_map'. reflexivity.
Qed.

(** The pixels of an [N] by [N] image, row by row. *)
Lemma imageBytes_pixels pae :
  let N := length pae in
  imageBytes pae =
  fold_left (fun data p => writePixel pae N data (fst p) (snd p))
    (flat_map (fun i => map (pair i) (seq 0 N)) (seq 0 N)) (repeat 0 (N * N * 4)).
Proof. intros N. unfold imageBytes. fold N. apply nested_fold. Qed.

Lemma pixel_offsets (N M : nat) :
  map (fun p => (fst p * N + snd p)%nat) (flat_map (fun i => map (pair i) (seq 0 N)) (seq 0 M))
  = seq 0 (M * N).
Proof.
  induction M as [|M IH]; [reflexivity|].
  rewrite seq_S, flat_map_app, map_app, IH. simpl flat_map. rewrite app_nil_r, map_map.
  replace (S M * N)%nat with (M * N + N)%nat by lia. rewrite seq_app. f_equal.
  simpl. pose proof (map_seq_offset (fun i => i) (M * N) 0 N) as E.
  rewrite Nat.add_0_r, map_id in E. rewrite <- E. reflexivity.
Qed.

Lemma pixels_fold_length pae N ps data :
  length (fold_left (fun data p => writePixel pae N data (fst p) (snd p)) ps data) = length data.
Proof.
  revert data; induction ps as [|p ps IH]; intros data; simpl; [reflexivity|].
  rewrite IH. apply writePixel_length.
Qed.

Lemma pixels_fold_untouched pae N ps data m :
  (forall q, In q (map (fun p => (fst p * N + snd p)%nat) ps) -> m < q * 4 \/ q * 4 + 4 <= m)%nat ->
  nth m (fold_left (fun data p => writePixel pae N data (fst p) (snd p)) ps data) 0 = nth m data 0.
Proof.
  revert data; induction ps as [|p ps IH]; intros data Hm; simpl; [reflexivity|].
  rewrite IH by (intros q Hq; apply Hm; right; exact Hq).
  apply writePixel_other. apply Hm. left. reflexivity.
Qed.

Lemma writePixel_block_indep pae N d1 d2 i j c :
  length d1 = length d2 -> ((i * N + j) * 4 + 4 <= length d1)%nat -> (c < 4)%nat ->
  nth ((i * N + j) * 4 + c) (writePixel pae N d1 i j) 0
  = nth ((i * N + j) * 4 + c) (writePixel pae N d2 i j) 0.
Proof.
  intros Hl H Hc.
  destruct (writePixel_own pae N d1 i j H) as (A1 & B1 & C1 & D1).
  destruct (writePixel_own pae N d2 i j ltac:(lia)) as (A2 & B2 & C2 & D2).
  destruct c as [|[|[|[|c]]]]; [rewrite Nat.add_0_r, A1, A2 | rewrite B1, B2 | rewrite C1, C2 | rewrite D1, D2 | lia];
    reflexivity.
Qed.

Lemma pixels_fold_own pae N ps data i j c :
  NoDup (map (fun p => (fst p * N + snd p)%nat) ps) ->
  In (i, j) ps -> ((i * N + j) * 4 + 4 <= length data)%nat -> (c < 4)%nat ->
  nth ((i * N + j) * 4 + c) (fold_left (fun data p => writePixel pae N data (fst p) (snd p)) ps data) 0
  = nth ((i * N + j) * 4 + c) (writePixel pae N data i j) 0.
Proof.
  revert data; induction ps as [|p ps IH]; intros data Hnd Hin Hl Hc; [contradiction|].
  simpl in Hnd. inversion Hnd as [|? ? Hnot Hnd']; subst. simpl fold_left.
  destruct Hin as [Ep|Hin].
  - subst p. rewrite pixels_fold_untouched; [reflexivity|].
    intros q Hq. simpl in Hnot.
    destruct (Nat.eq_dec q (i * N + j)) as [->|Hne]; [contradiction|]. lia.
  - rewrite IH; auto; [|rewrite writePixel_length; exact Hl].
    apply writePixel_block_indep; auto; rewrite writePixel_length; auto.
Qed.

(** Extra X3: the heat-map image of an [N] by [N] PAE matrix has
    [N * N * 4] bytes; the pixel of row [i], column [j] holds the RGB of
    [getColor] of the PAE value there (0 when missing) and alpha 255; the
    colour table decodes to the listed byte triples. *)
Theorem imageBytes_pixel (pae : list (list Q)) (i j : nat) :
  let N := length pae in
  (i < N)%nat -> (j < N)%nat ->
  let img := imageBytes pae in
  let k := ((i * N + j) * 4)%nat in
  let color := getColor (paeValue pae i j) in
  length img = (N * N * 4)%nat /\
  nth k img 0 = clamped (colorR color) /\ nth (k + 1) img 0 = clamped (colorG color) /\
  nth (k + 2) img 0 = clamped (colorB color) /\ nth (k + 3) img 0 = 255 /\
  map (fun c => (clamped (colorR c), clamped (colorG c), clamped (colorB c))) PAE_COLORS
  = [(10, 94, 26); (26, 122, 46); (45, 150, 66); (74, 176, 88); (107, 201, 110);
     (142, 222, 132); (179, 240, 156); (217, 247, 182); (240, 252, 224); (255, 255, 255)].
Proof.
  intros N Hi Hj img k color. subst img. rewrite imageBytes_pixels. fold N.
  set (ps := flat_map (fun i => map (pair i) (seq 0 N)) (seq 0 N)).
  assert (Hnd : NoDup (map (fun p => (fst p * N + snd p)%nat) ps))
    by (subst ps; rewrite pixel_offsets; apply seq_NoDup).
  assert (Hin : In (i, j) ps)
    by (subst ps; apply in_flat_map; exists i; split; [apply in_seq; lia|apply in_map, in_seq; lia]).
  assert (Hl : ((i * N + j) * 4 + 4 <= length (repeat 0%Z (N * N * 4)))%nat)
    by (rewrite repeat_length; nia).
  destruct (writePixel_own pae N (repeat 0 (N * N * 4)) i j Hl) as (A & B & C & D).
  split; [rewrite pixels_fold_length, repeat_length; reflexivity|].
  subst k. refine (conj _ (conj _ (conj _ (conj _ _)))).
  - rewrite <- (Nat.add_0_r ((i * N + j) * 4)) at 1.
    rewrite pixels_fold_own by (auto; lia). rewrite Nat.add_0_r. exact A.
  - rewrite pixels_fold_own by (auto; lia). exact B.
  - rewrite pixels_fold_own by (auto; lia). exact C.
  - rewrite pixels_fold_own by (auto; lia). exact D.
  - vm_compute. reflexivity.
Qed.

Lemma imageBytes_pixel_witness :
  nth ((1 * 2 + 0) * 4) (imageBytes [[0; 30]; [15; 3]]%Q) 0 = 142 /\
  nth ((0 * 2 + 1) * 4 + 3) (imageBytes [[0; 30]; [15; 3]]%Q) 0 = 255.
Proof.
  destruct (imageBytes_pixel [[0; 30]; [15; 3]]%Q 1 0 ltac:(simpl; lia) ltac:(simpl; lia))
    as (_ & A & _).
  destruct (imageBytes_pixel [[0; 30]; [15; 3]]%Q 0 1 ltac:(simpl; lia) ltac:(simpl; lia))
    as (_ & _ & _ & _ & D & _).
  change (length [[0; 30]; [15; 3]]%Q) with 2%nat in A, D.
  split; [rewrite A; vm_compute; reflexivity|exact D].
Defined.

(** Extra X1: [getColor] bins PAE values by [floor(v / 3)] clamped to
    [[0, 9]], always returns one of the ten table colours, and the bin is
    monotone in the value. *)
Theorem getColor_bins (v w : Q) :
  (v <= w)%Q ->
  colorIndex v = Z.max 0 (Z.min 9 (Qfloor (v / 3))) /\
  In (getColor v) PAE_COLORS /\ colorIndex v <= colorIndex w.
Proof.
  intros Hvw. rewrite !colorIndex_closed. split; [reflexivity|]. split.
  - unfold getColor. apply nth_In. rewrite colorIndex_closed. simpl length. lia.
  - assert (Qfloor (v / 3) <= Qfloor (w / 3)); [|lia].
    apply Qfloor_resp_le. unfold Qdiv. change (/ 3)%Q with (1#3)%Q. Lqa.lra.
Qed.

Lemma getColor_bins_witness :
  (3 <= 29)%Q /\ colorIndex 3 = 1 /\ colorIndex 29 = 9.
Proof.
  split; [vm_compute; discriminate|].
  destruct (getColor_bins 3 29 ltac:(vm_compute; discriminate)) as [E _].
  split; [rewrite E; vm_compute; reflexivity|vm_compute; reflexivity].
Defined.

Lemma Qfloor_lt_iff (q : Q) (z : Z) : Qfloor q < z <-> (q < inject_Z z)%Q.
Proof.
  split; intros H.
  - apply Qlt_le_trans with (inject_Z (Qfloor q + 1)); [apply Qlt_floor|].
    rewrite <- Zle_Qle. lia.
  - rewrite Zlt_Qlt. apply Qle_lt_trans with q; [apply Qfloor_le|exact H].
Qed.

Lemma le_Qceiling_iff (q : Q) (z : Z) : z <= Qceiling q <-> (inject_Z (z - 1) < q)%Q.
Proof.
  split; intros H.
  - apply Qle_lt_trans with (inject_Z (Qceiling q - 1)); [rewrite <- Zle_Qle; lia|apply Qceiling_lt].
  - assert (z - 1 < Qceiling q); [|lia].
    rewrite Zlt_Qlt. apply Qlt_le_trans with q; [exact H|apply Qle_ceiling].
Qed.

Lemma highlight_scored_iff (p : PDBInformation.PAEHighlight) (n : Z) :
  (getHighlightType n (Some p) = HScored \/ getHighlightType n (Some p) = HBoth) <->
  scoredStart p <= n <= scoredEnd p.
Proof.
  simpl.
  destruct (Z.leb_spec (scoredStart p) n), (Z.leb_spec n (scoredEnd p)),
           (Z.leb_spec (PDBInformation.alignedStart p) n), (Z.leb_spec n (PDBInformation.alignedEnd p));
    simpl; intuition (try discriminate; lia).
Qed.

Lemma highlight_aligned_iff (p : PDBInformation.PAEHighlight) (n : Z) :
  (getHighlightType n (Some p) = HAligned \/ getHighlightType n (Some p) = HBoth) <->
  PDBInformation.alignedStart p <= n <= PDBInformation.alignedEnd p.
Proof.
  simpl.
  destruct (Z.leb_spec (scoredStart p) n), (Z.leb_spec n (scoredEnd p)),
           (Z.leb_spec (PDBInformation.alignedStart p) n), (Z.leb_spec n (PDBInformation.alignedEnd p));
    simpl; intuition (try discriminate; lia).
Qed.

(** A residue [r] of [[1, N]] lies in the clamped interval computed for one
    axis iff the scaled drag interval [[a, b]] meets its open cell [(r-1, r)]. *)
Lemma selection_axis_iff (N r : Z) (a b : Q) :
  1 <= r <= N ->
  Z.max 1 (Qfloor a + 1) <= r <= Z.min N (Qceiling b) <->
  (a < inject_Z r /\ inject_Z (r - 1) < b)%Q.
Proof.
  intros Hr. rewrite <- Qfloor_lt_iff, <- le_Qceiling_iff. lia.
Qed.

(** The panel state after a gesture that ends on the canvas: a click clears
    it, a drag sets it to the selection [handleMouseUp] computed. *)
Lemma gesture_selection size N rect down moves up p1 p2 sel0 s :
  getPositionFromEvent size N rect down = Some p1 ->
  getPositionFromEvent size N rect up = Some p2 ->
  ProteinViewerPanel.applyEmitted sel0 (snd (gesture size N rect down moves up)) = Some s ->
  let x1 := canvasX p1 in let y1 := canvasY p1 in
  let x2 := canvasX p2 in let y2 := canvasY p2 in
  s = {| startResidue := Z.max 1 (Qfloor (Qmin_js x1 x2 / size * inject_Z N)%Q + 1);
         endResidue := Z.min N (Qceiling (Qmax_js x1 x2 / size * inject_Z N)%Q);
         alignedStart := Z.max 1 (Qfloor (Qmin_js y1 y2 / size * inject_Z N)%Q + 1);
         alignedEnd := Z.min N (Qceiling (Qmax_js y1 y2 / size * inject_Z N)%Q) |}.
Proof.
  intros H1 H2 Hs x1 y1 x2 y2.
  destruct (gesture_unfold size N rect down moves up p1 H1) as [st [Hsel [Hst Hg]]].
  rewrite Hg in Hs. clear Hg.
  unfold handleMouseUp in Hs. rewrite Hsel, Hst, H2 in Hs. cbn [x y] in Hs.
  destruct (dragDistanceBelow5 _ _ _ _); simpl in Hs; [discriminate|].
  injection Hs as <-. reflexivity.
Qed.

(** Extra X4: after a drag from [p1] to [p2] on the canvas, residue [r] of
    [[1, N]] is highlighted as scored exactly when its column overlaps the
    horizontal extent of the dragged rectangle, and as aligned exactly when
    its row overlaps the vertical extent. *)
Theorem drag_highlights_overlapping_cells size N rect down moves up p1 p2 sel0 s r :
  getPositionFromEvent size N rect down = Some p1 ->
  getPositionFromEvent size N rect up = Some p2 ->
  ProteinViewerPanel.applyEmitted sel0 (snd (gesture size N rect down moves up)) = Some s ->
  1 <= r <= N ->
  let ax := (Qmin_js (canvasX p1) (canvasX p2) / size * inject_Z N)%Q in
  let bx := (Qmax_js (canvasX p1) (canvasX p2) / size * inject_Z N)%Q in
  let ay := (Qmin_js (canvasY p1) (canvasY p2) / size * inject_Z N)%Q in
  let by_ := (Qmax_js (canvasY p1) (canvasY p2) / size * inject_Z N)%Q in
  let hl := getHighlightType r (ProteinViewerPanel.pdbHighlight (Some s)) in
  ((hl = HScored \/ hl = HBoth) <-> (ax < inject_Z r /\ inject_Z (r - 1) < bx)%Q) /\
  ((hl = HAligned \/ hl = HBoth) <-> (ay < inject_Z r /\ inject_Z (r - 1) < by_)%Q).
Proof.
  intros H1 H2 Hs Hr ax bx ay by_ hl.
  pose proof (gesture_selection size N rect down moves up p1 p2 sel0 s H1 H2 Hs) as Es.
  cbv zeta in Es. subst s hl. cbn [ProteinViewerPanel.pdbHighlight].
  rewrite highlight_scored_iff, highlight_aligned_iff.
  exact (conj (selection_axis_iff N r ax bx Hr) (selection_axis_iff N r ay by_ Hr)).
Qed.

Lemma drag_highlights_overlapping_cells_witness :
  let rect := Some {| left := 0; top := 0; width := 240; height := 240 |} in
  let down := {| clientX := 10; clientY := 20 |} in
  let up := {| clientX := 100; clientY := 120 |} in
  let p1 := {| canvasX := 2400 # 240; canvasY := 4800 # 240; residueX := 5; residueY := 10 |} in
  let p2 := {| canvasX := 24000 # 240; canvasY := 28800 # 240; residueX := 50; residueY := 60 |} in
  let s := {| startResidue := 6; endResidue := 50; alignedStart := 11; alignedEnd := 60 |} in
  getPositionFromEvent 240 120 rect down = Some p1 /\
  getPositionFromEvent 240 120 rect up = Some p2 /\
  ProteinViewerPanel.applyEmitted None (snd (gesture 240 120 rect down [] up)) = Some s /\
  1 <= 6 <= 120 /\
  (getHighlightType 6 (ProteinViewerPanel.pdbHighlight (Some s)) = HScored \/
   getHighlightType 6 (ProteinViewerPanel.pdbHighlight (Some s)) = HBoth <->
   (Qmin_js (canvasX p1) (canvasX p2) / 240 * inject_Z 120 < inject_Z 6 /\
    inject_Z (6 - 1) < Qmax_js (canvasX p1) (canvasX p2) / 240 * inject_Z 120)%Q).
Proof.
  intros rect down up p1 p2 s.
  assert (H1 : getPositionFromEvent 240 120 rect down = Some p1) by reflexivity.
  assert (H2 : getPositionFromEvent 240 120 rect up = Some p2) by reflexivity.
  assert (H3 : ProteinViewerPanel.applyEmitted None (snd (gesture 240 120 rect down [] up)) = Some s)
    by (vm_compute; reflexivity).
  assert (Hr : 1 <= 6 <= 120) by lia.
  refine (conj H1 (conj H2 (conj H3 (conj Hr _)))).
  exact (proj1 (drag_highlights_overlapping_cells 240 120 rect down [] up p1 p2 None s 6 H1 H2 H3 Hr)).
Defined.

Lemma mouseMoves_end size N rect st ms e0 :
  isSelecting st = true -> selectionEnd st = Some e0 ->
  exists e, selectionEnd (fst (mouseMoves size N rect st ms)) = Some e /\
    (e = e0 \/ exists m p, In m ms /\ getPositionFromEvent size N rect m = Some p /\
                           e = {| x := canvasX p; y := canvasY p |}).
Proof.
  revert st e0; induction ms as [|m ms IH]; intros st e0 Hs He.
  - exists e0. simpl. auto.
  - cbn [mouseMoves].
    pose proof (handleMouseMove_selecting size N rect st m Hs) as [Hs1 _].
    destruct (handleMouseMove size N rect st m) as [st1 o1] eqn:Em. simpl in Hs1.
    assert (He1 : selectionEnd st1 = Some e0 \/
                  exists p, getPositionFromEvent size N rect m = Some p /\
                            selectionEnd st1 = Some {| x := canvasX p; y := canvasY p |}).
    { unfold handleMouseMove in Em. rewrite Hs in Em.
      destruct (getPositionFromEvent size N rect m) as [p|]; injection Em as <- _.
      - right. exists p. auto.
      - left. exact He. }
    destruct He1 as [He1|[p [Hp He1]]].
    + destruct (IH st1 e0 Hs1 He1) as [e [E1 E2]].
      destruct (mouseMoves size N rect st1 ms) as [st2 o2]. simpl in *.
      exists e. split; [exact E1|].
      destruct E2 as [E2|[m' [p' [Hin [Hp' E2]]]]]; [left; exact E2|].
      right. exists m', p'. auto.
    + destruct (IH st1 _ Hs1 He1) as [e [E1 E2]].
      destruct (mouseMoves size N rect st1 ms) as [st2 o2]. simpl in *.
      exists e. split; [exact E1|]. right.
      destruct E2 as [E2|[m' [p' [Hin [Hp' E2]]]]].
      * exists m, p. auto.
      * exists m', p'. auto.
Qed.

Lemma gesture_not_click_state size N rect down moves up p1 sel0 s :
  getPositionFromEvent size N rect down = Some p1 ->
  ProteinViewerPanel.applyEmitted sel0 (snd (gesture size N rect down moves up)) = Some s ->
  fst (gesture size N rect down moves up) =
  {| isSelecting := false; selectionStart := Some {| x := canvasX p1; y := canvasY p1 |};
     selectionEnd := selectionEnd (fst (mouseMoves size N rect
                  {| isSelecting := true; selectionStart := Some {| x := canvasX p1; y := canvasY p1 |};
                   selectionEnd := Some {| x := canvasX p1; y := canvasY p1 |} |} moves)) |}.
Proof.
  intros H1 Hs. unfold gesture, handleMouseDown in *. rewrite H1 in *.
  set (st1 := {| isSelecting := true; selectionStart := Some {| x := canvasX p1; y := canvasY p1 |};
                   selectionEnd := Some {| x := canvasX p1; y := canvasY p1 |} |}) in *.
  pose proof (mouseMoves_selecting size N rect st1 moves eq_refl) as [Hs2 [Hst2 Ho2]].
  destruct (mouseMoves size N rect st1 moves) as [st2 o2]. simpl in Hs2, Hst2, Ho2 |- *.
  subst o2. unfold handleMouseUp in *. rewrite Hs2, Hst2 in *. cbn [selectionStart] in *.
  destruct (getPositionFromEvent size N rect up) as [p2|]; [|reflexivity].
  destruct (dragDistanceBelow5 _ _ _ _); [|reflexivity].
  simpl in Hs. discriminate.
Qed.

(** Extra X5: after a drag that emits a selection, the heat map is no longer
    selecting, keeps the press point and the last move point (or the press
    point) as its rectangle, draws that rectangle rather than
    [selectedRange], shows the "Clear Selection" button, and its final
    state does not depend on where the pointer was released. *)
Theorem drag_keeps_own_rectangle size N rect down moves up p1 sel0 s :
  getPositionFromEvent size N rect down = Some p1 ->
  ProteinViewerPanel.applyEmitted sel0 (snd (gesture size N rect down moves up)) = Some s ->
  let st := fst (gesture size N rect down moves up) in
  let press := {| x := canvasX p1; y := canvasY p1 |} in
  isSelecting st = false /\ selectionStart st = Some press /\
  (exists e, selectionEnd st = Some e /\
     (e = press \/ exists m p, In m moves /\ getPositionFromEvent size N rect m = Some p /\
                               e = {| x := canvasX p; y := canvasY p |})) /\
  displayBounds size N st (Some s) = getSelectionBounds st /\
  getSelectionBounds st <> None /\
  showClearButton (Some s) st = true /\
  (forall up' sel1 s', ProteinViewerPanel.applyEmitted sel1 (snd (gesture size N rect down moves up')) = Some s' ->
     fst (gesture size N rect down moves up') = st).
Proof.
  intros H1 Hs st press.
  assert (Est : st = _) by exact (gesture_not_click_state size N rect down moves up p1 sel0 s H1 Hs).
  destruct (mouseMoves_end size N rect
              {| isSelecting := true; selectionStart := Some press; selectionEnd := Some press |}
              moves press eq_refl eq_refl) as [e [Ee He]].
  fold press in Est. rewrite Ee in Est.
  refine (conj _ (conj _ (conj _ (conj _ (conj _ (conj _ _)))))); try (rewrite Est; reflexivity).
  - exists e. rewrite Est. split; [reflexivity|exact He].
  - rewrite Est. discriminate.
  - intros up' sel1 s' Hs'. rewrite Est.
    rewrite (gesture_not_click_state size N rect down moves up' p1 sel1 s' H1 Hs'). fold press. rewrite Ee.
    reflexivity.
Qed.

Lemma drag_keeps_own_rectangle_witness :
  let rect := Some {| left := 0; top := 0; width := 240; height := 240 |} in
  let down := {| clientX := 10; clientY := 20 |} in
  let up := {| clientX := 100; clientY := 120 |} in
  let p1 := {| canvasX := 2400 # 240; canvasY := 4800 # 240; residueX := 5; residueY := 10 |} in
  let s := {| startResidue := 6; endResidue := 50; alignedStart := 11; alignedEnd := 60 |} in
  getPositionFromEvent 240 120 rect down = Some p1 /\
  ProteinViewerPanel.applyEmitted None
    (snd (gesture 240 120 rect down [{| clientX := 50; clientY := 60 |}] up)) = Some s /\
  isSelecting (fst (gesture 240 120 rect down [{| clientX := 50; clientY := 60 |}] up)) = false.
Proof.
  intros rect down up p1 s.
  assert (H1 : getPositionFromEvent 240 120 rect down = Some p1) by reflexivity.
  assert (H2 : ProteinViewerPanel.applyEmitted None
                 (snd (gesture 240 120 rect down [{| clientX := 50; clientY := 60 |}] up)) = Some s)
    by (vm_compute; reflexivity).
  refine (conj H1 (conj H2 _)).
  exact (proj1 (drag_keeps_own_rectangle 240 120 rect down _ up p1 None s H1 H2)).
Defined.

Lemma dispatch_ranges size N rect st ev :
  (forall pt, selectionStart st = Some pt ->
     0 <= Qfloor (x pt / size * inject_Z N)%Q < N /\ 0 <= Qfloor (y pt / size * inject_Z N)%Q < N) ->
  (forall pt, selectionStart (fst (dispatch size N rect st ev)) = Some pt ->
     0 <= Qfloor (x pt / size * inject_Z N)%Q < N /\ 0 <= Qfloor (y pt / size * inject_Z N)%Q < N) /\
  (forall o, In o (snd (dispatch size N rect st ev)) ->
     match o with
     | ResidueClick a b => 1 <= a <= N /\ 1 <= b <= N
     | ResidueHover (Some a) (Some b) => 1 <= a <= N /\ 1 <= b <= N
     | ResidueHover None None => True
     | ResidueHover _ _ => False
     | SelectionChange (Some s) =>
         1 <= startResidue s <= N /\ 0 <= endResidue s <= N /\
         1 <= alignedStart s <= N /\ 0 <= alignedEnd s <= N
     | SelectionChange None => True
     end).
Proof.
  intros Hinv. destruct ev as [e|e|e| |]; cbn [dispatch].
  - unfold handleMouseDown. destruct (getPositionFromEvent size N rect e) as [p|] eqn:Hp;
      [|split; [exact Hinv|intros o []]].
    destruct (getPosition_spec _ _ _ _ _ Hp) as (_ & Ex & Bx & Ey & By).
    split; [|intros o []]. cbn [fst selectionStart]. intros pt Hpt. injection Hpt as <-. cbn [x y].
    rewrite <- Ex, <- Ey. auto.
  - unfold handleMouseMove. destruct (getPositionFromEvent size N rect e) as [p|] eqn:Hp;
      [|split; [exact Hinv|intros o []]].
    destruct (getPosition_spec _ _ _ _ _ Hp) as (_ & Ex & Bx & Ey & By).
    destruct (isSelecting st); simpl; (split; [exact Hinv|]).
    + intros o [].
    + intros o [<-|[]]. lia.
  - unfold handleMouseUp.
    destruct (isSelecting st) eqn:Hs; [|split; [exact Hinv|intros o []]].
    destruct (selectionStart st) as [start|] eqn:Hst;
      [|split; [intros pt Hpt; cbn [fst] in Hpt; rewrite Hpt in Hst; discriminate|intros o []]].
    destruct (Hinv start eq_refl) as [Sx Sy].
    destruct (getPositionFromEvent size N rect e) as [p|] eqn:Hp;
      [|split; [cbn [fst selectionStart]; intros pt Hpt; apply Hinv; exact Hpt|intros o []]].
    destruct (getPosition_spec _ _ _ _ _ Hp) as (_ & Ex & Bx & Ey & By).
    destruct (dragDistanceBelow5 (x start) (y start) (canvasX p) (canvasY p)).
    + split; [simpl; discriminate|]. intros o [<-|[<-|[]]]; [exact I|lia].
    + split; [cbn [fst selectionStart]; intros pt Hpt; apply Hinv; exact Hpt|].
      rewrite Ex in Bx. rewrite Ey in By.
      destruct (axis_bounds size N (x start) (canvasX p) Sx Bx) as [Ax1 Ax2].
      destruct (axis_bounds size N (y start) (canvasY p) Sy By) as [Ay1 Ay2].
      intros o [<-|[]]. cbn [startResidue endResidue alignedStart alignedEnd]. lia.
  - unfold handleMouseLeave. destruct (isSelecting st); simpl.
    + split; [discriminate|]. intros o [<-|[]]. exact I.
    + split; [exact Hinv|]. intros o [<-|[]]. exact I.
  - simpl. split; [discriminate|]. intros o [<-|[]]. exact I.
Qed.

Lemma dispatch_all_ranges size N rect st evs :
  (forall pt, selectionStart st = Some pt ->
     0 <= Qfloor (x pt / size * inject_Z N)%Q < N /\ 0 <= Qfloor (y pt / size * inject_Z N)%Q < N) ->
  forall o, In o (snd (dispatch_all size N rect st evs)) ->
     match o with
     | ResidueClick a b => 1 <= a <= N /\ 1 <= b <= N
     | ResidueHover (Some a) (Some b) => 1 <= a <= N /\ 1 <= b <= N
     | ResidueHover None None => True
     | ResidueHover _ _ => False
     | SelectionChange (Some s) =>
         1 <= startResidue s <= N /\ 0 <= endResidue s <= N /\
         1 <= alignedStart s <= N /\ 0 <= alignedEnd s <= N
     | SelectionChange None => True
     end.
Proof.
  revert st; induction evs as [|ev evs IH]; intros st Hinv o Ho; [destruct Ho|].
  cbn [dispatch_all] in Ho.
  destruct (dispatch_ranges size N rect st ev Hinv) as [Hinv1 Hout1].
  destruct (dispatch size N rect st ev) as [st1 o1]. simpl in Hinv1, Hout1.
  specialize (IH st1 Hinv1).
  destruct (dispatch_all size N rect st1 evs) as [st2 o2]. simpl in IH, Ho.
  apply in_app_or in Ho as [Ho|Ho]; [apply Hout1|apply IH]; exact Ho.
Qed.

(** Extra X6: Every callback the heat map makes, over any sequence of pointer and
    button events from the initial state, carries residue numbers of
    [[1, N]]: hover and click coordinates, and the lower bounds of an
    emitted selection; the upper bounds of a selection lie in [[0, N]];
    a hover is either two numbers or two nulls. *)
Theorem callbacks_in_range size N rect evs o :
  In o (snd (dispatch_all size N rect initialState evs)) ->
  match o with
  | ResidueClick a b => 1 <= a <= N /\ 1 <= b <= N
  | ResidueHover (Some a) (Some b) => 1 <= a <= N /\ 1 <= b <= N
  | ResidueHover None None => True
  | ResidueHover _ _ => False
  | SelectionChange (Some s) =>
      1 <= startResidue s <= N /\ 0 <= endResidue s <= N /\
      1 <= alignedStart s <= N /\ 0 <= alignedEnd s <= N
  | SelectionChange None => True
  end.
Proof. apply dispatch_all_ranges. discriminate. Qed.

Lemma callbacks_in_range_witness :
  let rect := Some {| left := 0; top := 0; width := 240; height := 240 |} in
  let evs := [Move {| clientX := 10; clientY := 20 |}; Down {| clientX := 10; clientY := 20 |};
              Up {| clientX := 100; clientY := 120 |}] in
  In (ResidueHover (Some 6) (Some 11)) (snd (dispatch_all 240 120 rect initialState evs)) /\
  1 <= 6 <= 120 /\ 1 <= 11 <= 120.
Proof.
  intros rect evs.
  assert (H : In (ResidueHover (Some 6) (Some 11)) (snd (dispatch_all 240 120 rect initialState evs)))
    by (vm_compute; left; reflexivity).
  exact (conj H (callbacks_in_range 240 120 rect evs _ H)).
Defined.

Lemma applyEmitted_app sel l1 l2 :
  ProteinViewerPanel.applyEmitted sel (l1 ++ l2) =
  ProteinViewerPanel.applyEmitted (ProteinViewerPanel.applyEmitted sel l1) l2.
Proof. unfold ProteinViewerPanel.applyEmitted. apply fold_left_app. Qed.

Lemma applyEmitted_no_some sel l :
  (forall o, In o l -> o = SelectionChange None \/ exists a b, o = ResidueHover a b) ->
  ProteinViewerPanel.applyEmitted sel l = sel \/ ProteinViewerPanel.applyEmitted sel l = None.
Proof.
  revert sel; induction l as [|o l IH]; intros sel Hl; [left; reflexivity|].
  change (o :: l) with ([o] ++ l). rewrite applyEmitted_app.
  destruct (Hl o (or_introl eq_refl)) as [->|[a [b ->]]]; simpl.
  - right. destruct (IH None (fun o' H => Hl o' (or_intror H))) as [E|E]; exact E.
  - apply IH. intros o' H. apply Hl. right. exact H.
Qed.

Lemma dispatch_no_press size N rect st ev :
  isSelecting st = false -> (forall e, ev <> Down e) ->
  isSelecting (fst (dispatch size N rect st ev)) = false /\
  (forall o, In o (snd (dispatch size N rect st ev)) ->
     o = SelectionChange None \/ exists a b, o = ResidueHover a b).
Proof.
  intros Hs Hev. destruct ev as [e|e|e| |]; cbn [dispatch].
  - exfalso. exact (Hev e eq_refl).
  - unfold handleMouseMove. rewrite Hs.
    destruct (getPositionFromEvent size N rect e); simpl; (split; [exact Hs|]).
    + intros o [<-|[]]. right. eauto.
    + intros o [].
  - unfold handleMouseUp. rewrite Hs. split; [exact Hs|intros o []].
  - unfold handleMouseLeave. rewrite Hs. split; [exact Hs|]. intros o [<-|[]]. right. eauto.
  - simpl. split; [exact Hs|]. intros o [<-|[]]. left. reflexivity.
Qed.

(** Extra X7: Without a pointer-down, the heat map never starts a gesture: from a
    state that is not selecting, any sequence of moves, pointer-ups,
    leaves and "Clear Selection" clicks leaves it not selecting, emits
    only hovers and [onSelectionChange(null)], never a click nor a
    selection, so the panel's selection is kept or cleared. *)
Theorem no_press_no_selection size N rect st evs sel0 :
  isSelecting st = false ->
  Forall (fun ev => forall e, ev <> Down e) evs ->
  isSelecting (fst (dispatch_all size N rect st evs)) = false /\
  (forall o, In o (snd (dispatch_all size N rect st evs)) ->
     o = SelectionChange None \/ exists a b, o = ResidueHover a b) /\
  (ProteinViewerPanel.applyEmitted sel0 (snd (dispatch_all size N rect st evs)) = sel0 \/
   ProteinViewerPanel.applyEmitted sel0 (snd (dispatch_all size N rect st evs)) = None).
Proof.
  intros Hs Hevs.
  assert (H : isSelecting (fst (dispatch_all size N rect st evs)) = false /\
              (forall o, In o (snd (dispatch_all size N rect st evs)) ->
                 o = SelectionChange None \/ exists a b, o = ResidueHover a b)).
  { revert st Hs; induction Hevs as [|ev evs Hev Hevs IH]; intros st Hs.
    - split; [exact Hs|intros o []].
    - cbn [dispatch_all].
      destruct (dispatch_no_press size N rect st ev Hs Hev) as [Hs1 Ho1].
      destruct (dispatch size N rect st ev) as [st1 o1]. simpl in Hs1, Ho1.
      destruct (IH st1 Hs1) as [Hs2 Ho2].
      destruct (dispatch_all size N rect st1 evs) as [st2 o2]. simpl in Hs2, Ho2 |- *.
      split; [exact Hs2|]. intros o Ho. apply in_app_or in Ho as [Ho|Ho]; auto. }
  destruct H as [H1 H2]. split; [exact H1|]. split; [exact H2|].
  apply applyEmitted_no_some. exact H2.
Qed.

Lemma no_press_no_selection_witness :
  let rect := Some {| left := 0; top := 0; width := 240; height := 240 |} in
  let evs := [Move {| clientX := 10; clientY := 20 |}; Up {| clientX := 100; clientY := 120 |};
              ClearButton; Leave] in
  isSelecting initialState = false /\
  Forall (fun ev => forall e, ev <> Down e) evs /\
  isSelecting (fst (dispatch_all 240 120 rect initialState evs)) = false.
Proof.
  intros rect evs.
  assert (H1 : isSelecting initialState = false) by reflexivity.
  assert (H2 : Forall (fun ev => forall e, ev <> Down e) evs)
    by (repeat constructor; intros e; discriminate).
  exact (conj H1 (conj H2 (proj1 (no_press_no_selection 240 120 rect initialState evs None H1 H2)))).
Defined.

Lemma dispatch_all_app size N rect st evs1 evs2 :
  dispatch_all size N rect st (evs1 ++ evs2) =
  let '(st1, o1) := dispatch_all size N rect st evs1 in
  let '(st2, o2) := dispatch_all size N rect st1 evs2 in (st2, o1 ++ o2).
Proof.
  revert st; induction evs1 as [|ev evs1 IH]; intros st; simpl.
  - destruct (dispatch_all size N rect st evs2); reflexivity.
  - destruct (dispatch size N rect st ev) as [st1 o1]. rewrite IH.
    destruct (dispatch_all size N rect st1 evs1) as [st2 o2].
    destruct (dispatch_all size N rect st2 evs2) as [st3 o3]. rewrite app_assoc. reflexivity.
Qed.

Lemma dispatch_moves_selecting size N rect st ms :
  isSelecting st = true ->
  isSelecting (fst (dispatch_all size N rect st (map Move ms))) = true /\
  snd (dispatch_all size N rect st (map Move ms)) = [].
Proof.
  revert st; induction ms as [|m ms IH]; intros st Hs; [split; [exact Hs|reflexivity]|].
  cbn [map dispatch_all dispatch].
  pose proof (handleMouseMove_selecting size N rect st m Hs) as [Hs1 [_ Ho1]].
  destruct (handleMouseMove size N rect st m) as [st1 o1]. simpl in Hs1, Ho1.
  destruct (IH st1 Hs1) as [Hs2 Ho2].
  destruct (dispatch_all size N rect st1 (map Move ms)) as [st2 o2]. simpl in *.
  subst. split; auto.
Qed.

(** Extra X8: A gesture abandoned by leaving the canvas is dropped: after a
    pointer-down inside the canvas, pointer-moves and a leave, the heat map
    is back in its initial state, only [onResidueHover(null, null)] was
    called, the panel keeps its previous selection, and the rectangle drawn
    is the one of that selection ([selectedRange]). *)
Theorem leave_cancels_gesture size N rect down p1 moves sel0 :
  getPositionFromEvent size N rect down = Some p1 ->
  let '(st, out) := dispatch_all size N rect initialState (Down down :: map Move moves ++ [Leave]) in
  st = initialState /\ out = [ResidueHover None None] /\
  ProteinViewerPanel.applyEmitted sel0 out = sel0 /\
  displayBounds size N st (ProteinViewerPanel.applyEmitted sel0 out) =
  option_map (rangeBounds size N) sel0.
Proof.
  intros H1. cbn [dispatch_all dispatch]. unfold handleMouseDown at 1. rewrite H1.
  set (st1 := {| isSelecting := true; selectionStart := Some {| x := canvasX p1; y := canvasY p1 |};
                 selectionEnd := Some {| x := canvasX p1; y := canvasY p1 |} |}).
  rewrite dispatch_all_app.
  pose proof (dispatch_moves_selecting size N rect st1 moves eq_refl) as [Hs2 Ho2].
  destruct (dispatch_all size N rect st1 (map Move moves)) as [st2 o2]. simpl in Hs2, Ho2. subst o2.
  cbn [dispatch_all dispatch]. unfold handleMouseLeave. rewrite Hs2.
  repeat split.
Qed.

Lemma leave_cancels_gesture_witness :
  let rect := Some {| left := 0; top := 0; width := 240; height := 240 |} in
  let sel0 := Some {| startResidue := 6; endResidue := 50; alignedStart := 11; alignedEnd := 60 |} in
  getPositionFromEvent 240 120 rect {| clientX := 10; clientY := 20 |}
  = Some {| canvasX := 2400 # 240; canvasY := 4800 # 240; residueX := 5; residueY := 10 |} /\
  ProteinViewerPanel.applyEmitted sel0
    (snd (dispatch_all 240 120 rect initialState
            (Down {| clientX := 10; clientY := 20 |} :: map Move [{| clientX := 50; clientY := 60 |}] ++ [Leave])))
  = sel0.
Proof.
  intros rect sel0.
  assert (H1 : getPositionFromEvent 240 120 rect {| clientX := 10; clientY := 20 |}
               = Some {| canvasX := 2400 # 240; canvasY := 4800 # 240; residueX := 5; residueY := 10 |})
    by reflexivity.
  split; [exact H1|].
  pose proof (leave_cancels_gesture 240 120 rect _ _ [{| clientX := 50; clientY := 60 |}] sel0 H1) as H.
  destruct (dispatch_all 240 120 rect initialState _) as [st out]. simpl.
  destruct H as (_ & _ & H & _). exact H.
Defined.

(** Extra X9: The "Clear Selection" button clears every view of the selection: the
    panel's selection becomes null, the heat map draws no rectangle and
    hides the button, and no residue of the sequence is highlighted; the
    button does not end a gesture in progress ([isSelecting] is kept). *)
Theorem clear_button_clears_views size N st sel0 r :
  let st' := fst (handleClearSelection st) in
  let sel := ProteinViewerPanel.applyEmitted sel0 (snd (handleClearSelection st)) in
  sel = None /\ displayBounds size N st' sel = None /\ showClearButton sel st' = false /\
  getHighlightType r (ProteinViewerPanel.pdbHighlight sel) = HNone /\
  isSelecting st' = isSelecting st.
Proof. repeat split. Qed.

End HeatmapExtras.

Section MolExtras.
Import Molecule3D.




(** Extra X11: [cleanupViewer] leaves both refs null, so a second call makes no call:
    the blob URL is revoked and the viewer disposed at most once, and the
    URL is revoked before the viewer is disposed. *)
Theorem cleanupViewer_idempotent (refs : Refs) :
  fst (cleanupViewer refs) = {| blobUrl := None; viewerInstance := None |} /\
  cleanupViewer (fst (cleanupViewer refs)) = ({| blobUrl := None; viewerInstance := None |}, []) /\
  snd (cleanupViewer refs) =
  match blobUrl refs with Some url => [RevokeObjectURL url] | None => [] end ++
  match viewerInstance refs with Some true => [Dispose] | _ => [] end.
Proof.
  destruct refs as [[u|] [[|]|]]; repeat split.
Qed.

Lemma Qpower_S (q : Q) (n : nat) : (q ^ Z.of_nat (S n) == q * q ^ Z.of_nat n)%Q.
Proof.
  rewrite Nat2Z.inj_succ, <- Z.add_1_l, Qpower_plus' by lia. simpl. ring.
Qed.

(** Extra X12: Zooming in then out does not restore the camera: each round trip
    multiplies the radius by [0.8 * 1.2 = 24/25], in either order, and
    [n] round trips by [(24/25)^n]; the other camera fields are kept. *)
Theorem zoom_round_trip (c : CameraSnapshot) (n : nat) :
  (forall c', handleZoomOut (handleZoomIn (Some c')) =
              Some {| radius := (radius c' * (8 # 10) * (12 # 10))%Q; otherFields := otherFields c' |} /\
              handleZoomIn (handleZoomOut (Some c')) =
              Some {| radius := (radius c' * (12 # 10) * (8 # 10))%Q; otherFields := otherFields c' |}) /\
  exists c', Nat.iter n (fun cam => handleZoomOut (handleZoomIn cam)) (Some c) = Some c' /\
             (radius c' == radius c * (24 # 25) ^ Z.of_nat n)%Q /\ otherFields c' = otherFields c.
Proof.
  split; [intros c'; split; reflexivity|].
  induction n as [|n IH].
  - exists c. split; [reflexivity|]. split; [simpl; ring|reflexivity].
  - destruct IH as [c' [E [Hr Ho]]].
    rewrite Nat.iter_succ, E.
    eexists. split; [reflexivity|]. cbn [radius otherFields]. split; [|exact Ho].
    rewrite Hr, Qpower_S. ring.
Qed.

End MolExtras.

Lemma parsePDB_perm (text : string) :
  let lines := JS.split_nl text in
  Permutation (parsePDB text)
    (map chain_record (chains_model (polymer_atoms lines)) ++ map ion_record (ions_model (ion_atoms lines))).
Proof.
  intros lines. unfold parsePDB, parse_lines. fold lines.
  destruct (parse_lines_state lines) as [Hc Hi]. rewrite <- Hc, <- Hi.
  apply sort_by_perm.
Qed.

Lemma chain_ids_nil (atoms : list AtomLine) : chain_ids atoms = [] <-> atoms = [].
Proof.
  split; [|intros ->; reflexivity].
  destruct atoms as [|a atoms]; [reflexivity|]. intros H.
  pose proof (chain_ids_complete (a :: atoms) a (or_introl eq_refl)) as Hin.
  rewrite H in Hin. destruct Hin.
Qed.

(** Extra X13: [parsePDB] returns no row, and the component shows "No structure
    information available", exactly when the text has no polymer atom
    line (an [ATOM] line with a numeric residue number) and no ion
    heteroatom line: a structure made of ligands and water only shows
    nothing. *)
Theorem parsePDB_empty_iff (text : string) :
  let lines := JS.split_nl text in
  parsePDB text = [] <-> polymer_atoms lines = [] /\ ion_atoms lines = [].
Proof.
  intros lines. pose proof (Permutation_length (parsePDB_perm text)) as Hl.
  cbv zeta in Hl. fold lines in Hl.
  rewrite length_app, !length_map in Hl. unfold chains_model, ions_model in Hl.
  rewrite !length_map in Hl.
  rewrite <- (chain_ids_nil (polymer_atoms lines)), <- (chain_ids_nil (ion_atoms lines)).
  rewrite <- !length_zero_iff_nil. lia.
Qed.

Lemma string_of_list_ascii_length (l : list ascii) : String.length (string_of_list_ascii l) = length l.
Proof. induction l as [|c l IH]; simpl; auto. Qed.

Lemma list_ascii_of_string_length (s : string) : length (list_ascii_of_string s) = String.length s.
Proof. induction s as [|c s IH]; simpl; auto. Qed.

Lemma rev_string_length (s : string) : String.length (JS.rev_string s) = String.length s.
Proof.
  unfold JS.rev_string. rewrite string_of_list_ascii_length, length_rev.
  apply list_ascii_of_string_length.
Qed.

Lemma trim_start_length (s : string) : (String.length (JS.trim_start s) <= String.length s)%nat.
Proof. induction s as [|c s IH]; simpl; [lia|]. destruct (JS.is_ws c); simpl; lia. Qed.

Lemma trim_length (s : string) : (String.length (JS.trim s) <= String.length s)%nat.
Proof.
  unfold JS.trim. rewrite rev_string_length.
  eapply Nat.le_trans; [apply trim_start_length|]. rewrite rev_string_length. apply trim_start_length.
Qed.

Lemma read_atom_chainId_length (line : string) (a : AtomLine) :
  read_atom_line line = Some a -> (String.length (lineChainId a) <= 1)%nat.
Proof.
  unfold read_atom_line. destruct (_ || _); [|discriminate].
  destruct (JS.parseInt _); [|discriminate]. intros H. injection H as <-. cbn [lineChainId].
  destruct (String.eqb _ _); [simpl; lia|].
  eapply Nat.le_trans; [apply trim_length|]. unfold JS.substring. rewrite substring_length. lia.
Qed.

Lemma polymer_atoms_read (lines : list string) (a : AtomLine) :
  In a (polymer_atoms lines) -> exists line, read_atom_line line = Some a.
Proof.
  unfold polymer_atoms. intros H. apply in_flat_map in H as [line [_ H]].
  unfold polymer_atom in H. destruct (read_atom_line line) as [b|] eqn:E; [|destruct H].
  destruct (String.eqb _ _); [destruct H|]. destruct H as [<-|[]]. exists line. exact E.
Qed.

Lemma ion_suffix_inj (s1 s2 : string) : (s1 ++ "-ion")%string = (s2 ++ "-ion")%string -> s1 = s2.
Proof.
  revert s2; induction s1 as [|c1 s1 IH]; intros [|c2 s2] H; simpl in H; try reflexivity.
  - exfalso. assert (Hl := f_equal String.length H). simpl in Hl. rewrite string_length_app in Hl.
    simpl in Hl. lia.
  - exfalso. assert (Hl := f_equal String.length H). simpl in Hl. rewrite string_length_app in Hl.
    simpl in Hl. lia.
  - injection H as -> H. f_equal. apply IH. exact H.
Qed.

Lemma NoDup_map_injective {A B} (f : A -> B) (l : list A) :
  (forall x y, f x = f y -> x = y) -> NoDup l -> NoDup (map f l).
Proof.
  intros Hf Hl. induction Hl as [|x l Hx Hl IH]; simpl; constructor; [|exact IH].
  intros Hin. apply in_map_iff in Hin as [y [Ey Hy]]. apply Hf in Ey. subst y. contradiction.
Qed.

(** Extra X14: The rows of the table are keyed by [chain.chainId], and these keys are
    unique: polymer chains have distinct ids of at most one character, and
    ion rows are keyed [cid + "-ion"] for distinct [cid]s. *)
Theorem parsePDB_keys_unique (text : string) :
  NoDup (map chainId (parsePDB text)).
Proof.
  eapply Permutation_NoDup; [apply Permutation_map; symmetry; apply parsePDB_perm|].
  set (lines := JS.split_nl text).
  rewrite map_app, !map_map. unfold chains_model, ions_model. rewrite !map_map. cbn.
  rewrite map_id. apply NoDup_app; [| |].
  - apply chain_ids_NoDup.
  - apply NoDup_map_injective; [intros x y; apply ion_suffix_inj|apply chain_ids_NoDup].
  - intros cid Hc Hi. apply in_map_iff in Hi as [cid' [<- _]].
    apply chain_ids_sound in Hc as [b [Hb Eb]].
    apply polymer_atoms_read in Hb as [line Hl].
    apply read_atom_chainId_length in Hl. rewrite Eb, string_length_app in Hl. simpl in Hl. lia.
Qed.

Lemma filter_ext_eq {A : Type} (f g : A -> bool) (l : list A) :
  (forall x, f x = g x) -> filter f l = filter g l.
Proof. intros H. induction l as [|b t IH]; [reflexivity|]. cbn. rewrite H, IH. reflexivity. Qed.

(** Extra X15: The table lists proteins, then RNA, then DNA chains, then the ion rows;
    within one type the rows keep the order of the chains' first atom line
    in the file (the sort is stable), and there is one ion row per chain
    with ions, keyed [cid + "-ion"], in order of the chains' first ion
    line. *)
Theorem parsePDB_row_order (text : string) (k : Z) :
  let lines := JS.split_nl text in
  StronglySorted (fun a b => typeOrder (type a) <= typeOrder (type b)) (parsePDB text) /\
  filter (fun c => typeOrder (type c) =? k) (parsePDB text) =
  filter (fun c => typeOrder (type c) =? k) (map chain_record (chains_model (polymer_atoms lines))) ++
  filter (fun c => typeOrder (type c) =? k) (map ion_record (ions_model (ion_atoms lines))) /\
  map chainId (filter is_ion_record (parsePDB text)) =
  map (fun cid => (cid ++ "-ion")%string) (chain_ids (ion_atoms lines)).
Proof.
  intros lines.
  assert (Hf : forall k', filter (fun c => typeOrder (type c) =? k') (parsePDB text) =
    filter (fun c => typeOrder (type c) =? k') (map chain_record (chains_model (polymer_atoms lines))) ++
    filter (fun c => typeOrder (type c) =? k') (map ion_record (ions_model (ion_atoms lines)))).
  { intros k'. unfold parsePDB, parse_lines. fold lines.
    destruct (parse_lines_state lines) as [Hc Hi]. rewrite <- Hc, <- Hi.
    rewrite (sort_by_filter (fun c => typeOrder (type c))), filter_app. reflexivity. }
  split; [unfold parsePDB, parse_lines; apply (sort_by_sorted (fun c => typeOrder (type c)))|].
  split; [apply Hf|].
  rewrite (filter_ext_eq is_ion_record (fun c => typeOrder (type c) =? 3))
    by (intros c; unfold is_ion_record; destruct (type c); reflexivity).
  rewrite Hf.
  rewrite (filter_key_nil (fun c => typeOrder (type c))).
  2: { intros c Hc. unfold chains_model in Hc. rewrite map_map in Hc.
       apply in_map_iff in Hc as [cid [<- _]]. cbn [chain_record type chain_data_of ctype].
       pose proof (chain_type_not_ion (of_chain cid (first_occurrences (polymer_atoms lines)))) as Hn.
       destruct (fold_left _ _ _); cbn; congruence. }
  rewrite filter_all by (intros c Hc; unfold ions_model in Hc; rewrite map_map in Hc;
                         apply in_map_iff in Hc as [cid [<- _]]; reflexivity).
  simpl. unfold ions_model. rewrite !map_map. reflexivity.
Qed.

Lemma render_line_chars sq start cid pd pae k :
  (k < String.length sq)%nat ->
  map char (concat (lineGroups (render_line sq start cid pd pae k)))
  = map (fun j => match String.get j sq with Some c => c | None => " "%char end)
        (seq k (Nat.min (k + charsPerLine) (String.length sq) - k)).
Proof.
  intros Hk. rewrite render_line_residues by exact Hk. rewrite map_map.
  rewrite <- (Nat.add_0_r k) at 3. rewrite <- map_seq_offset.
  apply map_ext_in. intros i Hi. apply in_seq in Hi. cbn [render_residue char].
  unfold JS.substring. rewrite substring_correct1 by lia. rewrite Nat.add_comm. reflexivity.
Qed.

Lemma render_lines_chars sq start cid pd pae fuel ls :
  (String.length sq - ls <= 40 * fuel)%nat ->
  map char (rendered_residues (render_lines sq start cid pd pae fuel ls))
  = map (fun j => match String.get j sq with Some c => c | None => " "%char end)
        (seq ls (String.length sq - ls)).
Proof.
  revert ls; induction fuel as [|fuel IH]; intros ls Hf; simpl.
  - replace (String.length sq - ls)%nat with 0%nat by lia. reflexivity.
  - destruct (Nat.ltb_spec ls (String.length sq)) as [Hlt|Hge].
    + change (rendered_residues (render_line sq start cid pd pae ls :: render_lines sq start cid pd pae fuel (ls + charsPerLine)))
        with (concat (lineGroups (render_line sq start cid pd pae ls))
              ++ rendered_residues (render_lines sq start cid pd pae fuel (ls + charsPerLine))).
      rewrite map_app, render_line_chars by exact Hlt. rewrite IH by (unfold charsPerLine; lia).
      rewrite <- map_app. f_equal. unfold charsPerLine.
      destruct (Nat.le_gt_cases (ls + 40) (String.length sq)) as [Hle|Hgt].
      * rewrite Nat.min_l by lia.
        replace (String.length sq - ls)%nat with ((ls + 40 - ls) + (String.length sq - (ls + 40)))%nat by lia.
        rewrite seq_app. f_equal. f_equal. lia.
      * rewrite Nat.min_r by lia.
        replace (String.length sq - (ls + 40))%nat with 0%nat by lia.
        simpl. now rewrite app_nil_r.
    + replace (String.length sq - ls)%nat with 0%nat by lia. reflexivity.
Qed.

Lemma chars_of_string (s : string) :
  map (fun j => match String.get j s with Some c => c | None => " "%char end) (seq 0 (String.length s))
  = list_ascii_of_string s.
Proof.
  induction s as [|c s IH]; [reflexivity|].
  cbn [String.length seq map String.get list_ascii_of_string]. f_equal.
  rewrite <- seq_shift, map_map. exact IH.
Qed.

Lemma render_lines_length sq start cid pd pae fuel ls :
  (String.length sq - ls <= 40 * fuel)%nat ->
  length (render_lines sq start cid pd pae fuel ls) = ((String.length sq - ls + 39) / 40)%nat.
Proof.
  revert ls; induction fuel as [|fuel IH]; intros ls Hf; cbn [render_lines].
  - replace (String.length sq - ls)%nat with 0%nat by lia. reflexivity.
  - destruct (Nat.ltb_spec ls (String.length sq)) as [Hlt|Hge].
    + cbn [length]. rewrite IH by (unfold charsPerLine; lia). unfold charsPerLine.
      destruct (Nat.le_gt_cases (ls + 40) (String.length sq)) as [Hle|Hgt].
      * replace (String.length sq - ls + 39)%nat with (1 * 40 + (String.length sq - (ls + 40) + 39))%nat by lia.
        rewrite Nat.div_add_l by lia. reflexivity.
      * replace (String.length sq - (ls + 40))%nat with 0%nat by lia.
        change (S ((0 + 39) / 40)) with 1%nat.
        apply (Nat.div_unique _ _ 1 (String.length sq - ls - 1)); lia.
    + replace (String.length sq - ls)%nat with 0%nat by lia. reflexivity.
Qed.

Lemma render_groups_sizes start cid pd pae fuel ls lseq g :
  Forall (fun grp => grp <> [] /\ (length grp <= 10)%nat)
    (render_groups start cid pd pae fuel ls lseq g).
Proof.
  revert g; induction fuel as [|fuel IH]; intros g; cbn [render_groups]; [constructor|].
  destruct (Nat.ltb_spec g (String.length lseq)) as [Hlt|Hge]; [|constructor].
  constructor; [|apply IH].
  rewrite length_map, length_seq. unfold charsPerGroup. split.
  - destruct (Nat.min (g + 10) (String.length lseq) - g)%nat eqn:E;
      [destruct (Nat.min_spec (g + 10) (String.length lseq)); lia|discriminate].
  - lia.
Qed.

(** Extra X16: [formatSequenceWithScores] shows the whole sequence and nothing else:
    the characters of its residues, row after row, are the chain's
    sequence; there are [ceil(length / 40)] rows, each of at most 40
    residues, in groups of 1 to 10. *)
Theorem formatSequence_layout sq start cid pd pae :
  let rows := formatSequenceWithScores sq start cid pd pae in
  string_of_list_ascii (map char (rendered_residues rows)) = sq /\
  length rows = ((String.length sq + 39) / 40)%nat /\
  (forall l, In l rows ->
     (length (concat (lineGroups l)) <= 40)%nat /\
     Forall (fun grp => grp <> [] /\ (length grp <= 10)%nat) (lineGroups l)).
Proof.
  intros rows. subst rows. unfold formatSequenceWithScores.
  split; [rewrite render_lines_chars by lia; rewrite Nat.sub_0_r, chars_of_string;
          apply string_of_list_ascii_of_string|].
  split; [rewrite render_lines_length by lia; rewrite Nat.sub_0_r; reflexivity|].
  intros l Hl. apply render_lines_in in Hl as [k [-> Hk]].
  split.
  - rewrite render_line_residues by exact Hk. rewrite length_map, length_seq.
    unfold charsPerLine. lia.
  - apply render_groups_sizes.
Qed.

Lemma map_get_set_Z {V : Type} (k k' : Z) (v : V) (m : list (Z * V)) :
  JS.map_get Z.eqb k (JS.map_set Z.eqb k' v m) =
  if k =? k' then Some v else JS.map_get Z.eqb k m.
Proof.
  induction m as [|[k0 v0] m IH]; cbn [JS.map_set JS.map_get].
  - destruct (k =? k'); reflexivity.
  - destruct (Z.eqb_spec k' k0) as [->|Hne]; cbn [JS.map_get].
    + destruct (k =? k0); reflexivity.
    + rewrite IH. destruct (Z.eqb_spec k k0), (Z.eqb_spec k k'); try reflexivity; lia.
Qed.

Lemma build_plddtMap_absent cid scs cids r nums idx m :
  (forall j, nth_error nums j = Some r -> nth_error cids (idx + j) <> Some cid) ->
  JS.map_get Z.eqb r (build_plddtMap cid scs nums cids idx m) = JS.map_get Z.eqb r m.
Proof.
  revert idx m; induction nums as [|n nums IH]; intros idx m H; cbn [build_plddtMap]; [reflexivity|].
  rewrite IH.
  2: { intros j Hj. replace (S idx + j)%nat with (idx + S j)%nat by lia. exact (H (S j) Hj). }
  destruct (nth_error cids idx) as [c|] eqn:Ec; [|reflexivity].
  destruct (String.eqb_spec c cid) as [->|]; [|reflexivity].
  rewrite map_get_set_Z. destruct (Z.eqb_spec r n) as [->|]; [|reflexivity].
  exfalso. apply (H 0%nat eq_refl). rewrite Nat.add_0_r. exact Ec.
Qed.

Lemma build_plddtMap_last cid scs cids r nums idx m j :
  nth_error nums j = Some r -> nth_error cids (idx + j) = Some cid ->
  (forall j', (j < j')%nat -> nth_error nums j' = Some r -> nth_error cids (idx + j') <> Some cid) ->
  JS.map_get Z.eqb r (build_plddtMap cid scs nums cids idx m) = Some (nth_error scs (idx + j)).
Proof.
  revert idx m j; induction nums as [|n nums IH]; intros idx m j Hj Hc Hlast;
    [destruct j; discriminate|].
  cbn [build_plddtMap]. destruct j as [|j].
  - cbn in Hj. injection Hj as ->. rewrite Nat.add_0_r in Hc. rewrite Hc, String.eqb_refl.
    rewrite build_plddtMap_absent.
    + rewrite map_get_set_Z, Z.eqb_refl, Nat.add_0_r. reflexivity.
    + intros j' Hj'. replace (S idx + j')%nat with (idx + S j')%nat by lia. apply (Hlast (S j')); [lia|exact Hj'].
  - replace (idx + S j)%nat with (S idx + j)%nat in Hc |- * by lia. apply IH; [exact Hj|exact Hc|].
    intros j' Hlt Hj'. replace (S idx + j')%nat with (idx + S j')%nat by lia.
    apply (Hlast (S j')); [lia|exact Hj'].
Qed.

(** Extra X17: The pLDDT score shown for a residue of chain [cid] numbered [r] is the
    score at the LAST index [idx] of the pLDDT data whose residue number is
    [r] and whose chain id is [cid] ([undefined], [None], when [scores] is
    shorter); when no index matches, the residue has no score. *)
Theorem rendered_plddt_lookup sq start cid (d : PLDDTData) pae w :
  In w (rendered_residues (formatSequenceWithScores sq start cid (Some d) pae)) ->
  let r := residueNumber w in
  (forall idx, nth_error (residueNumbers d) idx = Some r -> nth_error (chainIds d) idx = Some cid ->
     (forall idx', (idx < idx')%nat -> nth_error (residueNumbers d) idx' = Some r ->
                   nth_error (chainIds d) idx' <> Some cid) ->
     plddtScore w = nth_error (scores d) idx) /\
  ((forall idx, nth_error (residueNumbers d) idx = Some r -> nth_error (chainIds d) idx <> Some cid) ->
     plddtScore w = None).
Proof.
  intros Hin r. destruct (rendered_residue_shape _ _ _ _ _ _ Hin) as [k [i Ew]].
  assert (Es : plddtScore w =
               match JS.map_get Z.eqb r (build_plddtMap cid (scores d) (residueNumbers d) (chainIds d) 0 [])
               with Some s => s | None => None end) by (subst r; rewrite Ew; reflexivity).
  split.
  - intros idx Hn Hc Hlast. rewrite Es.
    rewrite (build_plddtMap_last cid (scores d) (chainIds d) r (residueNumbers d) 0 [] idx); auto.
  - intros Hnone. rewrite Es, build_plddtMap_absent; [reflexivity|]. exact Hnone.
Qed.

Lemma rendered_plddt_lookup_witness :
  let d := {| scores := [50; 60; 70]%Q; residueNumbers := [1; 1; 2]; chainIds := ["A"; "A"; "A"]%string |} in
  let dflt := {| char := " "%char; residueNumber := 0; plddtScore := None; highlightType := HNone |} in
  let w := nth 0 (rendered_residues (formatSequenceWithScores "AG"%string 1 "A"%string (Some d) None)) dflt in
  In w (rendered_residues (formatSequenceWithScores "AG"%string 1 "A"%string (Some d) None)) /\
  plddtScore w = Some 60%Q.
Proof.
  intros d dflt w.
  assert (Hin : In w (rendered_residues (formatSequenceWithScores "AG"%string 1 "A"%string (Some d) None)))
    by (vm_compute; left; reflexivity).
  split; [exact Hin|].
  destruct (rendered_plddt_lookup "AG"%string 1 "A"%string d None w Hin) as [H _].
  apply (H 1%nat); [vm_compute; reflexivity|vm_compute; reflexivity|].
  intros idx' Hlt Hn. destruct idx' as [|[|[|idx']]]; try lia; vm_compute in Hn; try discriminate.
  destruct idx'; discriminate.
Defined.
